(** * Road network simulation: construction engine and tick engine

    A shallow embedding of

    - [modules/roadnetworkgenerator.py] (classes [AsymmetricRoadNetwork] and
      [CustomRoadNetwork]),
    - [modules/car.py], [modules/road.py], [modules/intersection.py] and
      [modules/map_manager.py],

    followed by the properties of the specification that are settled
    against these definitions.

    Conventions of the embedding.

    - Nodes are lattice points, pairs of integers ([Z]).  For an axis-aligned
      integer segment the unit vector computed by [get_unit_vector]
      ([vector / norm]) has the components [sgn dx] and [sgn dy]; it is kept
      as a pair of integers.
    - A Python [dict] is an insertion-ordered association list without
      duplicate keys ([Dict]): iteration order is observable in the source
      (it reaches the stable [sorted] of the overlap check).
    - Python exceptions are values of [error]; a method that mutates [self]
      before it raises returns the mutated state next to the exception.
    - Positions, speeds and distances of the simulation are IEEE 754
      double-precision numbers ([float], the binary64 numbers of Python and
      numpy), with the rounding, the signed zeros, the infinities and the
      NaN of the source; [np.linalg.norm] of a pair is the square root of
      the sum of the two rounded squares.  A Python [int] and an integer
      array enter the arithmetic at their value as a double, which is exact
      for coordinates below 2^53.  Objects shared by reference (cars) live
      in a heap and are named by their index.
    - The module [random] is a tape of raw draws carried in the state. *)

From Stdlib Require Import ZArith Bool Lia Floats String.
From stdpp Require Import base option sorting list.

Set Warnings "-inexact-float".

Set Default Proof Using "Type".
Local Open Scope Z_scope.

(** ** Exceptions *)

Inductive error : Set :=
| NullSegmentError      (* ValueError: Segments with no direction are disallowed *)
| DiagonalSegmentError  (* ValueError: Diagonal segments are disallowed *)
| DuplicateEdgeError    (* ValueError: Attempting to add an already existing direction *)
| InvalidSegmentError   (* ValueError: ... is invalid, diagonal segment or null vector *)
| OverlapError          (* ValueError: ... lines overlap *)
| CrossingError         (* ValueError: Intersection detected between ... *)
| NodeOnSegmentError    (* ValueError: ... has a starting or ending node on ... *)
| ConnectivityError     (* ValueError: All roads are not connected *)
| NoExitError           (* ValueError: intersection at ... has no exit *)
| NoEntranceError       (* ValueError: intersection at ... has no entrance *)
| NoEntryGateError      (* ValueError: At least one entry gate must be defined *)
| NoExitGateError       (* ValueError: At least one exit gate must be defined *)
| UnreachableNodeError  (* RuntimeError: Not all nodes are reachable from an entry gate *)
| KeyError              (* KeyError: subscript of a dict with an absent key *)
| ProbabilityError      (* ValueError: Probability must be between 0 and 1. *)
| ClearanceError        (* ValueError: Clearance must be positive / at least 6 *)
| RoadLengthError       (* ValueError: Clearance must be less than the length of the road. *)
| RoadValidationError   (* ValueError: Roads must be 2x clearance in length ... *)
| IndexError            (* IndexError: pop from an empty deque *)
| AttributeError        (* AttributeError: a method called on None *)
| InvalidHandle         (* not a Python exception: a handle that names no object *)
| OutOfFuel.            (* not a Python exception: the loop bound of the model was hit *)

Inductive result (A : Type) : Type :=
| Ok (a : A)
| Raise (e : error).
Arguments Ok {A} a.
Arguments Raise {A} e.

Definition result_bind {A B} (r : result A) (k : A -> result B) : result B :=
  match r with
  | Ok a => k a
  | Raise e => Raise e
  end.

Declare Scope result_scope.
Delimit Scope result_scope with result.
Notation "'do' x <- r ; k" := (result_bind r (fun x => k))
  (at level 10, x name, r at level 100, k at level 200) : result_scope.
Notation "'check' r ; k" := (result_bind r (fun _ => k))
  (at level 10, r at level 100, k at level 200) : result_scope.

(** ** Insertion-ordered dictionaries *)

Module Dict.
Section Dict.
Context {K V : Type} `{EqDecision K}.

Definition t : Type := list (K * V).

Definition empty : t := [].

(** [d.get(k)] *)
Fixpoint get (d : t) (k : K) : option V :=
  match d with
  | [] => None
  | (k', v) :: d' => if decide (k' = k) then Some v else get d' k
  end.

(** [k in d] *)
Definition mem (d : t) (k : K) : bool :=
  match get d k with Some _ => true | None => false end.

(** [d[k]] *)
Definition getitem (d : t) (k : K) : result V :=
  match get d k with Some v => Ok v | None => Raise KeyError end.

(** [d[k] = v]: an existing key keeps its place, a new key goes last. *)
Fixpoint set (d : t) (k : K) (v : V) : t :=
  match d with
  | [] => [(k, v)]
  | (k', v') :: d' =>
    if decide (k' = k) then (k', v) :: d' else (k', v') :: set d' k v
  end.

(** [list(d)], the keys in iteration order *)
Definition keys (d : t) : list K := map fst d.

(** No key occurs twice: what a Python [dict] guarantees. *)
Definition wf (d : t) : Prop := NoDup (keys d).
End Dict.
Arguments t : clear implicits.
End Dict.

(** ** custom_types.py *)

Abbreviation Node := (Z * Z)%type (only parsing).
Abbreviation Unit_Vector := (Z * Z)%type (only parsing).
Abbreviation Segment := ((Z * Z) * (Z * Z))%type (only parsing).
Abbreviation Graph := (Dict.t (Z * Z) (list ((Z * Z) * (Z * Z)))) (only parsing).

(** ** roadnetworkgenerator.py: AsymmetricRoadNetwork *)

Record Network : Type := mkNetwork {
  outgoing : Graph;
  incoming : Dict.t Node (list Node);
  entry_gates : list Node;
  exit_gates : list Node
}.

(** [AsymmetricRoadNetwork.__init__] *)
Definition empty_network : Network :=
  {| outgoing := Dict.empty; incoming := Dict.empty;
     entry_gates := []; exit_gates := [] |}.

Definition set_outgoing (net : Network) (o : Graph) : Network :=
  {| outgoing := o; incoming := incoming net;
     entry_gates := entry_gates net; exit_gates := exit_gates net |}.

Definition set_incoming (net : Network) (i : Dict.t Node (list Node)) : Network :=
  {| outgoing := outgoing net; incoming := i;
     entry_gates := entry_gates net; exit_gates := exit_gates net |}.

(** [get_unit_vector]: the norm is zero exactly when both differences are. *)
Definition get_unit_vector (segment : Segment) : result Unit_Vector :=
  let '((x1, y1), (x2, y2)) := segment in
  if (x2 - x1 =? 0) && (y2 - y1 =? 0) then Raise NullSegmentError
  else if negb (x1 =? x2) && negb (y1 =? y2) then Raise DiagonalSegmentError
  else Ok (Z.sgn (x2 - x1), Z.sgn (y2 - y1)).

(** [_ensure_node_in_network] *)
Definition _ensure_node_in_network (node : Node) (net : Network) : Network :=
  let net1 :=
    if Dict.mem (outgoing net) node then net
    else set_outgoing net (Dict.set (outgoing net) node []) in
  if Dict.mem (incoming net1) node then net1
  else set_incoming net1 (Dict.set (incoming net1) node []).

Definition vec_eqb (a b : Z * Z) : bool := (fst a =? fst b) && (snd a =? snd b).

(** [_ensure_asymmetric_road] *)
Definition _ensure_asymmetric_road (net : Network)
    (startnode endnode : Node) (direction : Unit_Vector) : result unit :=
  let inverse_direction := (- fst direction, - snd direction) in
  (do out_start <- Dict.getitem (outgoing net) startnode;
   if existsb (fun edge => vec_eqb direction (fst edge)) out_start
   then Raise DuplicateEdgeError
   else
     do out_end <- Dict.getitem (outgoing net) endnode;
     if existsb (fun edge => vec_eqb inverse_direction (fst edge)) out_end
     then Raise DuplicateEdgeError
     else Ok tt)%result.

(** [_add_segment].  The nodes are inserted before the asymmetry check, so
    the state that comes back with an exception may differ from the input. *)
Definition _add_segment (segment : Segment) (net : Network) : result unit * Network :=
  let '(startnode, endnode) := segment in
  match get_unit_vector segment with
  | Raise e => (Raise e, net)
  | Ok direction =>
      let net1 := _ensure_node_in_network startnode net in
      let net2 := _ensure_node_in_network endnode net1 in
      match _ensure_asymmetric_road net2 startnode endnode direction with
      | Raise e => (Raise e, net2)
      | Ok _ =>
          match Dict.get (outgoing net2) startnode with
          | None => (Raise KeyError, net2)
          | Some out_start =>
              let net3 :=
                set_outgoing net2
                  (Dict.set (outgoing net2) startnode (out_start ++ [(direction, endnode)])) in
              match Dict.get (incoming net3) endnode with
              | None => (Raise KeyError, net3)
              | Some in_end =>
                  (Ok tt,
                   set_incoming net3 (Dict.set (incoming net3) endnode (in_end ++ [startnode])))
              end
          end
      end
  end.

(** [convert_to_segments] *)
Definition convert_to_segments (net : Network) : list Segment :=
  flat_map (fun '(startnode, edges) => map (fun edge => (startnode, snd edge)) edges)
           (outgoing net).

Definition len_or_empty {A} (o : option (list A)) : nat :=
  match o with Some l => length l | None => 0%nat end.

(** [_generate_gates] *)
Definition _generate_gates (net : Network) : Network :=
  {| outgoing := outgoing net;
     incoming := incoming net;
     entry_gates :=
       filter (fun node =>
                 len_or_empty (Dict.get (outgoing net) node) = 1%nat
                 /\ len_or_empty (Dict.get (incoming net) node) = 0%nat)
              (Dict.keys (outgoing net));
     exit_gates :=
       filter (fun node =>
                 len_or_empty (Dict.get (incoming net) node) = 1%nat
                 /\ len_or_empty (Dict.get (outgoing net) node) = 0%nat)
              (Dict.keys (incoming net)) |}.

(** [for x in l: body(x)], stopping at the first exception *)
Fixpoint for_each {A} (l : list A) (body : A -> result unit) : result unit :=
  match l with
  | [] => Ok tt
  | x :: l' => (check body x; for_each l' body)%result
  end.

Definition node_in (node : Node) (l : list Node) : bool := bool_decide (node ∈ l).

Definition is_empty {A} (l : list A) : bool :=
  match l with [] => true | _ => false end.

(** [search_for_invalid_intersections] *)
Definition search_for_invalid_intersections (net : Network) : result unit :=
  (check for_each (outgoing net) (fun '(node, edges) =>
           if is_empty edges && negb (node_in node (exit_gates net))
           then Raise NoExitError else Ok tt);
   for_each (incoming net) (fun '(node, preds) =>
           if is_empty preds && negb (node_in node (entry_gates net))
           then Raise NoEntranceError else Ok tt))%result.

(** [visited.add(node)] on a set kept as a duplicate-free list *)
Definition set_add (node : Node) (visited : list Node) : list Node :=
  if node_in node visited then visited else visited ++ [node].

(** The [while stack] loop of [enforce_reachability].  The Python list
    [stack] is kept reversed: its last element, the one [pop()] takes, is
    the head.  A node pushes its neighbours only the first time it is
    popped, so the loop body runs at most once per entry gate and edge. *)
Fixpoint reachability_loop (fuel : nat) (g : Graph) (visited stack : list Node)
    : result (list Node) :=
  match stack with
  | [] => Ok visited
  | node :: stack' =>
      match fuel with
      | O => Raise OutOfFuel
      | S fuel' =>
          let visited' := set_add node visited in
          (do edges <- Dict.getitem g node;
           let stack'' :=
             fold_left (fun st edge =>
                          if node_in (snd edge) visited' then st else snd edge :: st)
                       edges stack' in
           reachability_loop fuel' g visited' stack'')%result
      end
  end.

(** [enforce_reachability] *)
Definition enforce_reachability (net : Network) : result unit :=
  let fuel := S (length (entry_gates net) + length (convert_to_segments net)) in
  (do visited <- reachability_loop fuel (outgoing net) [] (rev (entry_gates net));
   if negb (length visited =? length (outgoing net))%nat
   then Raise UnreachableNodeError else Ok tt)%result.

(** ** roadnetworkgenerator.py: CustomRoadNetwork *)

(** [_generate_roads]: the first exception ends the loop. *)
Fixpoint _generate_roads (segments : list Segment) (net : Network)
    : result unit * Network :=
  match segments with
  | [] => (Ok tt, net)
  | segment :: rest =>
      match _add_segment segment net with
      | (Ok _, net') => _generate_roads rest net'
      | (Raise e, net') => (Raise e, net')
      end
  end.

(** [_sort_by_direction], returning [(vertical_lines, horizontal_lines)] *)
Fixpoint _sort_by_direction (segments : list Segment)
    : result (list Segment * list Segment) :=
  match segments with
  | [] => Ok ([], [])
  | segment :: rest =>
      let '((x1, y1), (x2, y2)) := segment in
      if (x1 =? x2) && negb (y1 =? y2) then
        (do vh <- _sort_by_direction rest; Ok (segment :: fst vh, snd vh))%result
      else if (y1 =? y2) && negb (x1 =? x2) then
        (do vh <- _sort_by_direction rest; Ok (fst vh, segment :: snd vh))%result
      else Raise InvalidSegmentError
  end.

(** [node[axis]] for [axis] 0 or 1 *)
Definition coord (axis : nat) (node : Node) : Z :=
  match axis with O => fst node | _ => snd node end.

(** [sorted(segments, key=...)]: a stable sort, here by insertion. *)
Fixpoint insert_by (key : Segment -> Z) (s : Segment) (l : list Segment) : list Segment :=
  match l with
  | [] => [s]
  | s' :: l' => if key s <=? key s' then s :: s' :: l' else s' :: insert_by key s l'
  end.

Definition sorted_by (key : Segment -> Z) (l : list Segment) : list Segment :=
  foldr (insert_by key) [] l.

(** The test of one adjacent pair in [_check_adjacent_overlap] *)
Definition adjacent_pair_overlaps (fixed_axis main_axis : nat)
    (current_segment next_segment : Segment) : bool :=
  if coord fixed_axis (fst current_segment) =? coord fixed_axis (fst next_segment) then
    let A_start := coord main_axis (fst current_segment) in
    let A_end := coord main_axis (snd current_segment) in
    let B_start := coord main_axis (fst next_segment) in
    let B_end := coord main_axis (snd next_segment) in
    ((A_start <? B_end) && (B_start <? A_end))
    || ((A_start =? B_start) && (A_end =? B_end))
  else false.

(** The loop [for i in range(len(sorted_segments) - 1)] *)
Fixpoint check_adjacent_pairs (fixed_axis main_axis : nat) (sorted_segments : list Segment)
    : result unit :=
  match sorted_segments with
  | current_segment :: ((next_segment :: _) as rest) =>
      if adjacent_pair_overlaps fixed_axis main_axis current_segment next_segment
      then Raise OverlapError
      else check_adjacent_pairs fixed_axis main_axis rest
  | _ => Ok tt
  end.

(** [_check_adjacent_overlap] *)
Definition _check_adjacent_overlap (segments : list Segment) (orientation : string)
    : result unit :=
  let '(fixed_axis, main_axis) :=
    if String.eqb orientation "horizontal" then (1%nat, 0%nat) else (0%nat, 1%nat) in
  let sorted_segments := sorted_by (fun line => coord main_axis (fst line)) segments in
  check_adjacent_pairs fixed_axis main_axis sorted_segments.

(** [_check_intersections] *)
Definition _check_intersections (horizontal_lines vertical_lines : list Segment)
    : result unit :=
  for_each horizontal_lines (fun h_seg =>
    let h_min_x := Z.min (fst (fst h_seg)) (fst (snd h_seg)) in
    let h_max_x := Z.max (fst (fst h_seg)) (fst (snd h_seg)) in
    for_each vertical_lines (fun v_seg =>
      let v_min_y := Z.min (snd (fst v_seg)) (snd (snd v_seg)) in
      let v_max_y := Z.max (snd (fst v_seg)) (snd (snd v_seg)) in
      let v_x := fst (fst v_seg) in
      let h_y := snd (fst h_seg) in
      if (h_min_x <=? v_x) && (v_x <=? h_max_x) && (v_min_y <? h_y) && (h_y <? v_max_y)
      then Raise CrossingError
      else if (h_min_x <? v_x) && (v_x <? h_max_x) && ((v_min_y =? h_y) || (v_max_y =? h_y))
      then Raise NodeOnSegmentError
      else Ok tt)).

(** [d[k].append(x)] *)
Definition dict_append (d : Dict.t Node (list Node)) (k x : Node)
    : result (Dict.t Node (list Node)) :=
  (do l <- Dict.getitem d k; Ok (Dict.set d k (l ++ [x])))%result.

(** The symmetric closure built by [_check_is_connected_network] *)
Definition undirected_graph_of (g : Graph) : result (Dict.t Node (list Node)) :=
  fold_left
    (fun acc '(node, edges) =>
       fold_left
         (fun acc' edge =>
            (do u <- acc';
             do u1 <- dict_append u node (snd edge);
             dict_append u1 (snd edge) node)%result)
         edges acc)
    g (Ok (map (fun '(node, _) => (node, [])) g)).

(** The [while queue] loop of [_check_is_connected_network]; [queue.pop(0)]
    takes the head.  Every node enters the queue at most once, so the loop
    body runs at most once per node that occurs in the graph. *)
Fixpoint connected_loop (fuel : nat) (u : Dict.t Node (list Node))
    (visited queue : list Node) : result (list Node) :=
  match queue with
  | [] => Ok visited
  | node :: queue' =>
      match fuel with
      | O => Raise OutOfFuel
      | S fuel' =>
          (do neighbors <- Dict.getitem u node;
           let '(visited', queue'') :=
             fold_left (fun '(vis, q) neighbor =>
                          if node_in neighbor vis then (vis, q)
                          else (vis ++ [neighbor], q ++ [neighbor]))
                       neighbors (visited, queue') in
           connected_loop fuel' u visited' queue'')%result
      end
  end.

(** [_check_is_connected_network] *)
Definition _check_is_connected_network (net : Network) : result unit :=
  match outgoing net with
  | [] => Ok tt
  | _ =>
      (do u <- undirected_graph_of (outgoing net);
       match Dict.keys u with
       | [] => Ok tt
       | start_node :: _ =>
           let fuel := S (length u + length (concat (map snd u))) in
           do visited <- connected_loop fuel u [start_node] [start_node];
           if negb (length u =? length visited)%nat
           then Raise ConnectivityError else Ok tt
       end)%result
  end.

(** [validate_roads] *)
Definition validate_roads (net : Network) : result unit :=
  if is_empty (entry_gates net) then Raise NoEntryGateError
  else if is_empty (exit_gates net) then Raise NoExitGateError
  else
    let segments := convert_to_segments net in
    (do vh <- _sort_by_direction segments;
     let '(vertical_lines, horizontal_lines) := vh in
     check _check_adjacent_overlap vertical_lines "vertical";
     check _check_adjacent_overlap horizontal_lines "horizontal";
     check _check_intersections horizontal_lines vertical_lines;
     check _check_is_connected_network net;
     search_for_invalid_intersections net)%result.

(** [CustomRoadNetwork.__init__]: the object exists only if nothing raised. *)
Definition CustomRoadNetwork (segments : list Segment) (enforce_valid_paths : bool)
    : result Network :=
  match _generate_roads segments empty_network with
  | (Raise e, _) => Raise e
  | (Ok _, net0) =>
      let net := _generate_gates net0 in
      (check validate_roads net;
       check (if enforce_valid_paths then enforce_reachability net else Ok tt);
       Ok net)%result
  end.


(** ** Vectors of doubles ([numpy] arrays of length 2) *)

Module Vec.
Local Open Scope float_scope.

Definition t : Type := float * float.

(** The value of an integer as a double, rounded to nearest as the
    conversion of an integer array is; integers are taken below 2^63, the
    range of the integer arrays of numpy. *)
Definition of_int (z : Z) : float :=
  if (z <? 0)%Z then - of_uint63 (Uint63.of_Z (- z)) else of_uint63 (Uint63.of_Z z).

Definition of_node (n : Node) : t := (of_int (fst n), of_int (snd n)).

Definition add (a b : t) : t := (fst a + fst b, snd a + snd b).
Definition sub (a b : t) : t := (fst a - fst b, snd a - snd b).
(** [scalar * array] and [array * scalar] *)
Definition scale (k : float) (v : t) : t := (k * fst v, k * snd v).
Definition scale_r (v : t) (k : float) : t := (fst v * k, snd v * k).

(** [np.linalg.norm]: [sqrt(dot(v, v))] *)
Definition norm (v : t) : float := sqrt (fst v * fst v + snd v * snd v).

(** The comparisons [x < y], [x <= y] and [x == y] of two doubles: each is
    false when an operand is NaN, and the two zeros are equal. *)
Definition ltb (x y : float) : bool := x <? y.
Definition leb (x y : float) : bool := x <=? y.
Definition eqb (x y : float) : bool := x =? y.

(** [np.array_equal] *)
Definition array_equal (a b : t) : bool := eqb (fst a) (fst b) && eqb (snd a) (snd b).

(** The builtins [min(a, b)] and [max(a, b)]: the second argument is taken
    only when the comparison with the first succeeds. *)
Definition min (a b : float) : float := if ltb b a then b else a.
Definition max (a b : float) : float := if ltb a b then b else a.
End Vec.

(** ** car.py *)

Module Car.
Record t : Type := mk {
  ID : nat;
  color : Z * Z * Z;
  max_speed : float;
  position : Vec.t
}.

(** [move]: the attribute [position] is rebound on the object itself. *)
Definition move (car : t) (new_position : Vec.t) : t :=
  {| ID := ID car; color := color car; max_speed := max_speed car;
     position := new_position |}.
End Car.

(** ** road.py *)

Module Road.
Local Open Scope float_scope.

Record t : Type := mk {
  startnode : Vec.t;
  endnode : Vec.t;
  direction : Vec.t;
  spawn_probability : float;
  has_entry : bool;
  has_exit : bool;
  connected_intersection : option nat;   (* handle of an Intersection, or None *)
  cars : list nat;                       (* the deque of car handles, front first *)
  clearance : float;
  stop_line : Vec.t
}.

(** [Road.__init__] *)
Definition init (segment : Vec.t * Vec.t) (direction : Vec.t) (clearance : float)
    (probability : float) (entry exit : bool) : result t :=
  if Vec.ltb probability 0 || Vec.ltb 1 probability then Raise ProbabilityError
  else if Vec.leb clearance 0 then Raise ClearanceError
  else if Vec.leb (Vec.norm (Vec.sub (snd segment) (fst segment))) clearance
  then Raise RoadLengthError
  else if Vec.eqb (Vec.norm (Vec.sub (snd segment) (fst segment))) 0
  then Raise NullSegmentError
  else Ok {| startnode := fst segment;
             endnode := snd segment;
             direction := direction;
             spawn_probability := probability;
             has_entry := entry;
             has_exit := exit;
             connected_intersection := None;
             cars := [];
             clearance := clearance;
             stop_line := Vec.sub (snd segment) (Vec.scale clearance direction) |}.

Definition set_cars (road : t) (cs : list nat) : t :=
  {| startnode := startnode road; endnode := endnode road;
     direction := direction road; spawn_probability := spawn_probability road;
     has_entry := has_entry road; has_exit := has_exit road;
     connected_intersection := connected_intersection road;
     cars := cs; clearance := clearance road; stop_line := stop_line road |}.

Definition set_connected_intersection (road : t) (i : option nat) : t :=
  {| startnode := startnode road; endnode := endnode road;
     direction := direction road; spawn_probability := spawn_probability road;
     has_entry := has_entry road; has_exit := has_exit road;
     connected_intersection := i;
     cars := cars road; clearance := clearance road; stop_line := stop_line road |}.

(** [add_car] *)
Definition add_car (road : t) (car : nat) : t := set_cars road (cars road ++ [car]).

(** [remove_first_car]: [deque.popleft()] *)
Definition remove_first_car (road : t) : result (nat * t) :=
  match cars road with
  | [] => Raise IndexError
  | car :: rest => Ok (car, set_cars road rest)
  end.

(** [distance_to_endnode] *)
Definition distance_to_endnode (road : t) (position : Vec.t) : float :=
  Vec.norm (Vec.sub position (endnode road)).
End Road.

(** ** intersection.py: the record *)

Module Intersection.
Record t : Type := mk {
  position : Vec.t;
  incoming_roads : list nat;    (* handles of Road objects *)
  outgoing_roads : list nat;
  min_clearance : float
}.

(** [Intersection.__init__] *)
Definition init (position : Vec.t) (clearance : float) : t :=
  {| position := position; incoming_roads := []; outgoing_roads := [];
     min_clearance := clearance |}.

(** [add_incoming_road] and [add_outgoing_road] *)
Definition add_incoming_road (i : t) (road : nat) : t :=
  {| position := position i; incoming_roads := incoming_roads i ++ [road];
     outgoing_roads := outgoing_roads i; min_clearance := min_clearance i |}.
Definition add_outgoing_road (i : t) (road : nat) : t :=
  {| position := position i; incoming_roads := incoming_roads i;
     outgoing_roads := outgoing_roads i ++ [road]; min_clearance := min_clearance i |}.

(** [distance_to_car] *)
Definition distance_to_car (i : t) (car : Car.t) : float :=
  Vec.norm (Vec.sub (Car.position car) (position i)).
End Intersection.

(** ** The state of the running program

    Cars, roads and intersections are Python objects shared by reference;
    each lives in a table and is named by its index there.  [roads] is at
    once [MapManager.roads] and the table of [Road] objects. *)

Record World : Type := mkWorld {
  car_heap : list Car.t;
  roads : list Road.t;
  entry_roads : list nat;
  intersections : list Intersection.t;
  min_clearance : float;                 (* MapManager.min_clearance *)
  generation_count : nat;            (* Car.generation_count *)
  random_tape : list nat             (* the draws the module random will make *)
}.

Definition set_car_heap (w : World) (h : list Car.t) : World :=
  {| car_heap := h; roads := roads w; entry_roads := entry_roads w;
     intersections := intersections w; min_clearance := min_clearance w;
     generation_count := generation_count w; random_tape := random_tape w |}.

Definition set_roads (w : World) (rs : list Road.t) : World :=
  {| car_heap := car_heap w; roads := rs; entry_roads := entry_roads w;
     intersections := intersections w; min_clearance := min_clearance w;
     generation_count := generation_count w; random_tape := random_tape w |}.

Definition set_intersections (w : World) (table : list Intersection.t) : World :=
  {| car_heap := car_heap w; roads := roads w; entry_roads := entry_roads w;
     intersections := table; min_clearance := min_clearance w;
     generation_count := generation_count w; random_tape := random_tape w |}.

Definition set_random_tape (w : World) (tape : list nat) : World :=
  {| car_heap := car_heap w; roads := roads w; entry_roads := entry_roads w;
     intersections := intersections w; min_clearance := min_clearance w;
     generation_count := generation_count w; random_tape := tape |}.

Definition handle_lookup {A} (table : list A) (h : nat) : result A :=
  match table !! h with Some x => Ok x | None => Raise InvalidHandle end.

Definition get_car (w : World) (car : nat) : result Car.t := handle_lookup (car_heap w) car.
Definition get_road (w : World) (road : nat) : result Road.t := handle_lookup (roads w) road.
Definition get_intersection (w : World) (i : nat) : result Intersection.t :=
  handle_lookup (intersections w) i.

Definition put_car (w : World) (car : nat) (c : Car.t) : World :=
  set_car_heap w (<[car := c]> (car_heap w)).
Definition put_road (w : World) (road : nat) (r : Road.t) : World :=
  set_roads w (<[road := r]> (roads w)).

(** ** The module [random] *)

Module Random.
Local Open Scope nat_scope.

Definition next_draw (w : World) : nat * World :=
  match random_tape w with
  | [] => (0, w)
  | x :: tape => (x, set_random_tape w tape)
  end.

(** [_randbelow(n)]: some number below [n] *)
Definition randbelow (n : nat) (w : World) : nat * World :=
  let '(x, w') := next_draw w in (x mod n, w').

(** [random.random()]: a multiple of 2^-53 in [0, 1) *)
Definition random (w : World) : float * World :=
  let '(x, w') := next_draw w in
  ((Vec.of_int (Z.of_nat x mod 2 ^ 53) / 0x1p+53)%float, w').

(** [random.choice(seq)] on a non-empty sequence *)
Definition choice {A} (seq : list A) (w : World) : result (A * World) :=
  let '(j, w') := randbelow (length seq) w in
  match seq !! j with
  | Some x => Ok (x, w')
  | None => Raise IndexError
  end.

(** [x[i], x[j] = x[j], x[i]] *)
Definition swap {A} (x : list A) (i j : nat) : list A :=
  match x !! i, x !! j with
  | Some xi, Some xj => <[j := xi]> (<[i := xj]> x)
  | _, _ => x
  end.

(** The loop of [random.shuffle]: [for i in reversed(range(1, len(x)))] *)
Fixpoint shuffle_loop {A} (i : nat) (x : list A) (w : World) : list A * World :=
  match i with
  | O => (x, w)
  | S i' =>
      let '(j, w') := randbelow (S i) w in
      shuffle_loop i' (swap x i j) w'
  end.

Definition shuffle {A} (x : list A) (w : World) : list A * World :=
  shuffle_loop (length x - 1) x w.

(** [random.uniform(a, b)] *)
Definition uniform (a b : float) (w : World) : float * World :=
  let '(u, w') := random w in ((a + (b - a) * u)%float, w').

(** One element of [random.choices(range(256), k=3)]:
    [floor(random() * 256)] *)
Definition choices_256 (w : World) : Z * World :=
  let '(x, w') := next_draw w in
  (((Z.of_nat x mod 2 ^ 53) / 2 ^ 45)%Z, w').
End Random.

(** ** Stateful computations: a state and exception monad over [World] *)

Definition Sim (A : Type) : Type := World -> result (A * World).

Definition sim_ret {A} (a : A) : Sim A := fun w => Ok (a, w).

Definition sim_bind {A B} (m : Sim A) (k : A -> Sim B) : Sim B :=
  fun w => match m w with
           | Ok (a, w') => k a w'
           | Raise e => Raise e
           end.

(** A computation that only reads the state *)
Definition sim_read {A} (f : World -> result A) : Sim A :=
  fun w => match f w with Ok a => Ok (a, w) | Raise e => Raise e end.

(** A computation that cannot raise *)
Definition sim_total {A} (f : World -> A * World) : Sim A := fun w => Ok (f w).

Definition sim_write (f : World -> World) : Sim unit := fun w => Ok (tt, f w).

Definition sim_raise {A} (e : error) : Sim A := fun _ => Raise e.

Declare Scope sim_scope.
Delimit Scope sim_scope with sim.
Notation "'do' x <- m ; k" := (sim_bind m (fun x => k))
  (at level 10, x name, m at level 100, k at level 200) : sim_scope.
Notation "'run' m ; k" := (sim_bind m (fun _ => k))
  (at level 10, m at level 100, k at level 200) : sim_scope.

Fixpoint sim_for_each {A} (l : list A) (body : A -> Sim unit) : Sim unit :=
  match l with
  | [] => sim_ret tt
  | x :: l' => (run body x; sim_for_each l' body)%sim
  end.

(** ** intersection.py: the methods that look at roads and cars *)

(** The loop of [closest_incoming_car]; [road.cars[0]] is the head. *)
Fixpoint closest_incoming_loop (w : World) (i : Intersection.t) (rs : list nat)
    (closest_car : nat) (min_distance : float) : result nat :=
  match rs with
  | [] => Ok closest_car
  | road_h :: rest =>
      (do road <- get_road w road_h;
       match Road.cars road with
       | [] => closest_incoming_loop w i rest closest_car min_distance
       | first :: _ =>
           do c <- get_car w first;
           let distance := Intersection.distance_to_car i c in
           if Vec.ltb distance min_distance
           then closest_incoming_loop w i rest first distance
           else closest_incoming_loop w i rest closest_car min_distance
       end)%result
  end.

(** [closest_incoming_car] *)
Definition closest_incoming_car (w : World) (i : Intersection.t) (priority_car : nat)
    : result nat :=
  (do pc <- get_car w priority_car;
   closest_incoming_loop w i (Intersection.incoming_roads i) priority_car
     (Intersection.distance_to_car i pc))%result.

(** The loop of [closest_outgoing_car]; the accumulator [None] stands for
    [closest_car = None] with [min_distance = inf], and [road.cars[-1]] is
    the last handle of the deque. *)
Fixpoint closest_outgoing_loop (w : World) (i : Intersection.t) (rs : list nat)
    (acc : option (nat * float)) : result (option (nat * float)) :=
  match rs with
  | [] => Ok acc
  | road_h :: rest =>
      (do road <- get_road w road_h;
       match last (Road.cars road) with
       | None => closest_outgoing_loop w i rest acc
       | Some back =>
           do c <- get_car w back;
           let distance := Intersection.distance_to_car i c in
           match acc with
           | None => closest_outgoing_loop w i rest (Some (back, distance))
           | Some (_, min_distance) =>
               if Vec.ltb distance min_distance
               then closest_outgoing_loop w i rest (Some (back, distance))
               else closest_outgoing_loop w i rest acc
           end
       end)%result
  end.

(** [closest_outgoing_car] *)
Definition closest_outgoing_car (w : World) (i : Intersection.t) : result (option nat) :=
  (do acc <- closest_outgoing_loop w i (Intersection.outgoing_roads i) None;
   Ok (option_map fst acc))%result.

(** [can_approach] *)
Definition can_approach (w : World) (i : Intersection.t) (car : nat) : result bool :=
  (do closest_car <- closest_outgoing_car w i;
   do occupied <-
     match closest_car with
     | None => Ok false
     | Some c =>
         do cc <- get_car w c;
         Ok (Vec.ltb (Intersection.distance_to_car i cc) (Intersection.min_clearance i))
     end;
   if (occupied : bool) then Ok false
   else
     do closest <- closest_incoming_car w i car;
     if negb (car =? closest)%nat then Ok false else Ok true)%result.

(** The loop of [find_available_road] *)
Fixpoint available_roads (w : World) (i : Intersection.t) (rs : list nat)
    : result (list nat) :=
  match rs with
  | [] => Ok []
  | road_h :: rest =>
      (do road <- get_road w road_h;
       do here <-
         match last (Road.cars road) with
         | None => Ok true
         | Some back =>
             do c <- get_car w back;
             Ok (Vec.leb (Intersection.min_clearance i * 2)
                          (Vec.norm (Vec.sub (Car.position c) (Intersection.position i))))
         end;
       do others <- available_roads w i rest;
       Ok (if (here : bool) then road_h :: others else others))%result
  end.

(** [find_available_road] *)
Definition find_available_road (i : Intersection.t) : Sim (option nat) :=
  (do available <- sim_read (fun w => available_roads w i (Intersection.outgoing_roads i));
   match available with
   | [] => sim_ret None
   | _ => do road <- Random.choice available; sim_ret (Some road)
   end)%sim.

(** ** map_manager.py *)

Module MapManager.

(** [_max_speed]; [self] is the world, the cars are the objects as they
    are when the method is called. *)
Definition _max_speed (w : World) (car : Car.t) (car_in_front : option Car.t)
    (road : Road.t) : float :=
  let dist_to_end := Vec.norm (Vec.sub (Road.endnode road) (Car.position car)) in
  match car_in_front with
  | Some front =>
      let dist_to_car_infront :=
        Vec.norm (Vec.sub (Car.position front) (Car.position car)) in
      let max_movement :=
        Vec.min (dist_to_car_infront - min_clearance w)%float (Car.max_speed car) in
      let max_movement := Vec.max 0%float max_movement in
      Vec.min dist_to_end max_movement
  | None => Vec.min dist_to_end (Car.max_speed car)
  end.

(** [intersection.m(...)] where [intersection] may be [None] *)
Definition deref_intersection (w : World) (intersection : option nat)
    : result Intersection.t :=
  match intersection with
  | None => Raise AttributeError
  | Some ih => get_intersection w ih
  end.

(** [_handle_exit] *)
Definition _handle_exit (road_h : nat) (intersection : option nat) : Sim unit :=
  (do road <- sim_read (fun w => get_road w road_h);
   if Road.has_exit road then
     do popped <- sim_read (fun _ => Road.remove_first_car road);
     sim_write (fun w => put_road w road_h (snd popped))
   else
     do i <- sim_read (fun w => deref_intersection w intersection);
     do new_road <- find_available_road i;
     match new_road with
     | None => sim_ret tt
     | Some new_road_h =>
         do popped <- sim_read (fun _ => Road.remove_first_car road);
         run sim_write (fun w => put_road w road_h (snd popped));
         do target <- sim_read (fun w => get_road w new_road_h);
         sim_write (fun w => put_road w new_road_h (Road.add_car target (fst popped)))
     end)%sim.

(** [cars[i - 1] if i > 0 else None], read as an object: the handle is
    followed when the car is used, not when the snapshot is taken. *)
Definition front_car (w : World) (car_in_front : option nat) : result (option Car.t) :=
  match car_in_front with
  | None => Ok None
  | Some f => (do c <- get_car w f; Ok (Some c))%result
  end.

(** The call [self._max_speed(car, car_in_front, road)] in [move_cars] *)
Definition free_speed (w : World) (road : Road.t) (car_h : nat)
    (car_in_front : option nat) : result float :=
  (do car <- get_car w car_h;
   do front <- front_car w car_in_front;
   Ok (_max_speed w car front road))%result.

(** The position a car is sent to by one pass of the inner loop of
    [move_cars], before exit handling: [(denied, new_position)]. *)
Definition car_target (w : World) (road : Road.t) (car_h : nat)
    (car_in_front : option nat) : result (bool * Vec.t) :=
  (do car <- get_car w car_h;
   do max_speed <- free_speed w road car_h car_in_front;
   let max_position :=
     Vec.add (Car.position car) (Vec.scale_r (Road.direction road) max_speed) in
   do denied <-
     (if Vec.leb (Road.distance_to_endnode road max_position) (min_clearance w)
      then
        do i <- deref_intersection w (Road.connected_intersection road);
        do allowed <- can_approach w i car_h;
        Ok (negb allowed)
      else Ok false);
   Ok (if (denied : bool) then (true, Road.stop_line road)
       else (false, max_position)))%result.

(** The body of the inner loop of [move_cars] for one car of the
    snapshot. *)
Definition move_car (road_h : nat) (car_in_front : option nat) (car_h : nat)
    : Sim unit :=
  (do road <- sim_read (fun w => get_road w road_h);
   do target <- sim_read (fun w => car_target w road car_h car_in_front);
   do car <- sim_read (fun w => get_car w car_h);
   run sim_write (fun w => put_car w car_h (Car.move car (snd target)));
   if negb (fst target) && Vec.array_equal (snd target) (Road.endnode road)
   then _handle_exit road_h (Road.connected_intersection road)
   else sim_ret tt)%sim.

(** [for i, car in enumerate(cars)] over the snapshot [cars];
    [car_in_front] is [cars[i - 1]], or [None] for the first car. *)
Fixpoint move_snapshot (road_h : nat) (car_in_front : option nat) (cars : list nat)
    : Sim unit :=
  match cars with
  | [] => sim_ret tt
  | car_h :: rest =>
      (run move_car road_h car_in_front car_h;
       move_snapshot road_h (Some car_h) rest)%sim
  end.

(** The body of the outer loop of [move_cars]: [cars = road.cars.copy()]
    copies the handles, not the cars. *)
Definition move_road (road_h : nat) : Sim unit :=
  (do road <- sim_read (fun w => get_road w road_h);
   move_snapshot road_h None (Road.cars road))%sim.

(** [move_cars] *)
Definition move_cars : Sim unit :=
  (do road_copy <- sim_total (fun w => Random.shuffle (seq 0 (length (roads w))) w);
   sim_for_each road_copy move_road)%sim.

(** [Car.__init__], with the default [speed_range] *)
Definition new_car (position : Vec.t) : Sim nat :=
  (do r <- sim_total Random.choices_256;
   do g <- sim_total Random.choices_256;
   do b <- sim_total Random.choices_256;
   do speed <- sim_total (Random.uniform 0.7 1.3);
   fun w =>
     let car := {| Car.ID := generation_count w; Car.color := (r, g, b);
                   Car.max_speed := speed; Car.position := position |} in
     Ok (length (car_heap w),
         {| car_heap := car_heap w ++ [car]; roads := roads w;
            entry_roads := entry_roads w; intersections := intersections w;
            min_clearance := min_clearance w;
            generation_count := S (generation_count w);
            random_tape := random_tape w |}))%sim.

(** [Road.generate_car_from_gate] *)
Definition generate_car_from_gate (road_h : nat) : Sim unit :=
  (do road <- sim_read (fun w => get_road w road_h);
   do free <- sim_read (fun w =>
     if Road.has_entry road then
       match last (Road.cars road) with
       | None => Ok true
       | Some back =>
           (do c <- get_car w back;
            Ok (Vec.leb (Road.clearance road)
                         (Vec.norm (Vec.sub (Car.position c) (Road.startnode road)))))%result
       end
     else Ok false);
   if (free : bool) then
     do u <- sim_total Random.random;
     if Vec.leb u (Road.spawn_probability road) then
       do car_h <- new_car (Road.startnode road);
       do road' <- sim_read (fun w => get_road w road_h);
       sim_write (fun w => put_road w road_h (Road.add_car road' car_h))
     else sim_ret tt
   else sim_ret tt)%sim.

(** [generate_cars] *)
Definition generate_cars : Sim unit :=
  (do entries <- sim_read (fun w => Ok (entry_roads w));
   sim_for_each entries generate_car_from_gate)%sim.

(** The cars on the roads, in the order [update_car] visits them *)
Definition cars_on_roads (w : World) : result (list Car.t) :=
  fold_right (fun road acc =>
                (do rest <- acc;
                 do here <- fold_right (fun car_h acc' =>
                              (do tl <- acc'; do c <- get_car w car_h; Ok (c :: tl)))
                            (Ok []) (Road.cars road);
                 Ok (here ++ rest))%result)
             (Ok []) (roads w).

(** The two calls [self.move_cars(); self.generate_cars()] of
    [update_car]: what one tick does to the state. *)
Definition tick : Sim unit := (run move_cars; generate_cars)%sim.

(** [update_car]: one tick.  The two output lists are cleared and
    filled anew, so they are results. *)
Definition update_car : Sim (list Vec.t * list (Z * Z * Z)) :=
  (run tick;
   do cs <- sim_read cars_on_roads;
   sim_ret (map Car.position cs, map Car.color cs))%sim.

(** [_generate_roads] *)
Definition _generate_roads (road_network : Graph) (entry_gates exit_gates : list Node)
    (probability : float) : Sim unit :=
  if Vec.ltb probability 0 || Vec.ltb 1 probability then sim_raise ProbabilityError
  else
    sim_for_each road_network (fun '(startnode, edges) =>
      sim_for_each edges (fun '(direction, endnode) =>
        let entry := node_in startnode entry_gates in
        let exit := node_in endnode exit_gates in
        (do road <- sim_read (fun w =>
               Road.init (Vec.of_node startnode, Vec.of_node endnode)
                         (Vec.of_node direction) (min_clearance w) probability entry exit);
         fun w =>
           let h := length (roads w) in
           Ok (tt,
               {| car_heap := car_heap w; roads := roads w ++ [road];
                  entry_roads := if entry then entry_roads w ++ [h] else entry_roads w;
                  intersections := intersections w;
                  min_clearance := min_clearance w;
                  generation_count := generation_count w;
                  random_tape := random_tape w |}))%sim)).

(** [_validate_roads] *)
Definition _validate_roads (w : World) : bool :=
  let min_length := (2 * min_clearance w)%float in
  forallb (fun road =>
             if Vec.ltb (Vec.norm (Vec.sub (Road.endnode road) (Road.startnode road)))
                         min_length
             then false
             else if negb (Vec.eqb (fst (Road.direction road)) 0
                           || Vec.eqb (snd (Road.direction road)) 0)
             then false
             else true)
          (roads w).

(** The body of the double loop of [_generate_intersections] *)
Definition link (road_h ih : nat) : Sim unit :=
  (do road <- sim_read (fun w => get_road w road_h);
   do i <- sim_read (fun w => get_intersection w ih);
   run (if Vec.array_equal (Road.endnode road) (Intersection.position i) then
          sim_write (fun w =>
            put_road
              (set_intersections w
                 (<[ih := Intersection.add_incoming_road i road_h]> (intersections w)))
              road_h (Road.set_connected_intersection road (Some ih)))
        else sim_ret tt);
   do i' <- sim_read (fun w => get_intersection w ih);
   if Vec.array_equal (Road.startnode road) (Intersection.position i') then
     sim_write (fun w =>
       set_intersections w
         (<[ih := Intersection.add_outgoing_road i' road_h]> (intersections w)))
   else sim_ret tt)%sim.

(** [_generate_intersections] *)
Definition _generate_intersections (road_network : Graph) : Sim unit :=
  (run sim_for_each (Dict.keys road_network) (fun node =>
         sim_write (fun w =>
           set_intersections w
             (intersections w ++
                [Intersection.init (Vec.of_node node) (min_clearance w)])));
   do nroads <- sim_read (fun w => Ok (length (roads w)));
   do nints <- sim_read (fun w => Ok (length (intersections w)));
   sim_for_each (seq 0 nroads) (fun road_h =>
     sim_for_each (seq 0 nints) (fun ih => link road_h ih)))%sim.

(** [MapManager.__init__]; the process-wide car counter and the tape of
    the random module exist before the object does. *)
Definition init (road_network : Graph) (entry_gates exit_gates : list Node)
    (probability clearance : float) (generation_count0 : nat) (tape : list nat)
    : result World :=
  let w0 := {| car_heap := []; roads := []; entry_roads := []; intersections := [];
               min_clearance := clearance; generation_count := generation_count0;
               random_tape := tape |} in
  if Vec.ltb probability 0 || Vec.ltb 1 probability then Raise ProbabilityError
  else if Vec.ltb clearance 6 then Raise ClearanceError
  else
    match _generate_roads road_network entry_gates exit_gates probability w0 with
    | Raise e => Raise e
    | Ok (_, w1) =>
        if negb (_validate_roads w1) then Raise RoadValidationError
        else
          match _generate_intersections road_network w1 with
          | Raise e => Raise e
          | Ok (_, w2) => Ok w2
          end
    end.
End MapManager.

(** ** Notions used to state the properties of the graph *)

(** The network of the test suite ([test_map_manager.py]) *)
Definition test_segments : list Segment :=
  [((0, 0), (100, 0)); ((100, 0), (100, 100)); ((100, 100), (0, 100));
   ((0, 100), (0, 0)); ((0, 0), (0, -100)); ((200, 100), (100, 100))].

(** The state after the two calls of [_ensure_node_in_network] in
    [_add_segment] *)
Definition ensure_both (segment : Segment) (net : Network) : Network :=
  _ensure_node_in_network (snd segment) (_ensure_node_in_network (fst segment) net).

(** The segments of a graph: [convert_to_segments] on the mapping alone *)
Definition graph_segments (g : Graph) : list Segment :=
  flat_map (fun '(startnode, edges) =>
              map (fun edge : Unit_Vector * Node => (startnode, snd edge)) edges) g.

(** Degrees of a node, counted on the edges of the graph *)
Definition out_degree (net : Network) (n : Node) : nat :=
  length (filter (fun s : Segment => fst s = n) (convert_to_segments net)).
Definition in_degree (net : Network) (n : Node) : nat :=
  length (filter (fun s : Segment => snd s = n) (convert_to_segments net)).

Definition or_empty {A} (o : option (list A)) : list A :=
  match o with Some l => l | None => [] end.

(** What every state of the builder satisfies: no key twice, every edge
    labelled with the unit vector of its segment, and [incoming] the
    inverse of [outgoing]. *)
Record network_inv (net : Network) : Prop := mk_network_inv {
  inv_out_wf : Dict.wf (outgoing net);
  inv_in_wf : Dict.wf (incoming net);
  inv_labels : forall k l d e,
    Dict.get (outgoing net) k = Some l -> (d, e) ∈ l -> get_unit_vector (k, e) = Ok d;
  inv_incoming : forall n,
    or_empty (Dict.get (incoming net) n)
    ≡ₚ map fst (filter (fun s : Segment => snd s = n) (convert_to_segments net))
}.

(** ** Overlap of collinear segments, in the words of the specification *)

(** The range a segment covers on the varying axis *)
Definition range_lo (main_axis : nat) (s : Segment) : Z :=
  Z.min (coord main_axis (fst s)) (coord main_axis (snd s)).
Definition range_hi (main_axis : nat) (s : Segment) : Z :=
  Z.max (coord main_axis (fst s)) (coord main_axis (snd s)).

(** Both segments lie on one line of the orientation whose fixed axis is
    [fixed_axis]. *)
Definition same_line (fixed_axis : nat) (a b : Segment) : Prop :=
  coord fixed_axis (fst a) = coord fixed_axis (snd a)
  /\ coord fixed_axis (fst b) = coord fixed_axis (snd b)
  /\ coord fixed_axis (fst a) = coord fixed_axis (fst b).

(** The ranges have more than a point in common (identical ranges of
    segments that are not null included). *)
Definition ranges_overlap (main_axis : nat) (a b : Segment) : Prop :=
  range_lo main_axis a < range_hi main_axis b
  /\ range_lo main_axis b < range_hi main_axis a.

(** The ranges meet in exactly one endpoint. *)
Definition share_only_endpoint (main_axis : nat) (a b : Segment) : Prop :=
  range_hi main_axis a = range_lo main_axis b
  \/ range_hi main_axis b = range_lo main_axis a.

(** The segment runs in the positive direction of the axis. *)
Definition forward (main_axis : nat) (s : Segment) : Prop :=
  coord main_axis (fst s) < coord main_axis (snd s).

(** A network the builder accepts although two of its roads, both running
    in the negative x direction on the line y = 0, cover the stretch from
    x = 5 to x = 10 twice. *)
Definition overlapping_segments : list Segment :=
  [((10, 0), (0, 0)); ((15, 0), (5, 0)); ((0, 0), (0, 5)); ((0, 5), (15, 5));
   ((15, 5), (15, 0))].

(** ** Measures that bound the two graph searches *)

(** The nodes that occur in a symmetric closure, as keys or as neighbours *)
Definition occurring_nodes (u : Dict.t Node (list Node)) : list Node :=
  Dict.keys u ++ concat (map snd u).

(** The edges that leave nodes not yet visited *)
Definition unvisited_edges (g : Graph) (visited : list Node) : nat :=
  sum_list (map (fun '(k, edges) => if node_in k visited then 0%nat else length edges) g).

(** Every visited node that is still on the stack has each of its
    neighbours visited or above it on the stack. *)
Definition stale_copies_done (g : Graph) (visited stack : list Node) : Prop :=
  forall above u below edges,
    stack = above ++ u :: below -> u ∈ visited -> Dict.get g u = Some edges ->
    forall edge, edge ∈ edges -> snd edge ∈ visited \/ snd edge ∈ above.

(** ** Worlds used to state the end-to-end properties *)

(** The world [MapManager] builds from the single segment (0,0) -> (100,0)
    of [Test_move_cars] with clearance 6: one road, handle 0, between the
    intersections 0 and 1. *)
Definition single_road (probability : float) (queue : list nat) : Road.t :=
  {| Road.startnode := (0, 0)%float; Road.endnode := (100, 0)%float;
     Road.direction := (1, 0)%float; Road.spawn_probability := probability;
     Road.has_entry := true; Road.has_exit := true;
     Road.connected_intersection := Some 1%nat;
     Road.cars := queue; Road.clearance := 6%float; Road.stop_line := (94, 0)%float |}.

Definition single_road_world (probability : float) (heap : list Car.t) (queue : list nat)
    (count : nat) (tape : list nat) : World :=
  {| car_heap := heap;
     roads := [single_road probability queue];
     entry_roads := [0%nat];
     intersections :=
       [ {| Intersection.position := (0, 0)%float; Intersection.incoming_roads := [];
            Intersection.outgoing_roads := [0%nat]; Intersection.min_clearance := 6%float |};
         {| Intersection.position := (100, 0)%float; Intersection.incoming_roads := [0%nat];
            Intersection.outgoing_roads := []; Intersection.min_clearance := 6%float |} ];
     min_clearance := 6%float;
     generation_count := count;
     random_tape := tape |}.

(** The network of two roads in a row, (0,0) -> (100,0) -> (200,0), as
    [CustomRoadNetwork] hands it to [MapManager] *)
Definition junction_network : Graph :=
  [((0, 0), [((1, 0), (100, 0))]); ((100, 0), [((1, 0), (200, 0))]); ((200, 0), [])].

(** The state [MapManager] reaches from [junction_network] with entry gate
    (0,0) and exit gate (200,0): road 0 ends at the intersection 1, where
    road 1 starts.  (That [MapManager.init] builds it is
    [junction_world_init].) *)
Definition junction_roads (probability clearance : float) (queue0 queue1 : list nat)
    : list Road.t :=
  [ {| Road.startnode := (0, 0)%float; Road.endnode := (100, 0)%float;
       Road.direction := (1, 0)%float; Road.spawn_probability := probability;
       Road.has_entry := true; Road.has_exit := false;
       Road.connected_intersection := Some 1%nat;
       Road.cars := queue0; Road.clearance := clearance;
       Road.stop_line := Vec.sub (100, 0)%float (Vec.scale clearance (1, 0)%float) |};
    {| Road.startnode := (100, 0)%float; Road.endnode := (200, 0)%float;
       Road.direction := (1, 0)%float; Road.spawn_probability := probability;
       Road.has_entry := false; Road.has_exit := true;
       Road.connected_intersection := Some 2%nat;
       Road.cars := queue1; Road.clearance := clearance;
       Road.stop_line := Vec.sub (200, 0)%float (Vec.scale clearance (1, 0)%float) |} ].

(** The intersection of the junction world where road 0 ends *)
Definition junction (clearance : float) : Intersection.t :=
  {| Intersection.position := (100, 0)%float; Intersection.incoming_roads := [0%nat];
     Intersection.outgoing_roads := [1%nat]; Intersection.min_clearance := clearance |}.

Definition junction_intersections (clearance : float) : list Intersection.t :=
  [ {| Intersection.position := (0, 0)%float; Intersection.incoming_roads := [];
       Intersection.outgoing_roads := [0%nat]; Intersection.min_clearance := clearance |};
    junction clearance;
    {| Intersection.position := (200, 0)%float; Intersection.incoming_roads := [1%nat];
       Intersection.outgoing_roads := []; Intersection.min_clearance := clearance |} ].

Definition junction_world (probability clearance : float) (heap : list Car.t)
    (queue0 queue1 : list nat) (count : nat) (tape : list nat) : World :=
  {| car_heap := heap;
     roads := junction_roads probability clearance queue0 queue1;
     entry_roads := [0%nat];
     intersections := junction_intersections clearance;
     min_clearance := clearance;
     generation_count := count;
     random_tape := tape |}.

(** [road.add_car(car)] for a car the caller has built, as the test suite
    puts vehicles on a road: the car becomes an object of the heap and its
    handle joins the queue of the road. *)
Definition place_car (road_h : nat) (car : Car.t) (w : World) : World :=
  match roads w !! road_h with
  | Some road =>
      put_road (set_car_heap w (car_heap w ++ [car])) road_h
               (Road.add_car road (length (car_heap w)))
  | None => w
  end.

(** The state once the cars of one road have been moved (the state itself
    if that fails) *)
Definition after_road (road_h : nat) (w : World) : World :=
  match MapManager.move_road road_h w with
  | Ok (_, w1) => w1
  | Raise _ => w
  end.

(** The position of the car behind a handle *)
Definition car_position (w : World) (car_h : nat) : option Vec.t :=
  Car.position <$> car_heap w !! car_h.

(** Every entry road exists and the last handle of every queue names a
    car: what [generate_cars] needs in order not to fail. *)
Definition gates_ok (entries : list nat) (w : World) : Prop :=
  (forall r, r ∈ entries -> (r < length (roads w))%nat)
  /\ (forall r road back, roads w !! r = Some road -> last (Road.cars road) = Some back ->
                         (back < length (car_heap w))%nat).

(** ** Notions used to state admission at an intersection *)

(** [car] is the last vehicle of the queue of an outgoing road of [i]. *)
Definition outgoing_back (w : World) (i : Intersection.t) (car : Car.t) : Prop :=
  exists r road h,
    r ∈ Intersection.outgoing_roads i /\ roads w !! r = Some road
    /\ last (Road.cars road) = Some h /\ car_heap w !! h = Some car.

(** [car] is the first vehicle of the queue of an incoming road of [i]. *)
Definition incoming_front (w : World) (i : Intersection.t) (car : Car.t) : Prop :=
  exists r road h,
    r ∈ Intersection.incoming_roads i /\ roads w !! r = Some road
    /\ head (Road.cars road) = Some h /\ car_heap w !! h = Some car.

(** The roads of the intersection exist and both ends of their queues name
    cars: in Python every reference leads to an object. *)
Definition intersection_ok (w : World) (i : Intersection.t) : Prop :=
  forall r, r ∈ Intersection.incoming_roads i ++ Intersection.outgoing_roads i ->
    exists road,
      roads w !! r = Some road
      /\ (forall h, head (Road.cars road) = Some h -> is_Some (car_heap w !! h))
      /\ (forall h, last (Road.cars road) = Some h -> is_Some (car_heap w !! h)).

(** A crossing at (100,0) with clearance 6: the roads 0 and 2 come in, the
    roads 1 and 3 go out, and every road but the last holds more than one
    kind of vehicle.  The last vehicle of road 1 stands at ([x], 0). *)
Definition crossing : Intersection.t :=
  {| Intersection.position := (100, 0)%float; Intersection.incoming_roads := [0%nat; 2%nat];
     Intersection.outgoing_roads := [1%nat; 3%nat]; Intersection.min_clearance := 6%float |}.

Definition crossing_road (startnode endnode direction : Vec.t) (queue : list nat) : Road.t :=
  {| Road.startnode := startnode; Road.endnode := endnode; Road.direction := direction;
     Road.spawn_probability := 1%float; Road.has_entry := false; Road.has_exit := false;
     Road.connected_intersection := None; Road.cars := queue; Road.clearance := 6%float;
     Road.stop_line := Vec.sub endnode (Vec.scale 6%float direction) |}.

Definition crossing_world (x : float) : World :=
  {| car_heap :=
       [ Car.mk 0 (0, 0, 0) 1%float (80, 0)%float;     (* first on road 0 *)
         Car.mk 1 (0, 0, 0) 1%float (50, 0)%float;     (* behind it *)
         Car.mk 2 (0, 0, 0) 1%float (150, 0)%float;    (* first on road 1 *)
         Car.mk 3 (0, 0, 0) 1%float (x, 0%float);      (* last on road 1 *)
         Car.mk 4 (0, 0, 0) 1%float (100, 30)%float;   (* alone on road 2 *)
         Car.mk 5 (0, 0, 0) 1%float (100, -50)%float ]; (* alone on road 3 *)
     roads :=
       [ crossing_road (0, 0)%float (100, 0)%float (1, 0)%float [0%nat; 1%nat];
         crossing_road (100, 0)%float (200, 0)%float (1, 0)%float [2%nat; 3%nat];
         crossing_road (100, 100)%float (100, 0)%float (0, -1)%float [4%nat];
         crossing_road (100, 0)%float (100, -100)%float (0, -1)%float [5%nat] ];
     entry_roads := [];
     intersections := [crossing];
     min_clearance := 6%float;
     generation_count := 6;
     random_tape := [] |}.

(** ** Notions used to state further properties of the graph *)

(** The four directions a road may run in, in the order
    [_get_available_directions] lists them *)
Definition cardinal_directions : list Unit_Vector := [(0, 1); (0, -1); (1, 0); (-1, 0)].

(** The edge relation of a network, and the same relation read in both
    directions *)
Definition edge (net : Network) (a b : Node) : Prop := (a, b) ∈ convert_to_segments net.
Definition joined (net : Network) (a b : Node) : Prop := edge net a b \/ edge net b a.

(** What the builder keeps besides [network_inv]: both mappings have the
    same keys in the same order, every end node is a key, and no node has
    two outgoing edges with the same direction. *)
Record builder_inv (net : Network) : Prop := mk_builder_inv {
  binv_keys : Dict.keys (outgoing net) = Dict.keys (incoming net);
  binv_targets : forall s e, edge net s e -> e ∈ Dict.keys (outgoing net);
  binv_directions : forall k l, Dict.get (outgoing net) k = Some l -> NoDup (map fst l);
  binv_asymmetric : forall a b, edge net a b -> ~ edge net b a
}.

(** A segment that runs along the x axis, and one that runs along the y
    axis; neither is a single point. *)
Definition horizontal (s : Segment) : Prop :=
  snd (fst s) = snd (snd s) /\ fst (fst s) <> fst (snd s).
Definition vertical (s : Segment) : Prop :=
  fst (fst s) = fst (snd s) /\ snd (fst s) <> snd (snd s).

#[global] Instance horizontal_dec s : Decision (horizontal s).
Proof. unfold horizontal. apply _. Defined.
#[global] Instance vertical_dec s : Decision (vertical s).
Proof. unfold vertical. apply _. Defined.

(** The point [p] lies on the axis-aligned segment [s], end nodes
    included. *)
Definition on_segment (p : Node) (s : Segment) : Prop :=
  Z.min (fst (fst s)) (fst (snd s)) <= fst p <= Z.max (fst (fst s)) (fst (snd s))
  /\ Z.min (snd (fst s)) (snd (snd s)) <= snd p <= Z.max (snd (fst s)) (snd (snd s)).

(** A chain of steps from one node to another *)
Inductive path (step : Node -> Node -> Prop) : Node -> Node -> Prop :=
| path_here n : path step n n
| path_next a b c : path step a b -> step b c -> path step a c.

(** Some entry gate leads to [n] along the edges of the network. *)
Definition reachable_from_entry (net : Network) (n : Node) : Prop :=
  exists gate, gate ∈ entry_gates net /\ path (edge net) gate n.

(** Any two nodes of the network are joined by a chain of edges, each
    followed in either direction. *)
Definition connected (net : Network) : Prop :=
  forall a b, a ∈ Dict.keys (outgoing net) -> b ∈ Dict.keys (outgoing net) ->
              path (joined net) a b.

(** What the loop of [enforce_reachability] keeps: the visited nodes are
    distinct, everything visited or stacked is reachable, every entry gate
    is visited or stacked, and so is every neighbour of a visited node. *)
Definition reach_inv (net : Network) (visited stack : list Node) : Prop :=
  NoDup visited
  /\ (forall x, x ∈ visited ++ stack -> reachable_from_entry net x)
  /\ (forall gate, gate ∈ entry_gates net -> gate ∈ visited ++ stack)
  /\ (forall v x, v ∈ visited -> edge net v x -> x ∈ visited ++ stack).

(** One step of the double loop that builds the symmetric closure *)
Definition add_both (acc : result (Dict.t Node (list Node))) (s : Segment)
    : result (Dict.t Node (list Node)) :=
  (do u <- acc;
   do u1 <- dict_append u (fst s) (snd s);
   dict_append u1 (snd s) (fst s))%result.

(** The neighbours a symmetric closure lists for a node *)
Definition neighbour (u : Dict.t Node (list Node)) (n x : Node) : Prop :=
  x ∈ or_empty (Dict.get u n).

(** What the loop of [_check_is_connected_network] keeps *)
Definition search_inv (u : Dict.t Node (list Node)) (start_node : Node)
    (visited queue : list Node) : Prop :=
  NoDup visited
  /\ start_node ∈ visited
  /\ (forall x, x ∈ queue -> x ∈ visited)
  /\ (forall x, x ∈ visited -> path (neighbour u) start_node x /\ x ∈ Dict.keys u)
  /\ (forall v x, v ∈ visited -> v ∉ queue -> neighbour u v x -> x ∈ visited).

(** ** Notions used to state further properties of the tick engine *)

(** The road has room for a vehicle that enters it from the intersection
    [i]: it is empty, or its last vehicle is at least twice the clearance
    away from [i]. *)
Definition has_room (w : World) (i : Intersection.t) (road : Road.t) : Prop :=
  match last (Road.cars road) with
  | None => True
  | Some back =>
      exists c, car_heap w !! back = Some c
                /\ Vec.leb (Intersection.min_clearance i * 2)
                           (Vec.norm (Vec.sub (Car.position c) (Intersection.position i)))
                   = true
  end.

(** What spawning leaves as it is on every road: where it starts and
    whether it has an entry gate *)
Definition road_gate (road : Road.t) : Vec.t * bool :=
  (Road.startnode road, Road.has_entry road).


(** ** Notions used to reason about doubles *)

(** The comparison of two doubles, or [None] when one of them is NaN *)
Definition fcmp (x y : float) : option comparison := SFcompare (Prim2SF x) (Prim2SF y).

(** * Properties *)

(** ** Dictionaries *)

Section DictFacts.
Context {K V : Type} `{EqDecision K}.
Implicit Types (d : Dict.t K V) (k : K) (v : V).

Lemma dict_get_set_eq d k v : Dict.get (Dict.set d k v) k = Some v.
Proof.
  induction d as [|[k' v'] d IH]; simpl.
  - by rewrite decide_True.
  - destruct (decide (k' = k)) as [->|Hne]; simpl.
    + by rewrite decide_True.
    + by rewrite decide_False.
Qed.

Lemma dict_get_set_ne d k k' v : k <> k' -> Dict.get (Dict.set d k v) k' = Dict.get d k'.
Proof.
  intros Hne. induction d as [|[k0 v0] d IH]; simpl.
  - by rewrite decide_False.
  - destruct (decide (k0 = k)) as [->|Hk]; simpl.
    + by rewrite !decide_False.
    + by rewrite IH.
Qed.

Lemma dict_get_None d k : Dict.get d k = None <-> k ∉ Dict.keys d.
Proof.
  unfold Dict.keys. induction d as [|[k' v'] d IH]; simpl.
  - split; [intros _; apply not_elem_of_nil | done].
  - rewrite not_elem_of_cons. destruct (decide (k' = k)) as [->|Hne].
    + split; [done | intros [? _]; done].
    + rewrite IH. split; [intros ?; split; [congruence | done] | intros [_ ?]; done].
Qed.

Lemma dict_get_Some_key d k v : Dict.get d k = Some v -> k ∈ Dict.keys d.
Proof.
  intros Hget. destruct (decide (k ∈ Dict.keys d)) as [|Hnot]; [done|].
  apply dict_get_None in Hnot. congruence.
Qed.

Lemma dict_get_elem d k v : Dict.get d k = Some v -> (k, v) ∈ d.
Proof.
  induction d as [|[k' v'] d IH]; simpl; [done|].
  destruct (decide (k' = k)) as [->|Hne].
  - intros [= ->]. apply list_elem_of_here.
  - intros Hget. apply list_elem_of_further. auto.
Qed.

Lemma dict_elem_get d k v : Dict.wf d -> (k, v) ∈ d -> Dict.get d k = Some v.
Proof.
  unfold Dict.wf, Dict.keys. induction d as [|[k' v'] d IH]; simpl.
  - intros _ Hin. by apply elem_of_nil in Hin.
  - intros Hnd Hin. apply NoDup_cons in Hnd as [Hnotin Hnd].
    apply elem_of_cons in Hin as [[= -> ->]|Hin].
    + by rewrite decide_True.
    + rewrite decide_False; [auto|].
      intros ->. apply Hnotin. apply list_elem_of_fmap. by exists (k, v).
Qed.

Lemma dict_keys_set_present d k v :
  Dict.get d k <> None -> Dict.keys (Dict.set d k v) = Dict.keys d.
Proof.
  unfold Dict.keys. induction d as [|[k' v'] d IH]; simpl; [done|].
  destruct (decide (k' = k)) as [->|Hne]; simpl; [done|].
  intros Hget. by rewrite IH.
Qed.

Lemma dict_set_absent d k v : Dict.get d k = None -> Dict.set d k v = d ++ [(k, v)].
Proof.
  induction d as [|[k' v'] d IH]; simpl; [done|].
  destruct (decide (k' = k)) as [->|Hne]; [done|].
  intros Hget. by rewrite IH.
Qed.

Lemma dict_wf_set d k v : Dict.wf d -> Dict.wf (Dict.set d k v).
Proof.
  intros Hwf. destruct (Dict.get d k) as [v0|] eqn:Hget.
  - unfold Dict.wf. rewrite dict_keys_set_present; [done | congruence].
  - rewrite dict_set_absent by done. unfold Dict.wf, Dict.keys.
    rewrite map_app. simpl. apply NoDup_app. split; [done|]. split.
    + intros x Hx Hx'. apply list_elem_of_singleton in Hx' as ->.
      by apply dict_get_None in Hget.
    + apply NoDup_singleton.
Qed.

Lemma dict_mem_true d k : Dict.mem d k = true <-> Dict.get d k <> None.
Proof. unfold Dict.mem. destruct (Dict.get d k); split; congruence. Qed.

Lemma dict_mem_false d k : Dict.mem d k = false <-> Dict.get d k = None.
Proof. unfold Dict.mem. destruct (Dict.get d k); split; congruence. Qed.
End DictFacts.

(** ** The graph builder *)

Lemma convert_to_segments_eq net : convert_to_segments net = graph_segments (outgoing net).
Proof. reflexivity. Qed.

Lemma graph_segments_set_new (g : Graph) k :
  Dict.get g k = None -> graph_segments (Dict.set g k []) = graph_segments g.
Proof.
  intros Hget. rewrite dict_set_absent by done. unfold graph_segments.
  rewrite flat_map_app. simpl. by rewrite !app_nil_r.
Qed.

Lemma graph_segments_set_append (g : Graph) k l e :
  Dict.get g k = Some l ->
  graph_segments (Dict.set g k (l ++ [e])) ≡ₚ graph_segments g ++ [(k, snd e)].
Proof.
  induction g as [|[k' l'] g IH]; simpl; [done|].
  destruct (decide (k' = k)) as [->|Hne].
  - intros [= ->]. simpl. rewrite map_app. simpl.
    rewrite <- !app_assoc. apply Permutation_app_head, Permutation_app_comm.
  - intros Hget. simpl. rewrite IH by done. by rewrite app_assoc.
Qed.

Lemma graph_segments_elem (g : Graph) s e :
  (s, e) ∈ graph_segments g <-> exists l d, (s, l) ∈ g /\ (d, e) ∈ l.
Proof.
  unfold graph_segments. rewrite list_elem_of_In, in_flat_map. split.
  - intros [[k l] [Hin Hmap]]. apply list_elem_of_In in Hin.
    apply list_elem_of_In, list_elem_of_fmap in Hmap as [[d e'] [[= -> ->] Hde]].
    by exists l, d.
  - intros (l & d & Hin & Hde). exists (s, l). split; [by apply list_elem_of_In|].
    apply list_elem_of_In, list_elem_of_fmap. by exists (d, e).
Qed.

(** *** [_ensure_node_in_network] *)

Definition ensured {A} (node : Node) (o : option (list A)) (n : Node) : option (list A) :=
  match o with
  | Some l => Some l
  | None => if decide (n = node) then Some [] else None
  end.

Lemma dict_get_ensure {A} (d : Dict.t Node (list A)) node n :
  Dict.get (if Dict.mem d node then d else Dict.set d node []) n
  = ensured node (Dict.get d n) n.
Proof.
  unfold ensured. destruct (Dict.mem d node) eqn:Hmem.
  - apply dict_mem_true in Hmem. destruct (Dict.get d n) eqn:Hn; [done|].
    destruct (decide (n = node)) as [->|]; [done | done].
  - apply dict_mem_false in Hmem. destruct (decide (n = node)) as [->|Hne].
    + by rewrite dict_get_set_eq, Hmem.
    + rewrite dict_get_set_ne by done. by destruct (Dict.get d n).
Qed.

Lemma ensure_outgoing node net :
  outgoing (_ensure_node_in_network node net)
  = if Dict.mem (outgoing net) node then outgoing net else Dict.set (outgoing net) node [].
Proof.
  unfold _ensure_node_in_network.
  destruct (Dict.mem (outgoing net) node); simpl;
    by destruct (Dict.mem _ node).
Qed.

Lemma ensure_incoming node net :
  incoming (_ensure_node_in_network node net)
  = if Dict.mem (incoming net) node then incoming net else Dict.set (incoming net) node [].
Proof.
  unfold _ensure_node_in_network.
  destruct (Dict.mem (outgoing net) node); simpl;
    by destruct (Dict.mem _ node).
Qed.

Lemma ensure_gates node net :
  entry_gates (_ensure_node_in_network node net) = entry_gates net
  /\ exit_gates (_ensure_node_in_network node net) = exit_gates net.
Proof.
  unfold _ensure_node_in_network.
  destruct (Dict.mem (outgoing net) node); simpl;
    by destruct (Dict.mem _ node).
Qed.

Lemma ensure_get_outgoing node net n :
  Dict.get (outgoing (_ensure_node_in_network node net)) n
  = ensured node (Dict.get (outgoing net) n) n.
Proof. rewrite ensure_outgoing. apply dict_get_ensure. Qed.

Lemma ensure_get_incoming node net n :
  Dict.get (incoming (_ensure_node_in_network node net)) n
  = ensured node (Dict.get (incoming net) n) n.
Proof. rewrite ensure_incoming. apply dict_get_ensure. Qed.

Lemma ensure_segments node net :
  convert_to_segments (_ensure_node_in_network node net) = convert_to_segments net.
Proof.
  rewrite !convert_to_segments_eq, ensure_outgoing.
  destruct (Dict.mem (outgoing net) node) eqn:Hmem; [done|].
  apply graph_segments_set_new. by apply dict_mem_false.
Qed.

Lemma ensure_present_outgoing node net :
  Dict.get (outgoing (_ensure_node_in_network node net)) node <> None.
Proof.
  rewrite ensure_get_outgoing. unfold ensured.
  destruct (Dict.get (outgoing net) node); [done|]. by rewrite decide_True.
Qed.

Lemma ensure_present_incoming node net :
  Dict.get (incoming (_ensure_node_in_network node net)) node <> None.
Proof.
  rewrite ensure_get_incoming. unfold ensured.
  destruct (Dict.get (incoming net) node); [done|]. by rewrite decide_True.
Qed.

Lemma ensured_or_empty {A} node (o : option (list A)) n :
  or_empty (ensured node o n) = or_empty o.
Proof. unfold ensured. destruct o; [done|]. by destruct (decide _). Qed.

Lemma ensured_elem {A} node (o : option (list A)) n l (x : A) :
  ensured node o n = Some l -> x ∈ l -> o = Some l.
Proof.
  unfold ensured. destruct o; [done|]. destruct (decide _); [|done].
  intros [= <-] Hx. by apply elem_of_nil in Hx.
Qed.

Lemma ensure_inv node net : network_inv net -> network_inv (_ensure_node_in_network node net).
Proof.
  intros [Hout Hin Hlab Hinc]. split.
  - rewrite ensure_outgoing. destruct (Dict.mem _ _); [done | by apply dict_wf_set].
  - rewrite ensure_incoming. destruct (Dict.mem _ _); [done | by apply dict_wf_set].
  - intros k l d e Hget Hde. rewrite ensure_get_outgoing in Hget.
    eapply Hlab; [|done]. by eapply ensured_elem.
  - intros n. rewrite ensure_get_incoming, ensured_or_empty, ensure_segments. apply Hinc.
Qed.

(** *** [_add_segment] *)

Lemma add_segment_ok segment net net' :
  _add_segment segment net = (Ok tt, net') ->
  exists d l li,
    get_unit_vector segment = Ok d
    /\ Dict.get (outgoing (ensure_both segment net)) (fst segment) = Some l
    /\ Dict.get (incoming (ensure_both segment net)) (snd segment) = Some li
    /\ outgoing net' = Dict.set (outgoing (ensure_both segment net)) (fst segment)
                               (l ++ [(d, snd segment)])
    /\ incoming net' = Dict.set (incoming (ensure_both segment net)) (snd segment)
                               (li ++ [fst segment])
    /\ entry_gates net' = entry_gates net /\ exit_gates net' = exit_gates net.
Proof.
  destruct segment as [startnode endnode]. unfold _add_segment, ensure_both. cbn [fst snd].
  destruct (get_unit_vector (startnode, endnode)) as [d|]; [|done].
  destruct (_ensure_asymmetric_road _ _ _ _) as [[]|]; [|done].
  destruct (Dict.get (outgoing _) startnode) as [l|] eqn:Hl; [|done].
  simpl. destruct (Dict.get (incoming _) endnode) as [li|] eqn:Hli; [|done].
  intros [= <-]. exists d, l, li. simpl.
  destruct (ensure_gates endnode (_ensure_node_in_network startnode net)) as [-> ->].
  destruct (ensure_gates startnode net) as [-> ->]. done.
Qed.

Lemma add_segment_raise segment net e net' :
  _add_segment segment net = (Raise e, net') ->
  (net' = net /\ get_unit_vector segment = Raise e)
  \/ (net' = ensure_both segment net /\ exists d, get_unit_vector segment = Ok d).
Proof.
  destruct segment as [startnode endnode]. unfold _add_segment, ensure_both. cbn [fst snd].
  destruct (get_unit_vector (startnode, endnode)) as [d|e0].
  - destruct (_ensure_asymmetric_road _ _ _ _) as [[]|e1] eqn:Hasym.
    + pose proof (ensure_present_incoming endnode (_ensure_node_in_network startnode net)) as Hpi.
      assert (Dict.get (outgoing (_ensure_node_in_network endnode
                (_ensure_node_in_network startnode net))) startnode <> None) as Hpo.
      { rewrite ensure_get_outgoing. unfold ensured.
        destruct (Dict.get (outgoing (_ensure_node_in_network startnode net)) startnode) eqn:Hs;
          [done|]. by apply ensure_present_outgoing in Hs. }
      destruct (Dict.get (outgoing _) startnode) as [l|]; [|done].
      simpl. destruct (Dict.get (incoming _) endnode) as [li|]; [done|done].
    + intros [= <- <-]. right. eauto.
  - intros [= <- <-]. by left.
Qed.

Lemma ensure_both_segments segment net :
  convert_to_segments (ensure_both segment net) = convert_to_segments net.
Proof. unfold ensure_both. by rewrite !ensure_segments. Qed.

Lemma ensure_both_inv segment net : network_inv net -> network_inv (ensure_both segment net).
Proof. intros Hinv. unfold ensure_both. by do 2 apply ensure_inv. Qed.

Lemma add_segment_segments segment net net' :
  _add_segment segment net = (Ok tt, net') ->
  convert_to_segments net' ≡ₚ convert_to_segments net ++ [segment].
Proof.
  intros (d & l & li & _ & Hl & _ & Hout & _)%add_segment_ok.
  rewrite !convert_to_segments_eq, Hout.
  rewrite (graph_segments_set_append _ _ _ (d, snd segment) Hl).
  rewrite <- !convert_to_segments_eq, ensure_both_segments. by destruct segment.
Qed.

Lemma add_segment_inv segment net r net' :
  _add_segment segment net = (r, net') -> network_inv net -> network_inv net'.
Proof.
  intros Hadd Hinv. destruct r as [[]|e].
  - pose proof (add_segment_segments _ _ _ Hadd) as Hsegs.
    apply add_segment_ok in Hadd as (d & l & li & Hd & Hl & Hli & Hout & Hin & _).
    destruct (ensure_both_inv segment net Hinv) as [Hwo Hwi Hlab Hinc]. split.
    + rewrite Hout. by apply dict_wf_set.
    + rewrite Hin. by apply dict_wf_set.
    + intros k l' d' e' Hget Hde. rewrite Hout in Hget.
      destruct (decide (fst segment = k)) as [<-|Hne].
      * rewrite dict_get_set_eq in Hget. injection Hget as <-.
        apply elem_of_app in Hde as [Hde|Hde]; [by eapply Hlab|].
        apply list_elem_of_singleton in Hde as [= -> ->]. by destruct segment.
      * rewrite dict_get_set_ne in Hget by done. by eapply Hlab.
    + intros n. rewrite Hsegs, filter_app, map_app, Hin.
      rewrite <- (ensure_both_segments segment net).
      destruct (decide (snd segment = n)) as [<-|Hne].
      * rewrite dict_get_set_eq. simpl. rewrite filter_cons_True by done.
        simpl. apply Permutation_app; [|done].
        specialize (Hinc (snd segment)). by rewrite Hli in Hinc.
      * rewrite dict_get_set_ne by done. rewrite filter_cons_False by done.
        simpl. rewrite app_nil_r. apply Hinc.
  - apply add_segment_raise in Hadd as [[-> _]|[-> _]]; [done|].
    by apply ensure_both_inv.
Qed.

Lemma empty_network_inv : network_inv empty_network.
Proof.
  split; simpl.
  - apply NoDup_nil_2.
  - apply NoDup_nil_2.
  - done.
  - done.
Qed.

(** *** [_generate_roads] *)

Lemma generate_roads_inv segments net r net' :
  _generate_roads segments net = (r, net') -> network_inv net -> network_inv net'.
Proof.
  revert net. induction segments as [|segment rest IH]; simpl; intros net.
  - by intros [= _ <-].
  - destruct (_add_segment segment net) as [[[]|e] net1] eqn:Hadd.
    + intros Hgen Hinv. eapply IH; [done|]. by eapply add_segment_inv.
    + intros [= _ <-] Hinv. by eapply add_segment_inv.
Qed.

Lemma generate_roads_segments segments net net' :
  _generate_roads segments net = (Ok tt, net') ->
  convert_to_segments net' ≡ₚ convert_to_segments net ++ segments.
Proof.
  revert net. induction segments as [|segment rest IH]; simpl; intros net.
  - intros [= <-]. by rewrite app_nil_r.
  - destruct (_add_segment segment net) as [[[]|e] net1] eqn:Hadd; [|done].
    intros Hgen. rewrite (IH _ Hgen), (add_segment_segments _ _ _ Hadd).
    by rewrite <- app_assoc.
Qed.

Lemma custom_road_network_built segments enforce net :
  CustomRoadNetwork segments enforce = Ok net ->
  exists net0, _generate_roads segments empty_network = (Ok tt, net0)
               /\ net = _generate_gates net0.
Proof.
  unfold CustomRoadNetwork.
  destruct (_generate_roads segments empty_network) as [[[]|e] net0]; [|done].
  destruct (validate_roads _); [|done]. simpl.
  destruct enforce; [destruct (enforce_reachability _); [|done]|]; simpl;
    intros [= <-]; by exists net0.
Qed.

Lemma custom_road_network_segments segments enforce net :
  CustomRoadNetwork segments enforce = Ok net ->
  convert_to_segments net ≡ₚ segments.
Proof.
  intros (net0 & Hgen & ->)%custom_road_network_built.
  apply generate_roads_segments in Hgen. exact Hgen.
Qed.

(** C6.  Whenever the explicit-segment builder accepts a list of segments,
    converting the graph it built back to segments gives the input list up
    to order (and with the same multiplicities). *)
Theorem C6_convert_to_segments_roundtrip segments enforce_valid_paths net :
  CustomRoadNetwork segments enforce_valid_paths = Ok net ->
  convert_to_segments net ≡ₚ segments.
Proof.
  intros (net0 & Hgen & ->)%custom_road_network_built.
  unfold _generate_gates, convert_to_segments. cbn [outgoing].
  pose proof (generate_roads_segments _ _ _ Hgen) as Hsegs.
  rewrite convert_to_segments_eq in Hsegs. cbn [empty_network outgoing] in Hsegs.
  exact Hsegs.
Qed.

Lemma C6_roundtrip_witness :
  exists net, CustomRoadNetwork test_segments true = Ok net
              /\ convert_to_segments net ≡ₚ test_segments.
Proof.
  eexists. split.
  - vm_compute. reflexivity.
  - apply (C6_convert_to_segments_roundtrip test_segments true). vm_compute. reflexivity.
Defined.

(** *** Duplicate edges *)

Lemma vec_eqb_refl d : vec_eqb d d = true.
Proof. unfold vec_eqb. by rewrite !Z.eqb_refl. Qed.

Lemma existsb_direction (l : list (Unit_Vector * Node)) d e :
  (d, e) ∈ l -> existsb (fun edge => vec_eqb d (fst edge)) l = true.
Proof.
  induction l as [|x l IH]; intros Hin.
  - by apply elem_of_nil in Hin.
  - simpl. apply elem_of_cons in Hin as [<-|Hin].
    + simpl. by rewrite vec_eqb_refl.
    + rewrite IH by done. apply orb_true_r.
Qed.

Lemma get_unit_vector_reverse s e d :
  get_unit_vector (s, e) = Ok d -> get_unit_vector (e, s) = Ok (- fst d, - snd d).
Proof.
  destruct s as [x1 y1], e as [x2 y2]. unfold get_unit_vector.
  destruct (x2 - x1 =? 0) eqn:Hx, (y2 - y1 =? 0) eqn:Hy,
    (x1 =? x2) eqn:Hx', (y1 =? y2) eqn:Hy'; simpl; try done;
    intros [= <-]; simpl;
    destruct (x1 - x2 =? 0) eqn:Hx2, (y1 - y2 =? 0) eqn:Hy2,
      (x2 =? x1) eqn:Hx3, (y2 =? y1) eqn:Hy3; simpl; try lia;
    by rewrite <- !Z.sgn_opp, !Z.opp_sub_distr, !Z.add_opp_l.
Qed.

Lemma ensure_both_get_outgoing_present segment net n l :
  Dict.get (outgoing net) n = Some l ->
  Dict.get (outgoing (ensure_both segment net)) n = Some l.
Proof.
  intros Hget. unfold ensure_both. rewrite !ensure_get_outgoing, Hget. done.
Qed.

Lemma ensure_both_present segment net :
  Dict.get (outgoing (ensure_both segment net)) (fst segment) <> None
  /\ Dict.get (outgoing (ensure_both segment net)) (snd segment) <> None.
Proof.
  unfold ensure_both. split.
  - rewrite ensure_get_outgoing. unfold ensured.
    destruct (Dict.get (outgoing (_ensure_node_in_network _ net)) (fst segment)) eqn:Hs; [done|].
    by apply ensure_present_outgoing in Hs.
  - apply ensure_present_outgoing.
Qed.

Lemma add_segment_unfold segment net d :
  get_unit_vector segment = Ok d ->
  _ensure_asymmetric_road (ensure_both segment net) (fst segment) (snd segment) d
    = Raise DuplicateEdgeError ->
  _add_segment segment net = (Raise DuplicateEdgeError, ensure_both segment net).
Proof.
  destruct segment as [startnode endnode]. unfold _add_segment, ensure_both. cbn [fst snd].
  by intros -> ->.
Qed.

Lemma segment_present net segment :
  network_inv net -> segment ∈ convert_to_segments net ->
  exists d l, get_unit_vector segment = Ok d
              /\ Dict.get (outgoing net) (fst segment) = Some l
              /\ (d, snd segment) ∈ l.
Proof.
  intros Hinv Hin. destruct segment as [startnode endnode].
  rewrite convert_to_segments_eq in Hin.
  apply graph_segments_elem in Hin as (l & d & Hl & Hde).
  apply dict_elem_get in Hl; [|apply Hinv].
  exists d, l. split; [|done]. by eapply (inv_labels _ Hinv).
Qed.

(** C7.  In every state of the graph, a segment that is already an edge
    cannot be added again, nor can its exact reverse: both attempts raise
    the duplicate-edge error. *)
Theorem C7_duplicate_edge_rejected net segment :
  network_inv net ->
  segment ∈ convert_to_segments net ->
  fst (_add_segment segment net) = Raise DuplicateEdgeError
  /\ fst (_add_segment (snd segment, fst segment) net) = Raise DuplicateEdgeError.
Proof.
  intros Hinv Hin.
  destruct (segment_present _ _ Hinv Hin) as (d & l & Hd & Hl & Hde).
  split.
  - rewrite (add_segment_unfold segment net d); [done|done|].
    unfold _ensure_asymmetric_road, Dict.getitem.
    rewrite (ensure_both_get_outgoing_present _ _ _ _ Hl). simpl.
    by rewrite (existsb_direction _ _ _ Hde).
  - destruct segment as [startnode endnode]. cbn [fst snd] in *.
    pose proof (get_unit_vector_reverse _ _ _ Hd) as Hrev.
    rewrite (add_segment_unfold (endnode, startnode) net _ Hrev); [done|].
    unfold _ensure_asymmetric_road, Dict.getitem. cbn [fst snd].
    destruct (ensure_both_present (endnode, startnode) net) as [He _]. cbn [fst snd] in He.
    destruct (Dict.get _ endnode) as [le|]; [|done]. simpl.
    match goal with |- context [existsb ?f le] => destruct (existsb f le) end; [done|].
    rewrite (ensure_both_get_outgoing_present _ _ _ _ Hl). simpl.
    rewrite !Z.opp_involutive.
    replace (fst d, snd d) with d by by destruct d.
    by rewrite (existsb_direction _ _ _ Hde).
Qed.

Lemma test_network_inv :
  network_inv (snd (_generate_roads test_segments empty_network)).
Proof.
  eapply generate_roads_inv; [|apply empty_network_inv]. apply surjective_pairing.
Qed.

Lemma C7_duplicate_edge_witness :
  let net := snd (_generate_roads test_segments empty_network) in
  fst (_add_segment ((100, 0), (100, 100)) net) = Raise DuplicateEdgeError
  /\ fst (_add_segment ((100, 100), (100, 0)) net) = Raise DuplicateEdgeError.
Proof.
  apply (C7_duplicate_edge_rejected
           (snd (_generate_roads test_segments empty_network)) ((100, 0), (100, 100))).
  - apply test_network_inv.
  - vm_compute. apply list_elem_of_In. simpl. auto.
Defined.

(** *** Gates *)

Lemma filter_edges_of_key (k n : Node) (l : list (Unit_Vector * Node)) :
  filter (fun s : Segment => fst s = n) (map (fun edge : Unit_Vector * Node => (k, snd edge)) l)
  = if decide (k = n) then map (fun edge : Unit_Vector * Node => (k, snd edge)) l else [].
Proof.
  induction l as [|x l IH]; simpl.
  - by destruct (decide _).
  - destruct (decide (k = n)) as [Heq|Hne].
    + rewrite filter_cons_True by done. by rewrite IH.
    + rewrite filter_cons_False by done. by rewrite IH.
Qed.

Lemma graph_out_degree (g : Graph) n :
  Dict.wf g ->
  length (filter (fun s : Segment => fst s = n) (graph_segments g))
  = len_or_empty (Dict.get g n).
Proof.
  unfold Dict.wf, Dict.keys. induction g as [|[k l] g IH]; simpl; [done|].
  intros [Hnotin Hnd]%NoDup_cons.
  rewrite filter_app, length_app, filter_edges_of_key, IH by done.
  destruct (decide (k = n)) as [->|Hne].
  - assert (Dict.get g n = None) as -> by by apply dict_get_None.
    simpl. rewrite length_map. lia.
  - done.
Qed.

Lemma out_degree_eq net n :
  network_inv net -> out_degree net n = len_or_empty (Dict.get (outgoing net) n).
Proof. intros Hinv. apply graph_out_degree, Hinv. Qed.

Lemma in_degree_eq net n :
  network_inv net -> in_degree net n = len_or_empty (Dict.get (incoming net) n).
Proof.
  intros Hinv. unfold in_degree.
  rewrite <- (length_map fst), <- (inv_incoming _ Hinv n).
  by destruct (Dict.get (incoming net) n).
Qed.

Lemma len_one_key {A} (d : Dict.t Node (list A)) n :
  len_or_empty (Dict.get d n) = 1%nat -> n ∈ Dict.keys d.
Proof.
  destruct (Dict.get d n) eqn:Hget; [|done]. intros _. by eapply dict_get_Some_key.
Qed.

(** C8.  After gate derivation a node is an entry gate exactly when it has
    one outgoing edge and no incoming edge, and an exit gate exactly when it
    has one incoming edge and no outgoing edge; the degrees are counted on
    the edges of the graph. *)
Theorem C8_gates_iff_degrees net n :
  network_inv net ->
  (n ∈ entry_gates (_generate_gates net)
     <-> out_degree net n = 1%nat /\ in_degree net n = 0%nat)
  /\ (n ∈ exit_gates (_generate_gates net)
     <-> in_degree net n = 1%nat /\ out_degree net n = 0%nat).
Proof.
  intros Hinv. rewrite (out_degree_eq _ _ Hinv), (in_degree_eq _ _ Hinv).
  unfold _generate_gates. cbn [entry_gates exit_gates]. split.
  - rewrite list_elem_of_filter. split; [tauto|].
    intros [Hout Hin]. split; [done|]. by apply len_one_key.
  - rewrite list_elem_of_filter. split; [tauto|].
    intros [Hin Hout]. split; [done|]. by apply len_one_key.
Qed.

Lemma C8_gates_witness :
  let net := snd (_generate_roads test_segments empty_network) in
  ((200, 100) ∈ entry_gates (_generate_gates net)
     <-> out_degree net (200, 100) = 1%nat /\ in_degree net (200, 100) = 0%nat)
  /\ ((200, 100) ∈ exit_gates (_generate_gates net)
     <-> in_degree net (200, 100) = 1%nat /\ out_degree net (200, 100) = 0%nat).
Proof.
  apply (C8_gates_iff_degrees (snd (_generate_roads test_segments empty_network)) (200, 100)).
  apply test_network_inv.
Defined.

(** *** A rejected segment leaves its new nodes behind *)

Lemma get_unit_vector_not_duplicate segment :
  get_unit_vector segment <> Raise DuplicateEdgeError.
Proof.
  destruct segment as [[x1 y1] [x2 y2]]. unfold get_unit_vector.
  destruct (_ && _); [done|]. by destruct (_ && _).
Qed.

(** C10.  When [_add_segment] raises the duplicate-edge error, no edge has
    been appended to either mapping: every key that existed keeps its
    adjacency list.  The node set is not restored: each endpoint of the
    rejected segment that was not a key is now a key with an empty
    adjacency list, in both mappings. *)
Theorem C10_rejected_segment_leaves_nodes segment net net' :
  _add_segment segment net = (Raise DuplicateEdgeError, net') ->
  convert_to_segments net' = convert_to_segments net
  /\ (forall n, Dict.get (outgoing net') n =
         match Dict.get (outgoing net) n with
         | Some l => Some l
         | None => if decide (n = fst segment \/ n = snd segment) then Some [] else None
         end)
  /\ (forall n, Dict.get (incoming net') n =
         match Dict.get (incoming net) n with
         | Some l => Some l
         | None => if decide (n = fst segment \/ n = snd segment) then Some [] else None
         end).
Proof.
  intros [[_ Hbad]|[-> _]]%add_segment_raise.
  { by apply get_unit_vector_not_duplicate in Hbad. }
  split; [apply ensure_both_segments|]. unfold ensure_both. split.
  - intros n. rewrite !ensure_get_outgoing. unfold ensured.
    destruct (Dict.get (outgoing net) n); [done|].
    destruct (decide (n = fst segment)) as [Hs|Hs], (decide (n = snd segment)) as [He|He],
      (decide (n = fst segment \/ n = snd segment)) as [Hor|Hor]; try done; exfalso; tauto.
  - intros n. rewrite !ensure_get_incoming. unfold ensured.
    destruct (Dict.get (incoming net) n); [done|].
    destruct (decide (n = fst segment)) as [Hs|Hs], (decide (n = snd segment)) as [He|He],
      (decide (n = fst segment \/ n = snd segment)) as [Hor|Hor]; try done; exfalso; tauto.
Qed.

Lemma C10_rejected_segment_witness :
  let net := snd (_generate_roads [((0, 0), (10, 0))] empty_network) in
  let net' := snd (_add_segment ((0, 0), (5, 0)) net) in
  Dict.get (outgoing net) (5, 0) = None
  /\ Dict.get (outgoing net') (5, 0) = Some []
  /\ Dict.get (incoming net') (5, 0) = Some []
  /\ convert_to_segments net' = convert_to_segments net.
Proof.
  cbv zeta.
  destruct (C10_rejected_segment_leaves_nodes ((0, 0), (5, 0))
              (snd (_generate_roads [((0, 0), (10, 0))] empty_network))
              (snd (_add_segment ((0, 0), (5, 0))
                      (snd (_generate_roads [((0, 0), (10, 0))] empty_network)))))
    as (Hsegs & Hout & Hin).
  { vm_compute. reflexivity. }
  split; [vm_compute; reflexivity|].
  split; [rewrite Hout; vm_compute; reflexivity|].
  split; [rewrite Hin; vm_compute; reflexivity|].
  exact Hsegs.
Defined.

(** ** The two graph searches never exhaust their bound *)

Lemma connected_fold_spec (U neighbors vis q vis' q' : list (Z * Z)) :
  fold_left (fun '(vis, q) neighbor =>
               if node_in neighbor vis then (vis, q)
               else (vis ++ [neighbor], q ++ [neighbor]))
            neighbors (vis, q) = (vis', q') ->
  (forall x, x ∈ neighbors -> x ∈ U) ->
  NoDup vis -> vis ⊆ U ->
  NoDup vis' /\ vis' ⊆ U /\ (length q' + length vis = length q + length vis')%nat.
Proof.
  revert vis q. induction neighbors as [|x neighbors IH]; intros vis q; simpl.
  - intros [= <- <-]. auto.
  - intros Hfold HU Hnd Hsub. unfold node_in in Hfold. case_bool_decide as Hx.
    + apply IH in Hfold; auto. intros y Hy. apply HU. by apply list_elem_of_further.
    + apply IH in Hfold as (Hnd' & Hsub' & Hlen).
      * split; [done|]. split; [done|]. rewrite !length_app in Hlen. simpl in Hlen. lia.
      * intros y Hy. apply HU. by apply list_elem_of_further.
      * apply NoDup_app. split; [done|]. split; [|apply NoDup_singleton].
        intros y Hy ->%list_elem_of_singleton. done.
      * intros y [Hy| ->%list_elem_of_singleton]%elem_of_app; [by apply Hsub|].
        apply HU, list_elem_of_here.
Qed.

Lemma neighbors_occur (u : Dict.t (Z * Z) (list (Z * Z))) node neighbors x :
  Dict.get u node = Some neighbors -> x ∈ neighbors -> x ∈ occurring_nodes u.
Proof.
  intros Hget%dict_get_elem Hx. unfold occurring_nodes. apply elem_of_app. right.
  apply list_elem_of_In, in_concat. exists neighbors. split.
  - apply in_map_iff. exists (node, neighbors). split; [done|]. by apply list_elem_of_In.
  - by apply list_elem_of_In.
Qed.

Lemma connected_loop_fuel u fuel visited queue :
  NoDup visited -> visited ⊆ occurring_nodes u ->
  (length queue + length (occurring_nodes u) < fuel + length visited)%nat ->
  connected_loop fuel u visited queue <> Raise OutOfFuel.
Proof.
  revert visited queue. induction fuel as [|fuel IH]; intros visited queue Hnd Hsub Hlen.
  - destruct queue as [|node queue]; [done|]. exfalso.
    assert (length visited <= length (occurring_nodes u))%nat.
    { apply submseteq_length, NoDup_submseteq; [done|]. intros x Hx. by apply Hsub. }
    simpl in Hlen. lia.
  - destruct queue as [|node queue]; [done|]. cbn [connected_loop].
    unfold Dict.getitem. destruct (Dict.get u node) as [neighbors|] eqn:Hget; [|done].
    cbn [result_bind].
    destruct (fold_left _ neighbors (visited, queue)) as [visited' queue'] eqn:Hfold.
    apply (connected_fold_spec (occurring_nodes u)) in Hfold as (Hnd' & Hsub' & Hlen');
      [|by intros x Hx; eapply neighbors_occur|done|done].
    apply IH; [done|done|]. simpl in Hlen. lia.
Qed.

Lemma dict_append_error d k x e : dict_append d k x = Raise e -> e = KeyError.
Proof.
  unfold dict_append, Dict.getitem. destruct (Dict.get d k); cbn [result_bind]; congruence.
Qed.

Lemma undirected_edges_error node (edges : list ((Z * Z) * (Z * Z))) acc :
  (forall e, acc = Raise e -> e = KeyError) ->
  forall e,
    fold_left (fun acc' edge =>
                 (do u <- acc';
                  do u1 <- dict_append u node (snd edge);
                  dict_append u1 (snd edge) node)%result)
              edges acc = Raise e ->
    e = KeyError.
Proof.
  revert acc. induction edges as [|edge edges IH]; intros acc Hacc e; simpl; [by apply Hacc|].
  apply IH. intros e'. destruct acc as [u|e0]; cbn [result_bind]; [|by apply Hacc].
  destruct (dict_append u node edge.2) as [u1|e1] eqn:H1; cbn [result_bind].
  - apply dict_append_error.
  - intros [= <-]. by eapply dict_append_error.
Qed.

Lemma undirected_nodes_error (g : Dict.t (Z * Z) (list ((Z * Z) * (Z * Z)))) acc :
  (forall e, acc = Raise e -> e = KeyError) ->
  forall e,
    fold_left (fun acc0 '(node, edges) =>
                 fold_left (fun acc' edge =>
                              (do u <- acc';
                               do u1 <- dict_append u node (snd edge);
                               dict_append u1 (snd edge) node)%result)
                           edges acc0)
              g acc = Raise e ->
    e = KeyError.
Proof.
  revert acc. induction g as [|[node edges] g IH]; intros acc Hacc e; simpl;
    [by apply Hacc|].
  apply IH. by apply undirected_edges_error.
Qed.

Lemma undirected_graph_of_error g e : undirected_graph_of g = Raise e -> e = KeyError.
Proof. unfold undirected_graph_of. by apply undirected_nodes_error. Qed.

Lemma check_is_connected_network_fuel net :
  _check_is_connected_network net <> Raise OutOfFuel.
Proof.
  unfold _check_is_connected_network. destruct (outgoing net) as [|entry g]; [done|].
  destruct (undirected_graph_of _) as [u|e] eqn:Hu; cbn [result_bind].
  - destruct (Dict.keys u) as [|start_node ks] eqn:Hkeys; [done|].
    cbv zeta.
    destruct (connected_loop _ u [start_node] [start_node]) as [visited|e] eqn:Hloop.
    + cbn [result_bind]. by destruct (negb _).
    + cbn [result_bind]. intros [= ->]. revert Hloop. apply connected_loop_fuel.
      * apply NoDup_singleton.
      * intros x ->%list_elem_of_singleton. unfold occurring_nodes. rewrite Hkeys.
        apply list_elem_of_here.
      * unfold occurring_nodes, Dict.keys. rewrite length_app, length_map. simpl. lia.
  - intros [= ->]. by apply undirected_graph_of_error in Hu.
Qed.

Lemma filter_none {A} (P : A -> Prop) `{forall x, Decision (P x)} (l : list A) :
  (forall x, x ∈ l -> ~ P x) -> filter P l = [].
Proof.
  induction l as [|x l IH]; intros Hnone; [done|].
  rewrite filter_cons_False by apply Hnone, list_elem_of_here.
  apply IH. intros y Hy. by apply Hnone, list_elem_of_further.
Qed.

Lemma elem_of_rev {A} (l : list A) x : x ∈ rev l <-> x ∈ l.
Proof. rewrite !list_elem_of_In. symmetry. apply in_rev. Qed.

Lemma reach_push_spec (visited : list (Z * Z)) (edges : list ((Z * Z) * (Z * Z))) stack :
  fold_left (fun st edge => if node_in (snd edge) visited then st else snd edge :: st)
            edges stack
  = rev (filter (fun n => n ∉ visited) (map snd edges)) ++ stack.
Proof.
  revert stack. induction edges as [|edge edges IH]; intros stack; simpl; [done|].
  rewrite IH. unfold node_in. case_bool_decide as Hin.
  - by rewrite filter_cons_False by (by intros ?).
  - rewrite filter_cons_True by done. simpl. by rewrite <- app_assoc.
Qed.

Lemma unvisited_edges_mono (g : Dict.t (Z * Z) (list ((Z * Z) * (Z * Z)))) visited node :
  (unvisited_edges g (visited ++ [node]) <= unvisited_edges g visited)%nat.
Proof.
  unfold unvisited_edges. induction g as [|[k edges] g IH]; simpl; [done|].
  unfold node_in in *.
  destruct (bool_decide_reflect (k ∈ visited ++ [node])) as [_|Hnot]; [lia|].
  destruct (bool_decide_reflect (k ∈ visited)) as [Hin|_]; [|lia].
  exfalso. apply Hnot, elem_of_app. by left.
Qed.

Lemma unvisited_edges_visit (g : Dict.t (Z * Z) (list ((Z * Z) * (Z * Z)))) visited node edges :
  Dict.get g node = Some edges -> node ∉ visited ->
  (unvisited_edges g (visited ++ [node]) + length edges <= unvisited_edges g visited)%nat.
Proof.
  unfold unvisited_edges. induction g as [|[k l] g IH]; simpl; [done|].
  intros Hget Hnot. destruct (decide (k = node)) as [->|Hne].
  - injection Hget as ->. pose proof (unvisited_edges_mono g visited node) as Hmono.
    unfold unvisited_edges in Hmono. unfold node_in in *.
    rewrite bool_decide_eq_true_2
      by (apply elem_of_app; right; apply list_elem_of_here).
    rewrite (bool_decide_eq_false_2 (node ∈ visited)) by done. lia.
  - specialize (IH Hget Hnot). unfold node_in in *.
    destruct (bool_decide_reflect (k ∈ visited ++ [node])) as [Hin|Hnotin];
      destruct (bool_decide_reflect (k ∈ visited)) as [Hin'|Hnotin']; try lia.
    exfalso. apply Hnotin, elem_of_app. by left.
Qed.

Lemma unvisited_edges_nil (g : Dict.t (Z * Z) (list ((Z * Z) * (Z * Z)))) :
  unvisited_edges g [] = length (graph_segments g).
Proof.
  unfold unvisited_edges, graph_segments. induction g as [|[k l] g IH]; simpl in *; [done|].
  rewrite length_app, length_map, IH. done.
Qed.

Lemma stale_copies_pop_visited g visited node stack :
  stale_copies_done g visited (node :: stack) -> node ∈ visited ->
  stale_copies_done g visited stack.
Proof.
  intros Hdone Hnode above u below edges -> Hu Hget edge Hedge.
  destruct (Hdone (node :: above) u below edges eq_refl Hu Hget edge Hedge) as [?|Hin];
    [by left|].
  apply elem_of_cons in Hin as [->|?]; [by left | by right].
Qed.

Lemma stale_copies_pop_new g visited node edges stack :
  stale_copies_done g visited (node :: stack) -> node ∉ visited ->
  Dict.get g node = Some edges ->
  stale_copies_done g (visited ++ [node])
    (rev (filter (fun n => n ∉ visited ++ [node]) (map snd edges)) ++ stack).
Proof.
  intros Hdone Hnode Hedges above u below edges_u Hsplit Hu Hget edge Hedge.
  assert (exists mid, above = rev (filter (fun n => n ∉ visited ++ [node]) (map snd edges)) ++ mid
                      /\ stack = mid ++ u :: below) as (mid & -> & ->).
  { apply app_eq_inv in Hsplit as [(mid & Hpush & Hrest)|(mid & -> & Hstack)].
    - destruct mid as [|u' mid].
      + exists []. rewrite app_nil_r in Hpush. simpl in Hrest.
        by rewrite Hpush, app_nil_r, <- Hrest.
      + exfalso. injection Hrest as <- _.
        assert (u ∈ rev (filter (fun n => n ∉ visited ++ [node]) (map snd edges))) as Hin.
        { rewrite Hpush. apply elem_of_app. right. apply list_elem_of_here. }
        rewrite elem_of_rev in Hin. by apply list_elem_of_filter in Hin as [Hnot _].
    - by exists mid. }
  apply elem_of_app in Hu as [Hu|Hu].
  - destruct (Hdone (node :: mid) u below edges_u eq_refl Hu Hget edge Hedge) as [?|Hin].
    + left. apply elem_of_app. by left.
    + apply elem_of_cons in Hin as [->|?].
      * left. apply elem_of_app. right. apply list_elem_of_here.
      * right. apply elem_of_app. by right.
  - apply list_elem_of_singleton in Hu as ->.
    assert (edges_u = edges) as -> by congruence.
    destruct (decide (snd edge ∈ visited ++ [node])) as [?|Hnot]; [by left|].
    right. apply elem_of_app. left. rewrite elem_of_rev.
    apply list_elem_of_filter. split; [done|].
    apply list_elem_of_fmap. by exists edge.
Qed.

Lemma reachability_loop_fuel g fuel visited stack :
  stale_copies_done g visited stack ->
  (length stack + unvisited_edges g visited < fuel)%nat ->
  reachability_loop fuel g visited stack <> Raise OutOfFuel.
Proof.
  revert visited stack. induction fuel as [|fuel IH]; intros visited stack Hdone Hlen; [lia|].
  destruct stack as [|node stack]; [done|]. cbn [reachability_loop].
  unfold Dict.getitem. destruct (Dict.get g node) as [edges|] eqn:Hget; [|done].
  cbn [result_bind]. rewrite reach_push_spec. unfold set_add, node_in.
  case_bool_decide as Hnode.
  - assert (filter (fun n => n ∉ visited) (map snd edges) = []) as ->.
    { apply filter_none. intros n Hn Hnot.
      apply list_elem_of_fmap in Hn as (edge & -> & Hedge).
      destruct (Hdone [] node stack edges eq_refl Hnode Hget edge Hedge) as [?|Hin]; [done|].
      by apply elem_of_nil in Hin. }
    simpl. apply IH; [by eapply stale_copies_pop_visited|]. simpl in Hlen. lia.
  - apply IH; [by apply stale_copies_pop_new|].
    pose proof (unvisited_edges_visit g visited node edges Hget Hnode) as Hvisit.
    rewrite length_app, length_rev.
    pose proof (length_filter (fun n => n ∉ visited ++ [node]) (map snd edges)) as Hfilter.
    rewrite length_map in Hfilter. simpl in Hlen. lia.
Qed.

Lemma enforce_reachability_fuel net : enforce_reachability net <> Raise OutOfFuel.
Proof.
  unfold enforce_reachability.
  destruct (reachability_loop _ _ _ _) as [visited|e] eqn:Hloop; cbn [result_bind].
  - by destruct (negb _).
  - intros [= ->]. revert Hloop. apply reachability_loop_fuel.
    + intros above u below edges _ Hu. by apply elem_of_nil in Hu.
    + rewrite unvisited_edges_nil, length_rev, convert_to_segments_eq. lia.
Qed.

(** ** Overlap validation *)

Lemma adjacent_pair_overlaps_sound fixed_axis main_axis a b :
  coord main_axis (fst a) <> coord main_axis (snd a) ->
  adjacent_pair_overlaps fixed_axis main_axis a b = true ->
  coord fixed_axis (fst a) = coord fixed_axis (fst b) /\ ranges_overlap main_axis a b.
Proof.
  unfold adjacent_pair_overlaps, ranges_overlap, range_lo, range_hi.
  destruct (Z.eqb_spec (coord fixed_axis a.1) (coord fixed_axis b.1)); [|done].
  intros Hnull H. split; [done|]. apply orb_true_iff in H as [H|H].
  - apply andb_true_iff in H as [H1 H2]. apply Z.ltb_lt in H1, H2. lia.
  - apply andb_true_iff in H as [H1 H2]. apply Z.eqb_eq in H1, H2. lia.
Qed.

(** Two segments that meet in one endpoint only are never reported, in
    either order and whatever their directions. *)
Lemma adjacent_pair_endpoint fixed_axis main_axis a b :
  coord main_axis (fst a) <> coord main_axis (snd a) ->
  coord main_axis (fst b) <> coord main_axis (snd b) ->
  share_only_endpoint main_axis a b ->
  adjacent_pair_overlaps fixed_axis main_axis a b = false.
Proof.
  unfold adjacent_pair_overlaps, share_only_endpoint, range_lo, range_hi.
  intros Ha Hb Hshare. destruct (_ =? _); [|done].
  apply orb_false_iff. split; apply andb_false_iff.
  - destruct (Z.ltb_spec (coord main_axis a.1) (coord main_axis b.2));
      destruct (Z.ltb_spec (coord main_axis b.1) (coord main_axis a.2)); auto. lia.
  - destruct (Z.eqb_spec (coord main_axis a.1) (coord main_axis b.1));
      destruct (Z.eqb_spec (coord main_axis a.2) (coord main_axis b.2)); auto. lia.
Qed.

Lemma share_only_endpoint_sym main_axis a b :
  share_only_endpoint main_axis a b -> share_only_endpoint main_axis b a.
Proof. unfold share_only_endpoint. tauto. Qed.

Lemma sorted_by_pair key (a b : (Z * Z) * (Z * Z)) :
  sorted_by key [a; b] = [a; b] \/ sorted_by key [a; b] = [b; a].
Proof. unfold sorted_by. simpl. destruct (key a <=? key b); auto. Qed.

Lemma check_adjacent_overlap_endpoint orientation a b :
  let main_axis := if String.eqb orientation "horizontal" then 0%nat else 1%nat in
  coord main_axis (fst a) <> coord main_axis (snd a) ->
  coord main_axis (fst b) <> coord main_axis (snd b) ->
  share_only_endpoint main_axis a b ->
  _check_adjacent_overlap [a; b] orientation = Ok tt.
Proof.
  unfold _check_adjacent_overlap.
  destruct (String.eqb orientation "horizontal"); cbv zeta; intros Ha Hb Hshare.
  - destruct (sorted_by_pair (fun line => coord 0 (fst line)) a b) as [-> | ->];
      cbn [check_adjacent_pairs];
      rewrite adjacent_pair_endpoint; auto using share_only_endpoint_sym.
  - destruct (sorted_by_pair (fun line => coord 1 (fst line)) a b) as [-> | ->];
      cbn [check_adjacent_pairs];
      rewrite adjacent_pair_endpoint; auto using share_only_endpoint_sym.
Qed.

(** Two segments on one line that both run in the positive direction are
    reported exactly when their ranges overlap. *)
Lemma check_adjacent_overlap_forward_pair orientation a b :
  let fixed_axis := if String.eqb orientation "horizontal" then 1%nat else 0%nat in
  let main_axis := if String.eqb orientation "horizontal" then 0%nat else 1%nat in
  forward main_axis a -> forward main_axis b ->
  coord fixed_axis (fst a) = coord fixed_axis (fst b) ->
  ranges_overlap main_axis a b ->
  _check_adjacent_overlap [a; b] orientation = Raise OverlapError.
Proof.
  unfold _check_adjacent_overlap, forward, ranges_overlap, range_lo, range_hi.
  destruct (String.eqb orientation "horizontal"); cbv zeta; intros Ha Hb Hline Hover.
  - destruct (sorted_by_pair (fun line => coord 0 (fst line)) a b) as [-> | ->];
      cbn [check_adjacent_pairs]; unfold adjacent_pair_overlaps;
      rewrite ?Hline, Z.eqb_refl;
      match goal with |- (if ?c then _ else _) = _ => assert (c = true) as ->; [|done] end;
      apply orb_true_iff; left; apply andb_true_iff; split; apply Z.ltb_lt; lia.
  - destruct (sorted_by_pair (fun line => coord 1 (fst line)) a b) as [-> | ->];
      cbn [check_adjacent_pairs]; unfold adjacent_pair_overlaps;
      rewrite ?Hline, Z.eqb_refl;
      match goal with |- (if ?c then _ else _) = _ => assert (c = true) as ->; [|done] end;
      apply orb_true_iff; left; apply andb_true_iff; split; apply Z.ltb_lt; lia.
Qed.

(** *** When comparing neighbours is enough

    On a list of segments that all lie on one line and all run in the
    positive direction, the sort by start coordinate puts every segment
    before the ones it could overlap, and a pass over neighbours finds an
    overlap whenever two segments of the list overlap. *)

Lemma insert_by_perm key s l : insert_by key s l ≡ₚ s :: l.
Proof.
  induction l as [|s' l IH]; simpl; [done|].
  destruct (key s <=? key s'); [done|]. rewrite IH. apply Permutation_swap.
Qed.

Lemma sorted_by_perm key l : sorted_by key l ≡ₚ l.
Proof.
  unfold sorted_by. induction l as [|s l IH]; simpl; [done|].
  by rewrite insert_by_perm, IH.
Qed.

Lemma insert_by_sorted (key : (Z * Z) * (Z * Z) -> Z) s l :
  StronglySorted (fun a b => key a <= key b) l ->
  StronglySorted (fun a b => key a <= key b) (insert_by key s l).
Proof.
  induction l as [|s' l IH]; simpl; intros Hs.
  - apply StronglySorted_cons. split; [apply Forall_nil_2 | done].
  - apply StronglySorted_cons in Hs as [Hall Hs].
    destruct (Z.leb_spec (key s) (key s')) as [Hle|Hgt].
    + apply StronglySorted_cons. split.
      * apply Forall_cons. split; [done|].
        eapply Forall_impl; [exact Hall|]. intros x Hx. simpl in Hx. lia.
      * apply StronglySorted_cons. by split.
    + apply StronglySorted_cons. split; [|by apply IH].
      rewrite insert_by_perm. apply Forall_cons. split; [lia | done].
Qed.

Lemma sorted_by_sorted (key : (Z * Z) * (Z * Z) -> Z) l :
  StronglySorted (fun a b => key a <= key b) (sorted_by key l).
Proof.
  unfold sorted_by. induction l as [|s l IH]; simpl.
  - apply SSorted_nil.
  - by apply insert_by_sorted.
Qed.

Lemma check_adjacent_pairs_result fixed_axis main_axis l :
  check_adjacent_pairs fixed_axis main_axis l = Ok tt
  \/ check_adjacent_pairs fixed_axis main_axis l = Raise OverlapError.
Proof.
  induction l as [|a [|b l] IH]; simpl; [by left | by left|].
  destruct (adjacent_pair_overlaps _ _ a b); [by right | exact IH].
Qed.

Lemma check_adjacent_pairs_chain fixed_axis main_axis c l :
  Forall (fun s => forward main_axis s /\ coord fixed_axis (fst s) = c) l ->
  StronglySorted (fun a b => coord main_axis (fst a) <= coord main_axis (fst b)) l ->
  check_adjacent_pairs fixed_axis main_axis l = Ok tt ->
  StronglySorted (fun a b => coord main_axis (snd a) <= coord main_axis (fst b)) l.
Proof.
  induction l as [|a l IH]; intros Hall Hsorted Hcheck; [apply SSorted_nil|].
  apply Forall_cons in Hall as [[Hfa Hca] Hall].
  apply StronglySorted_cons in Hsorted as [Hfirst Hsorted].
  destruct l as [|b l].
  { apply StronglySorted_cons. split; [apply Forall_nil_2 | apply SSorted_nil]. }
  cbn [check_adjacent_pairs] in Hcheck.
  destruct (adjacent_pair_overlaps fixed_axis main_axis a b) eqn:Hab; [done|].
  specialize (IH Hall Hsorted Hcheck).
  pose proof Hall as [[Hfb Hcb] _]%Forall_cons.
  pose proof Hfirst as [Hstart _]%Forall_cons.
  assert (coord main_axis (snd a) <= coord main_axis (fst b)) as Hend.
  { unfold adjacent_pair_overlaps in Hab. rewrite Hca, Hcb, Z.eqb_refl in Hab.
    apply orb_false_iff in Hab as [Hab _]. apply andb_false_iff in Hab.
    unfold forward in Hfa, Hfb.
    destruct Hab as [Hab|Hab]; apply Z.ltb_ge in Hab; lia. }
  apply StronglySorted_cons. split; [|done].
  apply Forall_cons. split; [done|].
  apply StronglySorted_cons in IH as [Hnext _].
  eapply Forall_impl; [exact Hnext|]. intros x Hx. simpl in Hx.
  unfold forward in Hfb. lia.
Qed.

Lemma two_occurrences_perm {A} (l s l1 l2 l3 : list A) a b :
  l ≡ₚ s -> l = l1 ++ a :: l2 ++ b :: l3 ->
  exists k1 k2 k3, s = k1 ++ a :: k2 ++ b :: k3 \/ s = k1 ++ b :: k2 ++ a :: k3.
Proof.
  intros Hperm ->.
  assert (a ∈ s) as (k1 & k2 & ->)%list_elem_of_split.
  { rewrite <- Hperm. apply elem_of_app. right. apply list_elem_of_here. }
  apply Permutation_app_inv in Hperm.
  assert (b ∈ k1 ++ k2) as [Hb|Hb]%elem_of_app.
  { rewrite <- Hperm. rewrite !elem_of_app, elem_of_cons. auto. }
  - apply list_elem_of_split in Hb as (k11 & k12 & ->).
    exists k11, k12, k2. right. by rewrite <- app_assoc.
  - apply list_elem_of_split in Hb as (k21 & k22 & ->).
    exists k1, k21, k22. by left.
Qed.

Lemma chain_no_overlap main_axis (s k1 k2 k3 : list ((Z * Z) * (Z * Z))) a b :
  Forall (forward main_axis) s ->
  StronglySorted (fun a b => coord main_axis (snd a) <= coord main_axis (fst b)) s ->
  s = k1 ++ a :: k2 ++ b :: k3 ->
  ~ ranges_overlap main_axis a b /\ ~ ranges_overlap main_axis b a.
Proof.
  intros Hall Hchain ->.
  apply StronglySorted_app_1_r, StronglySorted_cons in Hchain as [Hfirst _].
  rewrite Forall_app, Forall_cons in Hfirst. destruct Hfirst as (_ & Hab & _).
  rewrite Forall_app, Forall_cons, Forall_app, Forall_cons in Hall.
  destruct Hall as (_ & Hfa & _ & Hfb & _).
  unfold ranges_overlap, range_lo, range_hi, forward in *. lia.
Qed.

(** On one line and with every segment running forward, two overlapping
    segments anywhere in the list make the check fail. *)
Lemma check_adjacent_overlap_complete orientation c l l1 a l2 b l3 :
  let fixed_axis := if String.eqb orientation "horizontal" then 1%nat else 0%nat in
  let main_axis := if String.eqb orientation "horizontal" then 0%nat else 1%nat in
  Forall (fun s => forward main_axis s /\ coord fixed_axis (fst s) = c) l ->
  l = l1 ++ a :: l2 ++ b :: l3 ->
  ranges_overlap main_axis a b ->
  _check_adjacent_overlap l orientation = Raise OverlapError.
Proof.
  cbv zeta. intros Hall Hl Hover. unfold _check_adjacent_overlap.
  set (fixed_axis := if String.eqb orientation "horizontal" then 1%nat else 0%nat) in *.
  set (main_axis := if String.eqb orientation "horizontal" then 0%nat else 1%nat) in *.
  replace (if String.eqb orientation "horizontal" then (1%nat, 0%nat) else (0%nat, 1%nat))
    with (fixed_axis, main_axis)
    by (unfold fixed_axis, main_axis; by destruct (String.eqb _ _)).
  set (key := fun line : (Z * Z) * (Z * Z) => coord main_axis (fst line)).
  destruct (check_adjacent_pairs_result fixed_axis main_axis (sorted_by key l))
    as [Hok|Hraise]; [exfalso | done].
  pose proof (sorted_by_perm key l) as Hperm.
  assert (Forall (fun s => forward main_axis s /\ coord fixed_axis (fst s) = c)
                 (sorted_by key l)) as Hall'.
  { by rewrite Hperm. }
  pose proof (check_adjacent_pairs_chain fixed_axis main_axis c _ Hall'
                (sorted_by_sorted key l) Hok) as Hchain.
  symmetry in Hperm.
  destruct (two_occurrences_perm _ _ _ _ _ _ _ Hperm Hl) as (k1 & k2 & k3 & [Hs|Hs]).
  - eapply chain_no_overlap in Hs as [Hno _]; [by apply Hno | | done].
    eapply Forall_impl; [exact Hall'|]. by intros x [? _].
  - eapply chain_no_overlap in Hs as [_ Hno]; [by apply Hno | | done].
    eapply Forall_impl; [exact Hall'|]. by intros x [? _].
Qed.

(** C3 fails on the code.  Direction is not normalised, so two horizontal
    segments that run in the negative direction pass the check although
    their ranges overlap; only neighbours in the sort order are compared,
    so a segment of another line between two overlapping ones hides the
    overlap; and the builder accepts a whole network with two roads on the
    same stretch. *)
Theorem C3_overlap_not_detected :
  (same_line 1 ((10, 0), (0, 0)) ((15, 0), (5, 0))
   /\ ranges_overlap 0 ((10, 0), (0, 0)) ((15, 0), (5, 0))
   /\ _check_adjacent_overlap [((10, 0), (0, 0)); ((15, 0), (5, 0))] "horizontal" = Ok tt)
  /\ (same_line 1 ((0, 0), (10, 0)) ((2, 0), (8, 0))
      /\ ranges_overlap 0 ((0, 0), (10, 0)) ((2, 0), (8, 0))
      /\ _check_adjacent_overlap [((0, 0), (10, 0)); ((1, 5), (3, 5)); ((2, 0), (8, 0))]
                                 "horizontal" = Ok tt)
  /\ (exists net, CustomRoadNetwork overlapping_segments true = Ok net
                  /\ convert_to_segments net ≡ₚ overlapping_segments).
Proof.
  split; [|split].
  - split; [|split]; [by vm_compute | by vm_compute | by vm_compute].
  - split; [|split]; [by vm_compute | by vm_compute | by vm_compute].
  - eexists. split; [vm_compute; reflexivity|].
    apply (custom_road_network_segments overlapping_segments true).
    vm_compute. reflexivity.
Qed.

(** *** The builder never stops for want of fuel

    [OutOfFuel] is the one outcome of the model that Python does not have.
    It can only come from the two searches, and they never produce it, so
    the model of [CustomRoadNetwork] accepts and rejects as the source
    does. *)

Lemma bind_fuel {A B} (r : result A) (k : A -> result B) :
  r <> Raise OutOfFuel -> (forall a, k a <> Raise OutOfFuel) ->
  result_bind r k <> Raise OutOfFuel.
Proof.
  intros Hr Hk. destruct r as [a|e]; cbn [result_bind]; [apply Hk|].
  intros [= ->]. by apply Hr.
Qed.

Lemma for_each_fuel {A} (l : list A) (body : A -> result unit) :
  (forall x, body x <> Raise OutOfFuel) -> for_each l body <> Raise OutOfFuel.
Proof.
  intros Hbody. induction l as [|x l IH]; cbn [for_each]; [done|].
  apply bind_fuel; [apply Hbody | by intros _].
Qed.

Lemma get_unit_vector_fuel segment : get_unit_vector segment <> Raise OutOfFuel.
Proof.
  destruct segment as [[x1 y1] [x2 y2]]. unfold get_unit_vector.
  destruct (_ && _); [done|]. by destruct (_ && _).
Qed.

Lemma ensure_asymmetric_road_fuel net startnode endnode direction :
  _ensure_asymmetric_road net startnode endnode direction <> Raise OutOfFuel.
Proof.
  unfold _ensure_asymmetric_road, Dict.getitem.
  destruct (Dict.get (outgoing net) startnode) as [out_start|]; cbn [result_bind]; [|done].
  destruct (existsb _ out_start); [done|].
  destruct (Dict.get (outgoing net) endnode) as [out_end|]; cbn [result_bind]; [|done].
  by destruct (existsb _ out_end).
Qed.

Lemma add_segment_fuel segment net : fst (_add_segment segment net) <> Raise OutOfFuel.
Proof.
  destruct segment as [startnode endnode]. unfold _add_segment.
  pose proof (get_unit_vector_fuel (startnode, endnode)) as Hunit.
  destruct (get_unit_vector (startnode, endnode)) as [direction|e]; [|simpl; congruence].
  pose proof (ensure_asymmetric_road_fuel
                (_ensure_node_in_network endnode (_ensure_node_in_network startnode net))
                startnode endnode direction) as Hasym.
  destruct (_ensure_asymmetric_road _ _ _ _) as [[]|e]; [|simpl; congruence].
  destruct (Dict.get (outgoing _) startnode); [|done].
  by destruct (Dict.get (incoming _) endnode).
Qed.

Lemma generate_roads_fuel segments net :
  fst (_generate_roads segments net) <> Raise OutOfFuel.
Proof.
  revert net. induction segments as [|segment rest IH]; intros net; simpl; [done|].
  pose proof (add_segment_fuel segment net) as Hadd.
  destruct (_add_segment segment net) as [[[]|e] net1]; [apply IH | exact Hadd].
Qed.

Lemma sort_by_direction_fuel segments : _sort_by_direction segments <> Raise OutOfFuel.
Proof.
  induction segments as [|[[x1 y1] [x2 y2]] rest IH]; simpl; [done|].
  destruct (_ && _); [by apply bind_fuel|]. destruct (_ && _); [by apply bind_fuel | done].
Qed.

Lemma check_adjacent_overlap_fuel segments orientation :
  _check_adjacent_overlap segments orientation <> Raise OutOfFuel.
Proof.
  unfold _check_adjacent_overlap. destruct (String.eqb _ _);
    match goal with |- check_adjacent_pairs ?f ?m ?l <> _ =>
      by destruct (check_adjacent_pairs_result f m l) as [-> | ->]
    end.
Qed.

Lemma check_intersections_fuel horizontal_lines vertical_lines :
  _check_intersections horizontal_lines vertical_lines <> Raise OutOfFuel.
Proof.
  unfold _check_intersections. apply for_each_fuel. intros h_seg.
  apply for_each_fuel. intros v_seg. cbv zeta.
  destruct (_ && _); [done|]. by destruct (_ && _).
Qed.

Lemma search_for_invalid_intersections_fuel net :
  search_for_invalid_intersections net <> Raise OutOfFuel.
Proof.
  unfold search_for_invalid_intersections. apply bind_fuel.
  - apply for_each_fuel. intros [node edges]. by destruct (_ && _).
  - intros _. apply for_each_fuel. intros [node preds]. by destruct (_ && _).
Qed.

Lemma validate_roads_fuel net : validate_roads net <> Raise OutOfFuel.
Proof.
  unfold validate_roads. destruct (is_empty _); [done|]. destruct (is_empty _); [done|].
  apply bind_fuel; [apply sort_by_direction_fuel|]. intros [vertical_lines horizontal_lines].
  apply bind_fuel; [apply check_adjacent_overlap_fuel|]. intros _.
  apply bind_fuel; [apply check_adjacent_overlap_fuel|]. intros _.
  apply bind_fuel; [apply check_intersections_fuel|]. intros _.
  apply bind_fuel; [apply check_is_connected_network_fuel|]. intros _.
  apply search_for_invalid_intersections_fuel.
Qed.

Lemma custom_road_network_fuel segments enforce_valid_paths :
  CustomRoadNetwork segments enforce_valid_paths <> Raise OutOfFuel.
Proof.
  unfold CustomRoadNetwork. pose proof (generate_roads_fuel segments empty_network) as Hgen.
  destruct (_generate_roads segments empty_network) as [[[]|e] net0];
    [|simpl in Hgen; congruence].
  apply bind_fuel; [apply validate_roads_fuel|]. intros _.
  apply bind_fuel; [|done].
  destruct enforce_valid_paths; [apply enforce_reachability_fuel | done].
Qed.

(** ** The order of the doubles *)

Section FloatOrder.

Ltac cmp_cases :=
  repeat match goal with
  | H : context [(?a ?= ?b)%Z] |- _ => destruct (Z.compare_spec a b)
  | H : context [Pos.compare_cont Eq ?a ?b] |- _ =>
      change (Pos.compare_cont Eq a b) with (a ?= b)%positive in *;
      destruct (Pos.compare_spec a b)
  | |- context [(?a ?= ?b)%Z] => destruct (Z.compare_spec a b)
  | |- context [Pos.compare_cont Eq ?a ?b] =>
      change (Pos.compare_cont Eq a b) with (a ?= b)%positive in *;
      destruct (Pos.compare_spec a b)
  end.

Lemma SFcompare_antisym a b : SFcompare b a = option_map CompOpp (SFcompare a b).
Proof.
  destruct a as [[]|[]| |[] m1 e1], b as [[]|[]| |[] m2 e2]; try reflexivity; cbn;
    f_equal; cmp_cases; subst; try reflexivity; try lia.
Qed.

Lemma SFcompare_trans a b c :
  SFcompare a b = Some Lt -> SFcompare b c = Some Lt -> SFcompare a c = Some Lt.
Proof.
  destruct a as [[]|[]| |[] m1 e1], b as [[]|[]| |[] m2 e2], c as [[]|[]| |[] m3 e3];
    cbn; try done; intros Hab Hbc; f_equal; cmp_cases; subst; try done; try lia.
Qed.

Lemma SFcompare_eq_l a b c : SFcompare a b = Some Eq -> SFcompare a c = SFcompare b c.
Proof.
  destruct a as [[]|[]| |[] m1 e1], b as [[]|[]| |[] m2 e2], c as [[]|[]| |[] m3 e3];
    cbn; try done; intros Hab; f_equal; cmp_cases; subst; try done; try lia.
Qed.

Lemma SFcompare_None a b :
  SFcompare a b = None <-> SFcompare a a = None \/ SFcompare b b = None.
Proof.
  destruct a as [[]|[]| |[] m1 e1], b as [[]|[]| |[] m2 e2]; cbn; split; auto; try done;
    intros [|]; done.
Qed.

Lemma ltb_fcmp x y : Vec.ltb x y = true <-> fcmp x y = Some Lt.
Proof.
  unfold Vec.ltb, fcmp. rewrite ltb_spec. unfold SFltb.
  destruct (SFcompare _ _) as [[]|]; split; done.
Qed.

Lemma leb_fcmp x y : Vec.leb x y = true <-> fcmp x y = Some Lt \/ fcmp x y = Some Eq.
Proof.
  unfold Vec.leb, fcmp. rewrite leb_spec. unfold SFleb.
  destruct (SFcompare _ _) as [[]|];
    (split; [try done; auto | try done; intros [|]; done]).
Qed.

Lemma eqb_fcmp x y : Vec.eqb x y = true <-> fcmp x y = Some Eq.
Proof.
  unfold Vec.eqb, fcmp. rewrite FloatAxioms.eqb_spec. unfold SFeqb.
  destruct (SFcompare _ _) as [[]|]; split; done.
Qed.

Lemma fcmp_antisym x y : fcmp y x = option_map CompOpp (fcmp x y).
Proof. apply SFcompare_antisym. Qed.

Lemma fcmp_number x y : Vec.eqb x x = true -> Vec.eqb y y = true -> is_Some (fcmp x y).
Proof.
  rewrite !eqb_fcmp. intros Hx Hy. destruct (fcmp x y) eqn:Hxy; [by eexists|].
  apply SFcompare_None in Hxy as [H|H]; unfold fcmp in *; congruence.
Qed.

Lemma ltb_irrefl a : Vec.ltb a a = false.
Proof.
  apply not_true_is_false. rewrite ltb_fcmp. intros H.
  pose proof (fcmp_antisym a a) as Ha. rewrite H in Ha. done.
Qed.

Lemma ltb_leb_trans a b c : Vec.ltb a b = true -> Vec.leb b c = true -> Vec.ltb a c = true.
Proof.
  rewrite !ltb_fcmp, leb_fcmp. intros Hab [Hbc|Hbc].
  - by eapply SFcompare_trans.
  - unfold fcmp in *. pose proof (SFcompare_antisym (Prim2SF b) (Prim2SF c)) as Hcb.
    rewrite Hbc in Hcb. cbn in Hcb.
    pose proof (SFcompare_eq_l _ _ (Prim2SF a) Hcb) as Hca.
    rewrite (SFcompare_antisym (Prim2SF a) (Prim2SF c)) in Hca.
    rewrite (SFcompare_antisym (Prim2SF a) (Prim2SF b)) in Hca. rewrite Hab in Hca.
    destruct (SFcompare (Prim2SF a) (Prim2SF c)) as [[]|]; done.
Qed.

Lemma leb_ltb_trans a b c : Vec.leb a b = true -> Vec.ltb b c = true -> Vec.ltb a c = true.
Proof.
  rewrite !ltb_fcmp, leb_fcmp. intros [Hab|Hab] Hbc.
  - by eapply SFcompare_trans.
  - unfold fcmp in *. by rewrite (SFcompare_eq_l _ _ _ Hab).
Qed.

Lemma ltb_leb a b : Vec.ltb a b = true -> Vec.leb a b = true.
Proof. rewrite ltb_fcmp, leb_fcmp. by left. Qed.

(** Of two numbers one is below the other or they are level. *)
Lemma leb_of_not_ltb a b :
  Vec.eqb a a = true -> Vec.eqb b b = true -> Vec.ltb a b = false -> Vec.leb b a = true.
Proof.
  intros Ha Hb Hlt. destruct (fcmp_number a b Ha Hb) as [c Hc].
  apply leb_fcmp. rewrite (fcmp_antisym a b), Hc. destruct c; cbn; auto.
  apply ltb_fcmp in Hc. congruence.
Qed.

Lemma ltb_number a b : Vec.ltb a b = true -> Vec.eqb a a = true /\ Vec.eqb b b = true.
Proof.
  rewrite ltb_fcmp, !eqb_fcmp. intros Hab.
  destruct (fcmp a a) as [ca|] eqn:Ha, (fcmp b b) as [cb|] eqn:Hb.
  - pose proof (fcmp_antisym a a) as Ha'. rewrite Ha in Ha'.
    pose proof (fcmp_antisym b b) as Hb'. rewrite Hb in Hb'.
    destruct ca, cb; done.
  - assert (fcmp a b = None) by (apply SFcompare_None; by right). congruence.
  - assert (fcmp a b = None) by (apply SFcompare_None; by left). congruence.
  - assert (fcmp a b = None) by (apply SFcompare_None; by left). congruence.
Qed.

(** What is not below [b] is not below anything below [b]. *)
Lemma ltb_below a b c : Vec.ltb a b = true -> Vec.ltb c b = false -> Vec.ltb c a = false.
Proof.
  intros Hab Hcb. apply not_true_is_false. intros Hca.
  assert (Vec.ltb c b = true); [|congruence].
  apply (ltb_leb_trans c a b Hca). apply leb_fcmp. left. by apply ltb_fcmp.
Qed.

Lemma ltb_trans a b c : Vec.ltb a b = true -> Vec.ltb b c = true -> Vec.ltb a c = true.
Proof. rewrite !ltb_fcmp. apply SFcompare_trans. Qed.

(** A number that nothing below [x] undercuts is itself below [x]. *)
Lemma ltb_minimal m d x :
  Vec.eqb m m = true -> Vec.ltb d m = false -> Vec.ltb d x = true -> Vec.ltb m x = true.
Proof.
  intros Hm Hdm Hdx. destruct (ltb_number d x Hdx) as [Hd _].
  apply (leb_ltb_trans m d x); [|done]. by apply leb_of_not_ltb.
Qed.

End FloatOrder.

(** ** Admission control at an intersection *)

Section Admission.
Context (w : World) (i : Intersection.t).

Local Abbreviation dist := (Intersection.distance_to_car i).

(** The search over the incoming roads keeps the priority car as long as no
    first vehicle is strictly closer. *)
Lemma closest_incoming_loop_keeps rs v d :
  (forall r, r ∈ rs -> exists road, roads w !! r = Some road
     /\ forall h, head (Road.cars road) = Some h -> is_Some (car_heap w !! h)) ->
  (forall r road h c, r ∈ rs -> roads w !! r = Some road ->
     head (Road.cars road) = Some h -> car_heap w !! h = Some c ->
     Vec.ltb (dist c) d = false) ->
  closest_incoming_loop w i rs v d = Ok v.
Proof.
  induction rs as [|r rs IH]; intros Hok Hfar; [done|].
  cbn [closest_incoming_loop].
  destruct (Hok r) as (road & Hroad & Hhead); [apply list_elem_of_here|].
  unfold get_road, handle_lookup. rewrite Hroad. cbn [result_bind].
  assert (closest_incoming_loop w i rs v d = Ok v) as Hrest.
  { apply IH.
    - intros r' Hr'. apply Hok. by apply list_elem_of_further.
    - intros r' road' h c Hr'. apply Hfar. by apply list_elem_of_further. }
  destruct (Road.cars road) as [|first queue] eqn:Hq; [done|].
  destruct (Hhead first) as [c Hc]; [done|].
  unfold get_car, handle_lookup. rewrite Hc. cbn [result_bind].
  rewrite (Hfar r road first c); [done|apply list_elem_of_here|done| |done].
  by rewrite Hq.
Qed.

(** What the accumulator of the search over the outgoing roads holds: a
    car of the heap, its distance, and a distance that is a number. *)
Local Abbreviation acc_ok acc :=
  (forall h d, acc = Some (h, d) ->
     Vec.eqb d d = true /\ exists c, car_heap w !! h = Some c /\ d = dist c).

Lemma closest_outgoing_loop_spec rs acc :
  (forall r, r ∈ rs -> exists road, roads w !! r = Some road
     /\ forall h, last (Road.cars road) = Some h ->
          exists c, car_heap w !! h = Some c /\ Vec.eqb (dist c) (dist c) = true) ->
  acc_ok acc ->
  exists acc',
    closest_outgoing_loop w i rs acc = Ok acc'
    /\ acc_ok acc'
    /\ (acc' = None ->
        acc = None
        /\ forall r road, r ∈ rs -> roads w !! r = Some road -> last (Road.cars road) = None)
    /\ (forall h d, acc' = Some (h, d) ->
        (acc = Some (h, d)
         \/ exists r road, r ∈ rs /\ roads w !! r = Some road
                           /\ last (Road.cars road) = Some h)
        /\ (forall h0 d0, acc = Some (h0, d0) -> Vec.ltb d0 d = false)
        /\ (forall r road h' c', r ∈ rs -> roads w !! r = Some road ->
              last (Road.cars road) = Some h' -> car_heap w !! h' = Some c' ->
              Vec.ltb (dist c') d = false)).
Proof.
  revert acc. induction rs as [|r rs IH]; intros acc Hok Hacc.
  - exists acc. split; [done|]. split; [done|]. split.
    + intros ->. split; [done|]. intros r road Hr. by apply elem_of_nil in Hr.
    + intros h d ->. split; [by left|]. split.
      * intros h0 d0 [= <- <-]. apply ltb_irrefl.
      * intros r road h' c' Hr. by apply elem_of_nil in Hr.
  - cbn [closest_outgoing_loop].
    destruct (Hok r) as (road & Hroad & Hlast); [apply list_elem_of_here|].
    unfold get_road, handle_lookup. rewrite Hroad. cbn [result_bind].
    assert (Hok' : forall r', r' ∈ rs -> exists road', roads w !! r' = Some road'
              /\ forall h, last (Road.cars road') = Some h ->
                   exists c, car_heap w !! h = Some c /\ Vec.eqb (dist c) (dist c) = true).
    { intros r' Hr'. apply Hok. by apply list_elem_of_further. }
    destruct (last (Road.cars road)) as [back|] eqn:Hback.
    + destruct (Hlast back) as (c & Hc & Hnum); [done|].
      unfold get_car, handle_lookup. rewrite Hc. cbn [result_bind].
      assert (Hnew : acc_ok (Some (back, dist c))).
      { intros h d [= <- <-]. split; [done|]. by exists c. }
      destruct acc as [[h0 m]|].
      * destruct (Hacc h0 m) as [Hm _]; [done|].
        destruct (Vec.ltb (dist c) m) eqn:Hlt.
        -- destruct (IH _ Hok' Hnew) as (acc' & Hrun & Hacc' & Hnone & Hsome).
           exists acc'. split; [done|]. split; [done|]. split.
           ++ intros Hn. by destruct (Hnone Hn).
           ++ intros h d Hd. destruct (Hsome h d Hd) as (Horigin & Hmin0 & Hmin).
              split; [|split].
              ** right. destruct Horigin as [[= <- <-]|(r' & road' & Hr' & Hroad' & Hl')].
                 --- exists r, road. split; [apply list_elem_of_here|done].
                 --- exists r', road'. split; [by apply list_elem_of_further|done].
              ** intros h1 d1 [= <- <-]. apply not_true_is_false. intros Hmd.
                 pose proof (ltb_trans _ _ _ Hlt Hmd) as Hcd.
                 by rewrite (Hmin0 back (dist c)) in Hcd.
              ** intros r' road' h' c' [->|Hr']%elem_of_cons Hroad' Hl' Hc'.
                 --- assert (c' = c) as -> by congruence. by apply (Hmin0 back).
                 --- by eapply Hmin.
        -- destruct (IH _ Hok' Hacc) as (acc' & Hrun & Hacc' & Hnone & Hsome).
           exists acc'. split; [done|]. split; [done|]. split.
           ++ intros Hn. by destruct (Hnone Hn).
           ++ intros h d Hd. destruct (Hsome h d Hd) as (Horigin & Hmin0 & Hmin).
              split; [|split].
              ** destruct Horigin as [?|(r' & road' & Hr' & Hroad' & Hl')]; [by left|].
                 right. exists r', road'. split; [by apply list_elem_of_further|done].
              ** done.
              ** intros r' road' h' c' [->|Hr']%elem_of_cons Hroad' Hl' Hc'.
                 --- assert (c' = c) as -> by congruence.
                     apply not_true_is_false. intros Hcd.
                     assert (Vec.ltb m d = true); [|by rewrite (Hmin0 h0 m) in *].
                     apply (leb_ltb_trans m (dist c) d); [|done].
                     by apply leb_of_not_ltb.
                 --- by eapply Hmin.
      * destruct (IH _ Hok' Hnew) as (acc' & Hrun & Hacc' & Hnone & Hsome).
        exists acc'. split; [done|]. split; [done|]. split.
        -- intros Hn. by destruct (Hnone Hn).
        -- intros h d Hd. destruct (Hsome h d Hd) as (Horigin & Hmin0 & Hmin).
           split; [|split].
           ++ right. destruct Horigin as [[= <- <-]|(r' & road' & Hr' & Hroad' & Hl')].
              ** exists r, road. split; [apply list_elem_of_here|done].
              ** exists r', road'. split; [by apply list_elem_of_further|done].
           ++ done.
           ++ intros r' road' h' c' [->|Hr']%elem_of_cons Hroad' Hl' Hc'.
              ** assert (c' = c) as -> by congruence. by apply (Hmin0 back).
              ** by eapply Hmin.
    + destruct (IH _ Hok' Hacc) as (acc' & Hrun & Hacc' & Hnone & Hsome).
      exists acc'. split; [done|]. split; [done|]. split.
      * intros Hn. destruct (Hnone Hn) as [-> Hall]. split; [done|].
        intros r' road' [->|Hr']%elem_of_cons Hroad'.
        -- congruence.
        -- by eapply Hall.
      * intros h d Hd. destruct (Hsome h d Hd) as (Horigin & Hmin0 & Hmin).
        split; [|split].
        -- destruct Horigin as [?|(r' & road' & Hr' & Hroad' & Hl')]; [by left|].
           right. exists r', road'. split; [by apply list_elem_of_further|done].
        -- done.
        -- intros r' road' h' c' [->|Hr']%elem_of_cons Hroad' Hl' Hc'.
           ++ congruence.
           ++ by eapply Hmin.
Qed.

End Admission.

(** C4.  Let [v] be the closest incoming vehicle of an intersection (no
    first vehicle of an incoming road is strictly closer than [v]) and let
    [oc] be the nearest vehicle on the outgoing roads (the last vehicle of
    an outgoing road such that no last vehicle of an outgoing road is
    strictly closer), the distances of these vehicles being numbers.  If
    [oc] is strictly closer to the intersection than the clearance, [v] may
    not approach; if its distance is the clearance or more, [v] may. *)
Theorem C4_can_approach_clearance w i v vc oc :
  intersection_ok w i ->
  car_heap w !! v = Some vc ->
  (forall c, incoming_front w i c ->
     Vec.ltb (Intersection.distance_to_car i c) (Intersection.distance_to_car i vc) = false) ->
  outgoing_back w i oc ->
  (forall c, outgoing_back w i c ->
     Vec.eqb (Intersection.distance_to_car i c) (Intersection.distance_to_car i c) = true
     /\ Vec.ltb (Intersection.distance_to_car i c) (Intersection.distance_to_car i oc) = false) ->
  (Vec.ltb (Intersection.distance_to_car i oc) (Intersection.min_clearance i) = true ->
   can_approach w i v = Ok false)
  /\ (Vec.leb (Intersection.min_clearance i) (Intersection.distance_to_car i oc) = true ->
      can_approach w i v = Ok true).
Proof.
  intros Hok Hv Hclosest Hoc Hnearest.
  destruct (closest_outgoing_loop_spec w i (Intersection.outgoing_roads i) None)
    as (acc & Hrun & Hacc & Hnone & Hsome).
  { intros r Hr. destruct (Hok r) as (road & Hroad & _ & Hlast).
    { apply elem_of_app. by right. }
    exists road. split; [done|]. intros h Hh. destruct (Hlast h Hh) as [c Hc].
    exists c. split; [done|]. apply Hnearest. by exists r, road, h. }
  { done. }
  destruct acc as [[h d]|]; cycle 1.
  { destruct Hnone as [_ Hempty]; [done|].
    destruct Hoc as (r & road & ho & Hr & Hroad & Hlast & _).
    rewrite (Hempty r road Hr Hroad) in Hlast. done. }
  destruct (Hacc h d) as (Hnum & c & Hc & ->); [done|].
  destruct (Hsome h _ eq_refl) as ([|(r & road & Hr & Hroad & Hlast)] & _ & Hmin); [done|].
  assert (Hback : outgoing_back w i c) by by exists r, road, h.
  assert (Hin : closest_incoming_car w i v = Ok v).
  { unfold closest_incoming_car, get_car, handle_lookup. rewrite Hv. cbn [result_bind].
    apply closest_incoming_loop_keeps.
    - intros r' Hr'. destruct (Hok r') as (road' & Hroad' & Hhead & _).
      { apply elem_of_app. by left. }
      by exists road'.
    - intros r' road' h' c' Hr' Hroad' Hhead Hc'. apply Hclosest. by exists r', road', h'. }
  unfold can_approach, closest_outgoing_car. rewrite Hrun. cbn [result_bind option_map fst].
  assert (get_car w h = Ok c) as -> by (unfold get_car, handle_lookup; by rewrite Hc).
  cbn [result_bind]. split; intros Hd.
  - assert (Vec.ltb (Intersection.distance_to_car i c) (Intersection.min_clearance i) = true)
      as ->; [|done].
    apply (ltb_minimal _ (Intersection.distance_to_car i oc) _ Hnum); [|done].
    destruct Hoc as (ro & roado & ho & Hro & Hroado & Hlasto & Hco).
    by apply (Hmin ro roado ho oc).
  - assert (Vec.ltb (Intersection.distance_to_car i c) (Intersection.min_clearance i) = false)
      as ->.
    { apply not_true_is_false. intros Hlt.
      pose proof (ltb_leb_trans _ _ _ Hlt Hd) as Hco.
      destruct (Hnearest c Hback) as [_ Hfar]. congruence. }
    rewrite Hin. cbn [result_bind]. by rewrite Nat.eqb_refl.
Qed.

(** With no vehicle on any outgoing road the closest incoming vehicle may
    approach. *)
Lemma can_approach_no_outgoing w i v :
  closest_outgoing_car w i = Ok None ->
  closest_incoming_car w i v = Ok v ->
  can_approach w i v = Ok true.
Proof.
  intros Hout Hin. unfold can_approach. rewrite Hout. cbn [result_bind].
  rewrite Hin. cbn [result_bind]. by rewrite Nat.eqb_refl.
Qed.

(** A vehicle that is not the closest incoming one may not approach. *)
Lemma can_approach_not_closest w i v other :
  closest_incoming_car w i v = Ok other -> other <> v ->
  forall b, can_approach w i v = Ok b -> b = false.
Proof.
  intros Hin Hne b. unfold can_approach.
  destruct (closest_outgoing_car w i) as [[o|]|]; cbn [result_bind]; [| |done].
  - destruct (get_car w o) as [oc|]; cbn [result_bind]; [|done].
    destruct (Vec.ltb _ _); [by intros [= <-]|].
    rewrite Hin. cbn [result_bind].
    destruct (Nat.eqb_spec v other) as [->|_]; [done|]. by intros [= <-].
  - rewrite Hin. cbn [result_bind].
    destruct (Nat.eqb_spec v other) as [->|_]; [done|]. by intros [= <-].
Qed.

(** The roads and queues of the crossing, whatever the place of the last
    vehicle of road 1 *)
Ltac crossing_cases :=
  repeat match goal with
  | H : _ ∈ _ :: _ |- _ => apply elem_of_cons in H as [->|H]
  | H : _ ∈ _ |- _ => progress cbn in H
  | H : _ ∈ [] |- _ => by apply elem_of_nil in H
  | H : roads (crossing_world _) !! _ = Some _ |- _ => cbn in H; injection H as <-
  | H : head _ = Some _ |- _ => cbn in H; injection H as <-
  | H : last _ = Some _ |- _ => cbn in H; injection H as <-
  | H : car_heap (crossing_world _) !! _ = Some _ |- _ => cbn in H; injection H as <-
  end.

Lemma crossing_ok x : intersection_ok (crossing_world x) crossing.
Proof.
  intros r Hr. crossing_cases; eexists; (split; [reflexivity|]);
    split; intros h Hh; crossing_cases; by eexists.
Qed.

Lemma C4_boundary_witness :
  can_approach (crossing_world 105.9999) crossing 0 = Ok false
  /\ can_approach (crossing_world 106) crossing 0 = Ok true.
Proof.
  split.
  - apply (C4_can_approach_clearance (crossing_world 105.9999) crossing 0%nat
             (Car.mk 0 (0, 0, 0) 1 (80, 0)%float) (Car.mk 3 (0, 0, 0) 1 (105.9999, 0)%float)).
    + apply crossing_ok.
    + reflexivity.
    + intros c (r & road & h & Hr & Hroad & Hhead & Hc). crossing_cases; reflexivity.
    + exists 1%nat, (crossing_road (100, 0)%float (200, 0)%float (1, 0)%float [2%nat; 3%nat]),
             3%nat.
      split; [apply list_elem_of_further, list_elem_of_here || apply list_elem_of_here|].
      by split; [|split].
    + intros c (r & road & h & Hr & Hroad & Hlast & Hc). crossing_cases; by split.
    + reflexivity.
  - apply (C4_can_approach_clearance (crossing_world 106) crossing 0%nat
             (Car.mk 0 (0, 0, 0) 1 (80, 0)%float) (Car.mk 3 (0, 0, 0) 1 (106, 0)%float)).
    + apply crossing_ok.
    + reflexivity.
    + intros c (r & road & h & Hr & Hroad & Hhead & Hc). crossing_cases; reflexivity.
    + exists 1%nat, (crossing_road (100, 0)%float (200, 0)%float (1, 0)%float [2%nat; 3%nat]),
             3%nat.
      split; [apply list_elem_of_further, list_elem_of_here || apply list_elem_of_here|].
      by split; [|split].
    + intros c (r & road & h & Hr & Hroad & Hlast & Hc). crossing_cases; by split.
    + reflexivity.
Defined.

(** ** The random module only consumes its tape *)

Lemma next_draw_tape w x w' :
  Random.next_draw w = (x, w') -> exists tape, w' = set_random_tape w tape.
Proof.
  unfold Random.next_draw. destruct w as [h rs er ints mc gc [|y tape]]; cbn.
  - intros [= <- <-]. by exists [].
  - intros [= <- <-]. by exists tape.
Qed.

Lemma randbelow_tape n w x w' :
  Random.randbelow n w = (x, w') -> exists tape, w' = set_random_tape w tape.
Proof.
  unfold Random.randbelow. destruct (Random.next_draw w) as [y w1] eqn:Hd.
  intros [= <- <-]. by eapply next_draw_tape.
Qed.

Lemma random_tape_only w u w' :
  Random.random w = (u, w') -> exists tape, w' = set_random_tape w tape.
Proof.
  unfold Random.random. destruct (Random.next_draw w) as [y w1] eqn:Hd.
  intros [= <- <-]. by eapply next_draw_tape.
Qed.

Lemma choice_tape {A} (l : list A) w x w' :
  Random.choice l w = Ok (x, w') -> exists tape, w' = set_random_tape w tape.
Proof.
  unfold Random.choice. destruct (Random.randbelow (length l) w) as [j w1] eqn:Hd.
  destruct (l !! j); [|done]. intros [= <- <-]. by eapply randbelow_tape.
Qed.


Lemma find_available_road_tape i w o w' :
  find_available_road i w = Ok (o, w') -> exists tape, w' = set_random_tape w tape.
Proof.
  unfold find_available_road, sim_bind, sim_read, sim_ret.
  destruct (available_roads w i _) as [[|r rs]|]; [| |done].
  - intros [= <- <-]. exists (random_tape w). by destruct w.
  - destruct (Random.choice (r :: rs) w) as [[x w1]|] eqn:Hc; [|done].
    intros [= <- <-]. by eapply choice_tape.
Qed.

(** ** One car of the snapshot *)

Lemma get_car_tape w tape c : get_car (set_random_tape w tape) c = get_car w c.
Proof. reflexivity. Qed.

Lemma get_road_tape w tape r : get_road (set_random_tape w tape) r = get_road w r.
Proof. reflexivity. Qed.

Lemma handle_exit_heap road_h intersection w w' :
  MapManager._handle_exit road_h intersection w = Ok (tt, w') ->
  car_heap w' = car_heap w /\ min_clearance w' = min_clearance w.
Proof.
  unfold MapManager._handle_exit, sim_bind, sim_read, sim_write, sim_ret.
  destruct (get_road w road_h) as [road|]; [|done].
  destruct (Road.has_exit road).
  - destruct (Road.remove_first_car road) as [[c road']|]; [|done].
    by intros [= <-].
  - destruct (MapManager.deref_intersection w intersection) as [i|]; [|done].
    destruct (find_available_road i w) as [[o w1]|] eqn:Hfind; [|done].
    apply find_available_road_tape in Hfind as [tape ->].
    destruct o as [new_road_h|]; [|by intros [= <-]].
    destruct (Road.remove_first_car road) as [[c road']|]; [|done].
    cbn [fst snd].
    destruct (get_road (put_road (set_random_tape w tape) road_h road') new_road_h)
      as [target|]; [|done].
    by intros [= <-].
Qed.

Lemma move_car_unfold w road_h road car_h car car_in_front target :
  get_road w road_h = Ok road ->
  get_car w car_h = Ok car ->
  MapManager.car_target w road car_h car_in_front = Ok target ->
  MapManager.move_car road_h car_in_front car_h w
  = (if negb (fst target) && Vec.array_equal (snd target) (Road.endnode road)
     then MapManager._handle_exit road_h (Road.connected_intersection road)
     else sim_ret tt)
      (put_car w car_h (Car.move car (snd target))).
Proof.
  intros Hroad Hcar Htarget.
  unfold MapManager.move_car, sim_bind, sim_read, sim_write.
  by rewrite Hroad, Htarget, Hcar.
Qed.

Lemma move_car_heap w road_h road car_h car car_in_front target w1 :
  get_road w road_h = Ok road ->
  get_car w car_h = Ok car ->
  MapManager.car_target w road car_h car_in_front = Ok target ->
  MapManager.move_car road_h car_in_front car_h w = Ok (tt, w1) ->
  car_heap w1 = <[car_h := Car.move car (snd target)]> (car_heap w)
  /\ min_clearance w1 = min_clearance w.
Proof.
  intros Hroad Hcar Htarget.
  rewrite (move_car_unfold _ _ _ _ _ _ _ Hroad Hcar Htarget).
  destruct (negb _ && _).
  - by intros [-> ->]%handle_exit_heap.
  - unfold sim_ret. by intros [= <-].
Qed.

Lemma get_car_lt w car_h car : get_car w car_h = Ok car -> car_heap w !! car_h = Some car.
Proof.
  unfold get_car, handle_lookup. destruct (car_heap w !! car_h); [|done]. by intros [= ->].
Qed.

(** C1, as the code has it.  The snapshot of a road fixes which vehicle is
    in front of which, not where it is.  When the vehicle [c] behind [f] is
    processed, [f] has already been moved in this tick to its target, and
    the speed permitted to [c] is [_max_speed] evaluated on that advanced
    position of [f]. *)
Theorem C1_front_position_is_live w road_h road prev f c car_f car_c target w1 :
  get_road w road_h = Ok road ->
  get_car w f = Ok car_f ->
  get_car w c = Ok car_c ->
  f <> c ->
  MapManager.car_target w road f prev = Ok target ->
  MapManager.move_car road_h prev f w = Ok (tt, w1) ->
  get_car w1 f = Ok (Car.move car_f (snd target))
  /\ MapManager.free_speed w1 road c (Some f)
     = Ok (MapManager._max_speed w1 car_c (Some (Car.move car_f (snd target))) road)
  /\ forall rest,
       MapManager.move_snapshot road_h prev (f :: c :: rest) w
       = (run MapManager.move_car road_h (Some f) c;
          MapManager.move_snapshot road_h (Some c) rest)%sim w1.
Proof.
  intros Hroad Hf Hc Hne Htarget Hmove.
  destruct (move_car_heap _ _ _ _ _ _ _ _ Hroad Hf Htarget Hmove) as [Hheap Hmc].
  apply get_car_lt in Hf as Hf'. apply get_car_lt in Hc as Hc'.
  assert (get_car w1 f = Ok (Car.move car_f (snd target))) as Hf1.
  { unfold get_car, handle_lookup. rewrite Hheap.
    rewrite list_lookup_insert_eq; [done|]. by eapply lookup_lt_Some. }
  assert (get_car w1 c = Ok car_c) as Hc1.
  { unfold get_car, handle_lookup. rewrite Hheap.
    rewrite list_lookup_insert_ne by done. by rewrite Hc'. }
  split; [done|]. split.
  - unfold MapManager.free_speed, MapManager.front_car.
    rewrite Hc1. cbn [result_bind]. rewrite Hf1. reflexivity.
  - intros rest. cbn [MapManager.move_snapshot]. unfold sim_bind at 1.
    by rewrite Hmove.
Qed.

(** ** Spawning only adds cars *)

Lemma choices_256_tape w x w' :
  Random.choices_256 w = (x, w') -> exists tape, w' = set_random_tape w tape.
Proof.
  unfold Random.choices_256. destruct (Random.next_draw w) as [y w1] eqn:Hd.
  intros [= <- <-]. by eapply next_draw_tape.
Qed.

Lemma uniform_tape a b w x w' :
  Random.uniform a b w = (x, w') -> exists tape, w' = set_random_tape w tape.
Proof.
  unfold Random.uniform. destruct (Random.random w) as [y w1] eqn:Hd.
  intros [= <- <-]. by eapply random_tape_only.
Qed.

Lemma new_car_extends position w :
  exists car tape,
    MapManager.new_car position w
    = Ok (length (car_heap w),
          {| car_heap := car_heap w ++ [car]; roads := roads w;
             entry_roads := entry_roads w; intersections := intersections w;
             min_clearance := min_clearance w;
             generation_count := S (generation_count w); random_tape := tape |})
    /\ Car.position car = position.
Proof.
  unfold MapManager.new_car, sim_bind, sim_total.
  destruct (Random.choices_256 w) as [r w1] eqn:H1.
  apply choices_256_tape in H1 as [t1 ->].
  destruct (Random.choices_256 _) as [g w2] eqn:H2.
  apply choices_256_tape in H2 as [t2 ->].
  destruct (Random.choices_256 _) as [b w3] eqn:H3.
  apply choices_256_tape in H3 as [t3 ->].
  destruct (Random.uniform _ _ _) as [speed w4] eqn:H4.
  apply uniform_tape in H4 as [t4 ->].
  eexists _, t4. split; reflexivity.
Qed.

Lemma generate_car_from_gate_extends entries road_h w :
  gates_ok entries w -> (road_h < length (roads w))%nat ->
  exists w' new,
    MapManager.generate_car_from_gate road_h w = Ok (tt, w')
    /\ car_heap w' = car_heap w ++ new
    /\ gates_ok entries w'.
Proof.
  intros [Hentries Hlast] Hlt.
  destruct (lookup_lt_is_Some_2 _ _ Hlt) as [road Hroad].
  unfold MapManager.generate_car_from_gate, sim_bind, sim_read, sim_ret, sim_write.
  unfold get_road at 1. unfold handle_lookup. rewrite Hroad.
  assert (exists free,
             (if Road.has_entry road then
                match last (Road.cars road) with
                | Some back =>
                    (do c <- get_car w back;
                     Ok (Vec.leb (Road.clearance road)
                           (Vec.norm (Vec.sub (Car.position c) (Road.startnode road)))))%result
                | None => Ok true
                end
              else Ok false) = Ok free) as [free ->].
  { destruct (Road.has_entry road); [|by eexists].
    destruct (last (Road.cars road)) as [back|] eqn:Hback; [|by eexists].
    destruct (lookup_lt_is_Some_2 _ _ (Hlast _ _ _ Hroad Hback)) as [c Hc].
    unfold get_car, handle_lookup. rewrite Hc. by eexists. }
  destruct free.
  - unfold sim_total. destruct (Random.random w) as [u w1] eqn:Hu.
    apply random_tape_only in Hu as [t1 ->].
    destruct (Vec.leb u (Road.spawn_probability road)).
    + destruct (new_car_extends (Road.startnode road) (set_random_tape w t1))
        as (car & t2 & -> & _).
      unfold get_road, handle_lookup. cbn [roads set_random_tape car_heap].
      rewrite Hroad. eexists _, [car]. split; [reflexivity|].
      split; [reflexivity|]. split.
      * intros r Hr. cbn. rewrite length_insert. by apply Hentries.
      * intros r road' back. cbn. rewrite length_app. cbn.
        destruct (decide (r = road_h)) as [->|Hne].
        -- rewrite list_lookup_insert_eq by done. intros [= <-].
           unfold Road.add_car. cbn. rewrite last_snoc. intros [= <-]. lia.
        -- rewrite list_lookup_insert_ne by done. intros Hr Hb.
           specialize (Hlast _ _ _ Hr Hb). lia.
    + eexists _, []. split; [reflexivity|]. split; [by rewrite app_nil_r|]. by split.
  - eexists _, []. split; [reflexivity|]. split; [by rewrite app_nil_r|]. by split.
Qed.

Lemma generate_cars_loop_extends entries l w :
  gates_ok entries w -> l ⊆ entries ->
  exists w' new,
    sim_for_each l MapManager.generate_car_from_gate w = Ok (tt, w')
    /\ car_heap w' = car_heap w ++ new.
Proof.
  revert w. induction l as [|road_h l IH]; intros w Hok Hsub.
  - exists w, []. split; [reflexivity | by rewrite app_nil_r].
  - cbn [sim_for_each]. unfold sim_bind.
    destruct (generate_car_from_gate_extends entries road_h w Hok)
      as (w1 & new1 & -> & Hheap1 & Hok1).
    { apply Hok, Hsub, list_elem_of_here. }
    destruct (IH w1 Hok1) as (w2 & new2 & -> & Hheap2).
    { intros r Hr. apply Hsub. by apply list_elem_of_further. }
    exists w2, (new1 ++ new2). split; [reflexivity|].
    by rewrite Hheap2, Hheap1, app_assoc.
Qed.

(** [generate_cars] never fails on a well-formed world and leaves every
    existing car as it is. *)
Lemma generate_cars_extends w :
  gates_ok (entry_roads w) w ->
  exists w', MapManager.generate_cars w = Ok (tt, w')
             /\ forall c car, car_heap w !! c = Some car -> car_heap w' !! c = Some car.
Proof.
  intros Hok. unfold MapManager.generate_cars, sim_bind, sim_read.
  destruct (generate_cars_loop_extends (entry_roads w) (entry_roads w) w Hok)
    as (w' & new & Hrun & Hheap); [done|].
  exists w'. split; [done|]. intros c car Hc. rewrite Hheap. by apply lookup_app_l_Some.
Qed.

Lemma tick_after_move w w1 :
  MapManager.move_cars w = Ok (tt, w1) ->
  gates_ok (entry_roads w1) w1 ->
  exists w', MapManager.tick w = Ok (tt, w')
             /\ forall c p, car_position w1 c = Some p -> car_position w' c = Some p.
Proof.
  intros Hmove Hok. destruct (generate_cars_extends w1 Hok) as (w' & Hgen & Hkeep).
  exists w'. split.
  - unfold MapManager.tick, sim_bind. by rewrite Hmove.
  - intros c p. unfold car_position.
    destruct (car_heap w1 !! c) as [car|] eqn:Hc; [|done].
    by rewrite (Hkeep _ _ Hc).
Qed.

(** ** Evaluating a tick on a concrete world *)

Local Open Scope float_scope.

(** Split on the comparisons of doubles that are not known numbers. *)
Ltac float_cases :=
  repeat match goal with
  | |- context [if ?b then _ else _] => destruct b eqn:?
  end.

Lemma shuffle_two w :
  exists tape,
    Random.shuffle [0%nat; 1%nat] w = ([0%nat; 1%nat], set_random_tape w tape)
    \/ Random.shuffle [0%nat; 1%nat] w = ([1%nat; 0%nat], set_random_tape w tape).
Proof.
  unfold Random.shuffle. cbn [length Nat.sub Random.shuffle_loop].
  destruct (Random.randbelow 2 w) as [j w1] eqn:Hj.
  pose proof Hj as [tape ->]%randbelow_tape. exists tape.
  assert (j < 2)%nat as Hlt.
  { unfold Random.randbelow in Hj. destruct (Random.next_draw w) as [x w2].
    assert (j = x mod 2)%nat as -> by congruence.
    apply Nat.mod_upper_bound. lia. }
  destruct j as [|[|j]]; [by right | by left | lia].
Qed.

(** *** The worlds are the ones [MapManager] builds *)

Lemma single_road_world_init p n tape :
  Vec.ltb p 0 = false -> Vec.ltb 1 p = false ->
  MapManager.init [((0, 0)%Z, [((1, 0)%Z, (100, 0)%Z)]); ((100, 0)%Z, [])]
                  [(0, 0)%Z] [(100, 0)%Z] p 6 n tape
  = Ok (single_road_world p [] [] n tape).
Proof.
  intros Hp0 Hp1. unfold MapManager.init, MapManager._generate_roads, sim_for_each, Road.init.
  rewrite Hp0, Hp1. vm_compute. reflexivity.
Qed.

(** [MapManager.__init__] on the network of two roads: the world it
    builds, and what it has checked of the clearance. *)
Lemma junction_world_init p cl n tape w0 :
  MapManager.init junction_network [(0, 0)%Z] [(200, 0)%Z] p cl n tape = Ok w0 ->
  w0 = junction_world p cl [] [] [] n tape /\ Vec.ltb cl 6 = false.
Proof.
  intros Hinit.
  destruct (Vec.ltb p 0) eqn:Hp0, (Vec.ltb 1 p) eqn:Hp1, (Vec.ltb cl 6) eqn:H6,
    (Vec.leb cl 0) eqn:H0, (Vec.leb 100 cl) eqn:H100, (Vec.ltb 100 (2 * cl)) eqn:H200;
    vm_compute in Hp0, Hp1, H6, H0, H100, H200;
    repeat (vm_compute in Hinit; progress rewrite ?Hp0, ?Hp1, ?H6, ?H0, ?H100, ?H200 in Hinit);
    vm_compute in Hinit; try discriminate Hinit.
  injection Hinit as <-. by split.
Qed.

Lemma single_road_gates_ok p heap queue back n tape :
  last queue = Some back -> (back < length heap)%nat ->
  gates_ok [0%nat] (single_road_world p heap queue n tape).
Proof.
  intros Hback Hlt. split.
  - intros r ->%list_elem_of_singleton. cbn. lia.
  - intros [|r] road b; cbn; [|done].
    intros [= <-]. cbn. rewrite Hback. by intros [= <-].
Qed.

Lemma junction_gates_ok p cl heap queue0 queue1 n tape :
  (forall back, last queue0 = Some back -> (back < length heap)%nat) ->
  (forall back, last queue1 = Some back -> (back < length heap)%nat) ->
  gates_ok [0%nat] (junction_world p cl heap queue0 queue1 n tape).
Proof.
  intros H0 H1. split.
  - intros r ->%list_elem_of_singleton. cbn. lia.
  - intros [|[|r]] road b; cbn; [| |done].
    + intros [= <-]. cbn. apply H0.
    + intros [= <-]. cbn. apply H1.
Qed.

(** *** Two cars on one road *)

Lemma two_cars_move p ida ca idb cb n tape :
  MapManager.move_cars
    (single_road_world p [Car.mk ida ca 10 (10, 0); Car.mk idb cb 20 (4, 0)]
                       [0%nat; 1%nat] n tape)
  = Ok (tt, single_road_world p [Car.mk ida ca 10 (20, 0); Car.mk idb cb 20 (14, 0)]
                              [0%nat; 1%nat] n tape).
Proof. vm_compute. reflexivity. Qed.

(** C2.  One road from (0,0) to (100,0), clearance 6, vehicle A at (10,0)
    with maximum speed 10 in front of vehicle B at (4,0) with maximum speed
    20: whatever the random draws, after one tick A is at (20,0) and B at
    (14,0). *)
Theorem C2_two_cars_one_tick p ida ca idb cb n tape :
  exists w',
    MapManager.tick
      (single_road_world p [Car.mk ida ca 10 (10, 0); Car.mk idb cb 20 (4, 0)]
                         [0%nat; 1%nat] n tape)
    = Ok (tt, w')
    /\ car_position w' 0 = Some (20, 0)
    /\ car_position w' 1 = Some (14, 0).
Proof.
  destruct (tick_after_move _ _ (two_cars_move p ida ca idb cb n tape))
    as (w' & Htick & Hkeep).
  { by apply (single_road_gates_ok _ _ _ 1%nat); [|cbn; lia]. }
  exists w'. split; [done|]. split; by apply Hkeep.
Qed.

(** C1 as stated fails.  In the world of C2 the front vehicle A is at
    (10,0) when the snapshot is taken and at (20,0) once it has moved.  From
    the position in the snapshot B would be permitted no movement; the code
    reads the advanced position, permits B a movement of 10 and puts B at
    (14,0). *)
Lemma C1_snapshot_position_counterexample :
  let cars := [Car.mk 1 (0, 0, 0)%Z 10 (10, 0); Car.mk 2 (0, 0, 0)%Z 20 (4, 0)] in
  let w0 := single_road_world 1 cars [0%nat; 1%nat] 3 [] in
  let road := single_road 1 [0%nat; 1%nat] in
  exists w1 w2,
    car_position w0 0 = Some (10, 0)
    /\ MapManager.free_speed w0 road 1 (Some 0%nat) = Ok 0
    /\ MapManager.move_car 0 None 0 w0 = Ok (tt, w1)
    /\ car_position w1 0 = Some (20, 0)
    /\ MapManager.free_speed w1 road 1 (Some 0%nat) = Ok 10
    /\ 10 <> 0
    /\ MapManager.move_road 0 w0 = Ok (tt, w2)
    /\ car_position w2 1 = Some (14, 0).
Proof.
  cbv zeta.
  exists (single_road_world 1 [Car.mk 1 (0, 0, 0)%Z 10 (20, 0); Car.mk 2 (0, 0, 0)%Z 20 (4, 0)]
                            [0%nat; 1%nat] 3 []),
         (single_road_world 1 [Car.mk 1 (0, 0, 0)%Z 10 (20, 0); Car.mk 2 (0, 0, 0)%Z 20 (14, 0)]
                            [0%nat; 1%nat] 3 []).
  split; [reflexivity|].
  split; [vm_compute; reflexivity|].
  split; [vm_compute; reflexivity|].
  split; [reflexivity|].
  split; [vm_compute; reflexivity|].
  split; [intros Heq; apply (f_equal (fun x => Vec.eqb x 0)) in Heq; by vm_compute in Heq|].
  split; [vm_compute; reflexivity|].
  reflexivity.
Qed.

Lemma C1_front_position_witness :
  let cars := [Car.mk 1 (0, 0, 0)%Z 10 (10, 0); Car.mk 2 (0, 0, 0)%Z 20 (4, 0)] in
  let w0 := single_road_world 1 cars [0%nat; 1%nat] 3 [] in
  let w1 := single_road_world 1 [Car.mk 1 (0, 0, 0)%Z 10 (20, 0); Car.mk 2 (0, 0, 0)%Z 20 (4, 0)]
                              [0%nat; 1%nat] 3 [] in
  let road := single_road 1 [0%nat; 1%nat] in
  MapManager.free_speed w1 road 1 (Some 0%nat)
  = Ok (MapManager._max_speed w1 (Car.mk 2 (0, 0, 0)%Z 20 (4, 0))
          (Some (Car.mk 1 (0, 0, 0)%Z 10 (20, 0))) road).
Proof.
  cbv zeta.
  apply (C1_front_position_is_live
           (single_road_world 1 [Car.mk 1 (0, 0, 0)%Z 10 (10, 0); Car.mk 2 (0, 0, 0)%Z 20 (4, 0)]
                              [0%nat; 1%nat] 3 [])
           0%nat (single_road 1 [0%nat; 1%nat]) None 0%nat 1%nat
           (Car.mk 1 (0, 0, 0)%Z 10 (10, 0)) (Car.mk 2 (0, 0, 0)%Z 20 (4, 0))
           (false, (20, 0))).
  - reflexivity.
  - reflexivity.
  - reflexivity.
  - lia.
  - vm_compute. reflexivity.
  - vm_compute. reflexivity.
Defined.

(** *** A car that is denied admission *)

Lemma car_target_denied w road c car prev speed ih i :
  get_car w c = Ok car ->
  MapManager.free_speed w road c prev = Ok speed ->
  Vec.leb (Road.distance_to_endnode road
             (Vec.add (Car.position car) (Vec.scale_r (Road.direction road) speed)))
          (min_clearance w) = true ->
  Road.connected_intersection road = Some ih ->
  get_intersection w ih = Ok i ->
  can_approach w i c = Ok false ->
  MapManager.car_target w road c prev = Ok (true, Road.stop_line road).
Proof.
  intros Hcar Hspeed Hdist Hconn Hi Hdenied. unfold MapManager.car_target.
  rewrite Hcar. cbn [result_bind]. rewrite Hspeed. cbn [result_bind].
  rewrite Hdist. rewrite Hconn. cbn [MapManager.deref_intersection].
  rewrite Hi. cbn [result_bind]. rewrite Hdenied. reflexivity.
Qed.

Lemma move_car_denied w road_h road c car prev speed ih i :
  get_road w road_h = Ok road ->
  get_car w c = Ok car ->
  MapManager.free_speed w road c prev = Ok speed ->
  Vec.leb (Road.distance_to_endnode road
             (Vec.add (Car.position car) (Vec.scale_r (Road.direction road) speed)))
          (min_clearance w) = true ->
  Road.connected_intersection road = Some ih ->
  get_intersection w ih = Ok i ->
  can_approach w i c = Ok false ->
  MapManager.move_car road_h prev c w
  = Ok (tt, put_car w c (Car.move car (Road.stop_line road))).
Proof.
  intros Hroad Hcar Hspeed Hdist Hconn Hi Hdenied.
  rewrite (move_car_unfold _ _ _ _ _ _ _ Hroad Hcar
             (car_target_denied _ _ _ _ _ _ _ _ Hcar Hspeed Hdist Hconn Hi Hdenied)).
  reflexivity.
Qed.

(** The only vehicle of road 1 of the junction world moves freely, whatever
    it is: it advances by its permitted speed and leaves the road if that
    takes it to the exit. *)
Lemma blocker_moves p cl a b n tape :
  let pos :=
    Vec.add (Car.position b)
      (Vec.scale_r (1, 0)
         (Vec.min (Vec.norm (Vec.sub (200, 0) (Car.position b))) (Car.max_speed b))) in
  MapManager.move_road 1 (junction_world p cl [a; b] [0%nat] [1%nat] n tape)
  = Ok (tt, junction_world p cl [a; Car.move b pos] [0%nat]
              (if Vec.array_equal pos (200, 0) then [] else [1%nat]) n tape).
Proof.
  destruct b as [idb cb v [bx by_]]. vm_compute. float_cases; reflexivity.
Qed.

(** One tick of the junction world in which the vehicle [a], alone on road
    0, reaches the approach zone of the junction and is denied admission
    both before and after road 1 has been processed: whatever the random
    draws, [a] ends at the stop line of road 0. *)
Lemma junction_tick_denied p cl a b n tape speed :
  let w := junction_world p cl [a; b] [0%nat] [1%nat] n tape in
  let stop := Vec.sub (100, 0) (Vec.scale cl (1, 0)) in
  Vec.min (Vec.norm (Vec.sub (100, 0) (Car.position a))) (Car.max_speed a) = speed ->
  Vec.leb (Vec.norm (Vec.sub (Vec.add (Car.position a) (Vec.scale_r (1, 0) speed)) (100, 0)))
          cl = true ->
  can_approach w (junction cl) 0 = Ok false ->
  can_approach (after_road 1 w) (junction cl) 0 = Ok false ->
  exists w', MapManager.tick w = Ok (tt, w') /\ car_position w' 0 = Some stop.
Proof.
  intros w stop Hspeed Hzone Hbefore Hafter. subst w.
  unfold after_road in Hafter. rewrite blocker_moves in Hafter. cbv zeta in Hafter.
  set (pos := Vec.add (Car.position b)
                (Vec.scale_r (1, 0)
                   (Vec.min (Vec.norm (Vec.sub (200, 0) (Car.position b)))
                      (Car.max_speed b)))) in *.
  set (q1 := if Vec.array_equal pos (200, 0) then [] else [1%nat]) in *.
  assert (Hq1 : forall back, last q1 = Some back -> (back < 2)%nat).
  { subst q1. destruct (Vec.array_equal pos (200, 0)); intros back [= <-]. lia. }
  assert (Hmove : exists tape',
    MapManager.move_cars (junction_world p cl [a; b] [0%nat] [1%nat] n tape)
    = Ok (tt, junction_world p cl [Car.move a stop; Car.move b pos] [0%nat] q1 n tape')).
  { unfold MapManager.move_cars, sim_bind, sim_total.
    change (seq 0 (length (roads (junction_world p cl [a; b] [0%nat] [1%nat] n tape))))
      with [0%nat; 1%nat].
    destruct (shuffle_two (junction_world p cl [a; b] [0%nat] [1%nat] n tape))
      as [tape' [-> | ->]]; exists tape'.
    - change (set_random_tape (junction_world p cl [a; b] [0%nat] [1%nat] n tape) tape')
        with (junction_world p cl [a; b] [0%nat] [1%nat] n tape').
      cbn [sim_for_each]. unfold sim_bind at 1.
      unfold MapManager.move_road at 1. unfold sim_bind at 1. unfold sim_read at 1.
      change (get_road (junction_world p cl [a; b] [0%nat] [1%nat] n tape') 0)
        with (Ok (nth 0 (junction_roads p cl [0%nat] [1%nat]) (single_road p []))).
      cbn [nth junction_roads Road.cars MapManager.move_snapshot]. unfold sim_bind at 1.
      erewrite (move_car_denied _ 0%nat _ 0%nat a None speed 1%nat (junction cl));
        [|reflexivity|reflexivity| | |reflexivity|reflexivity|exact Hbefore].
      + unfold sim_ret at 1. unfold sim_bind at 1.
        change (put_car _ _ _)
          with (junction_world p cl [Car.move a stop; b] [0%nat] [1%nat] n tape').
        rewrite blocker_moves. reflexivity.
      + unfold MapManager.free_speed. cbn [get_car handle_lookup result_bind
          MapManager.front_car]. by rewrite <- Hspeed.
      + exact Hzone.
    - change (set_random_tape (junction_world p cl [a; b] [0%nat] [1%nat] n tape) tape')
        with (junction_world p cl [a; b] [0%nat] [1%nat] n tape').
      cbn [sim_for_each]. unfold sim_bind at 1. rewrite blocker_moves. cbv zeta.
      fold pos. fold q1. unfold sim_bind at 1.
      unfold MapManager.move_road at 1. unfold sim_bind at 1. unfold sim_read at 1.
      change (get_road (junction_world p cl [a; Car.move b pos] [0%nat] q1 n tape') 0)
        with (Ok (nth 0 (junction_roads p cl [0%nat] q1) (single_road p []))).
      cbn [nth junction_roads Road.cars MapManager.move_snapshot]. unfold sim_bind at 1.
      erewrite (move_car_denied _ 0%nat _ 0%nat a None speed 1%nat (junction cl));
        [|reflexivity|reflexivity| | |reflexivity|reflexivity|exact Hafter].
      + reflexivity.
      + unfold MapManager.free_speed. cbn [get_car handle_lookup result_bind
          MapManager.front_car]. by rewrite <- Hspeed.
      + exact Hzone. }
  destruct Hmove as [tape' Hmove].
  destruct (tick_after_move _ _ Hmove) as (w' & Htick & Hkeep).
  { apply junction_gates_ok; [intros back [= <-]; cbn; lia | exact Hq1]. }
  exists w'. split; [done|]. by apply Hkeep.
Qed.

(** What [MapManager] has built on the network of two roads, seen from a
    vehicle put on road 0 and another put on road 1 *)
Lemma junction_world_placed p cl n tape a b :
  place_car 1 b (place_car 0 a (junction_world p cl [] [] [] n tape))
  = junction_world p cl [a; b] [0%nat] [1%nat] n tape.
Proof. reflexivity. Qed.

(** C5.  [MapManager] builds the roads (0,0) -> (100,0) -> (200,0) with
    clearance 6, so road 0 ends at (100,0) and its stop line, computed by
    [Road.__init__], is (94,0).  A vehicle with maximum speed 10 is put on
    road 0 at (90,0) and any vehicle [b] on road 1.  If the intersection at
    the end of road 0 denies the vehicle admission, in the state at the
    start of the tick and in the state after road 1 has been processed (the
    roads are shuffled, so it may be asked in either), then after one tick,
    whatever the random draws, the vehicle is at the stop line (94,0). *)
Theorem C5_denied_car_stops_at_stop_line p n tape w0 road i ida ca b :
  MapManager.init junction_network [(0, 0)%Z] [(200, 0)%Z] p 6 n tape = Ok w0 ->
  get_road w0 0 = Ok road ->
  MapManager.deref_intersection w0 (Road.connected_intersection road) = Ok i ->
  let w := place_car 1 b (place_car 0 (Car.mk ida ca 10 (90, 0)) w0) in
  can_approach w i 0 = Ok false ->
  can_approach (after_road 1 w) i 0 = Ok false ->
  Road.endnode road = (100, 0)
  /\ Road.clearance road = 6
  /\ Road.stop_line road = (94, 0)
  /\ car_position w 0 = Some (90, 0)
  /\ exists w', MapManager.tick w = Ok (tt, w')
                /\ car_position w' 0 = Some (Road.stop_line road).
Proof.
  intros Hinit Hroad Hi w Hbefore Hafter. subst w.
  apply junction_world_init in Hinit as [-> _].
  vm_compute in Hroad. injection Hroad as <-.
  vm_compute in Hi. injection Hi as <-.
  rewrite junction_world_placed in *.
  split; [reflexivity|]. split; [reflexivity|]. split; [reflexivity|].
  split; [reflexivity|].
  apply (junction_tick_denied p 6 (Car.mk ida ca 10 (90, 0)) b n tape 10);
    [reflexivity | reflexivity | exact Hbefore | exact Hafter].
Qed.

Lemma C5_denied_car_witness :
  exists w',
    MapManager.tick
      (junction_world 1 6 [Car.mk 1 (0, 0, 0)%Z 10 (90, 0); Car.mk 2 (0, 0, 0)%Z 1 (103, 0)]
                      [0%nat] [1%nat] 3 [])
    = Ok (tt, w')
    /\ car_position w' 0 = Some (94, 0).
Proof.
  apply (C5_denied_car_stops_at_stop_line 1 3%nat [] (junction_world 1 6 [] [] [] 3 [])
           (nth 0 (junction_roads 1 6 [] []) (single_road 1 [])) (junction 6)
           1%nat (0, 0, 0)%Z (Car.mk 2 (0, 0, 0)%Z 1 (103, 0))).
  - vm_compute. reflexivity.
  - reflexivity.
  - reflexivity.
  - vm_compute. reflexivity.
  - vm_compute. reflexivity.
Defined.

(** *** A car left waiting at the end node *)




(** * Further properties of the tick engine *)

(** ** [Road.__init__] *)

Lemma ltb_of_not_leb a b :
  Vec.eqb a a = true -> Vec.eqb b b = true -> Vec.leb a b = false -> Vec.ltb b a = true.
Proof.
  intros Ha Hb Hle. destruct (fcmp_number a b Ha Hb) as [c Hc].
  apply ltb_fcmp. rewrite (fcmp_antisym a b), Hc.
  destruct c; cbn; [| |done].
  - assert (Vec.leb a b = true) by (apply leb_fcmp; by right). congruence.
  - assert (Vec.leb a b = true) by (apply leb_fcmp; by left). congruence.
Qed.

Lemma eqb_leb_l a b c : Vec.eqb a b = true -> Vec.leb a c = Vec.leb b c.
Proof.
  rewrite eqb_fcmp. intros Hab. unfold Vec.leb. rewrite !leb_spec. unfold SFleb.
  by rewrite (SFcompare_eq_l _ _ _ Hab).
Qed.

(** X10.  With a clearance that is a number, [Road.__init__] never reaches
    its last check: a road shorter than the clearance, a null road among
    them, is rejected by the length check before it, so the constructor
    raises for the probability, for the clearance or for the length, or
    builds the road.  The road it builds has a positive clearance, is not
    shorter than or as long as the clearance, holds no vehicle, is connected
    to no intersection, and has its stop line at
    [endnode - clearance * direction]. *)
Theorem road_init_spec segment direction clearance probability entry exit :
  Vec.eqb clearance clearance = true ->
  Road.init segment direction clearance probability entry exit <> Raise NullSegmentError
  /\ forall road,
       Road.init segment direction clearance probability entry exit = Ok road ->
       Vec.ltb probability 0 = false /\ Vec.ltb 1 probability = false
       /\ Vec.ltb 0 clearance = true
       /\ Vec.leb (Vec.norm (Vec.sub (snd segment) (fst segment))) clearance = false
       /\ Road.stop_line road
          = Vec.sub (Road.endnode road) (Vec.scale (Road.clearance road) (Road.direction road))
       /\ Road.cars road = [] /\ Road.connected_intersection road = None
       /\ (Road.startnode road, Road.endnode road) = segment
       /\ Road.clearance road = clearance.
Proof.
  intros Hnum. unfold Road.init.
  destruct (Vec.ltb probability 0) eqn:Hp0; [by split|].
  destruct (Vec.ltb 1 probability) eqn:Hp1; [by split|]. cbn [orb].
  destruct (Vec.leb clearance 0) eqn:Hc0; [by split|].
  destruct (Vec.leb _ clearance) eqn:Hlen; [by split|].
  assert (Hpos : Vec.ltb 0 clearance = true) by by apply ltb_of_not_leb.
  destruct (Vec.eqb _ 0) eqn:Hnull.
  - rewrite (eqb_leb_l _ _ _ Hnull) in Hlen.
    rewrite (ltb_leb _ _ Hpos) in Hlen. done.
  - split; [done|]. intros road [= <-]. cbn. destruct segment. done.
Qed.

Lemma road_init_witness :
  Road.init ((0, 0), (100, 0)) (1, 0) 6 1 true false <> Raise NullSegmentError.
Proof.
  apply (proj1 (road_init_spec ((0, 0), (100, 0)) (1, 0) 6 1 true false eq_refl)).
Defined.

(** With a clearance that is not a number the last check is reached: every
    comparison with NaN fails, so a null road passes the two checks before
    it. *)
Lemma road_init_nan_clearance :
  Road.init ((0, 0), (0, 0)) (1, 0) nan 1 false false = Raise NullSegmentError
  /\ exists road, Road.init ((0, 0), (100, 0)) (1, 0) nan 1 false false = Ok road.
Proof. split; [reflexivity|]. eexists. reflexivity. Qed.

(** ** Priority among the incoming roads *)

Lemma ltb_asym a b : Vec.ltb a b = true -> Vec.ltb b a = false.
Proof.
  intros Hab. apply not_true_is_false. intros Hba.
  pose proof (ltb_trans _ _ _ Hab Hba) as Haa. by rewrite ltb_irrefl in Haa.
Qed.

Section Priority.
Context (w : World) (i : Intersection.t).

Local Abbreviation dist := (Intersection.distance_to_car i).

(** The search over the outgoing roads succeeds, and the car it returns is
    a car of the heap. *)
Lemma closest_outgoing_loop_ok rs acc :
  (forall r, r ∈ rs -> exists road, roads w !! r = Some road
     /\ forall h, last (Road.cars road) = Some h -> is_Some (car_heap w !! h)) ->
  (forall h d, acc = Some (h, d) -> is_Some (car_heap w !! h)) ->
  exists acc', closest_outgoing_loop w i rs acc = Ok acc'
               /\ forall h d, acc' = Some (h, d) -> is_Some (car_heap w !! h).
Proof.
  revert acc. induction rs as [|r rs IH]; intros acc Hok Hacc; [by exists acc|].
  cbn [closest_outgoing_loop].
  destruct (Hok r) as (road & Hroad & Hlast); [apply list_elem_of_here|].
  unfold get_road, handle_lookup. rewrite Hroad. cbn [result_bind].
  assert (Hok' : forall r', r' ∈ rs -> exists road', roads w !! r' = Some road'
            /\ forall h, last (Road.cars road') = Some h -> is_Some (car_heap w !! h)).
  { intros r' Hr'. apply Hok. by apply list_elem_of_further. }
  destruct (last (Road.cars road)) as [back|] eqn:Hback; [|by apply IH].
  destruct (Hlast back) as [c Hc]; [done|].
  unfold get_car, handle_lookup. rewrite Hc. cbn [result_bind].
  assert (Hnew : forall h d, Some (back, dist c) = Some (h, d) -> is_Some (car_heap w !! h)).
  { intros h d [= <- <-]. by exists c. }
  destruct acc as [[h0 m]|]; [|by apply IH].
  destruct (Vec.ltb (dist c) m); by apply IH.
Qed.

(** The search over the incoming roads ends on the car it started with or
    on a car that is strictly closer, and no first vehicle is strictly
    closer than the car it ends on. *)
Lemma closest_incoming_loop_spec rs h d :
  (forall r, r ∈ rs -> exists road, roads w !! r = Some road
     /\ forall f, head (Road.cars road) = Some f -> is_Some (car_heap w !! f)) ->
  exists h' d',
    closest_incoming_loop w i rs h d = Ok h'
    /\ ((h' = h /\ d' = d)
        \/ (Vec.ltb d' d = true /\ exists c', car_heap w !! h' = Some c' /\ d' = dist c'))
    /\ forall r road f c, r ∈ rs -> roads w !! r = Some road ->
         head (Road.cars road) = Some f -> car_heap w !! f = Some c ->
         Vec.ltb (dist c) d' = false.
Proof.
  revert h d. induction rs as [|r rs IH]; intros h d Hok.
  - exists h, d. split; [done|]. split; [by left|].
    intros r road f c Hr. by apply elem_of_nil in Hr.
  - cbn [closest_incoming_loop].
    destruct (Hok r) as (road & Hroad & Hhead); [apply list_elem_of_here|].
    unfold get_road, handle_lookup. rewrite Hroad. cbn [result_bind].
    assert (Hok' : forall r', r' ∈ rs -> exists road', roads w !! r' = Some road'
              /\ forall f, head (Road.cars road') = Some f -> is_Some (car_heap w !! f)).
    { intros r' Hr'. apply Hok. by apply list_elem_of_further. }
    destruct (Road.cars road) as [|first queue] eqn:Hq.
    + destruct (IH h d Hok') as (h' & d' & Hrun & Hres & Hmin).
      exists h', d'. split; [done|]. split; [done|].
      intros r' road' f c [->|Hr']%elem_of_cons Hroad' Hf Hc.
      * assert (road' = road) as -> by congruence. by rewrite Hq in Hf.
      * by eapply Hmin.
    + destruct (Hhead first) as [c Hc]; [done|].
      unfold get_car, handle_lookup. rewrite Hc. cbn [result_bind].
      destruct (Vec.ltb (dist c) d) eqn:Hlt.
      * destruct (IH first (dist c) Hok') as (h' & d' & Hrun & Hres & Hmin).
        exists h', d'. split; [done|]. split.
        -- right. destruct Hres as [[-> ->]|[Hlt' Hcar]].
           ++ split; [done|]. by exists c.
           ++ split; [by eapply ltb_trans|done].
        -- intros r' road' f c0 [->|Hr']%elem_of_cons Hroad' Hf Hc0.
           ++ assert (road' = road) as -> by congruence. rewrite Hq in Hf.
              injection Hf as <-. assert (c0 = c) as -> by congruence.
              destruct Hres as [[_ ->]|[Hlt' _]]; [apply ltb_irrefl | by apply ltb_asym].
           ++ by eapply Hmin.
      * destruct (IH h d Hok') as (h' & d' & Hrun & Hres & Hmin).
        exists h', d'. split; [done|]. split; [done|].
        intros r' road' f c0 [->|Hr']%elem_of_cons Hroad' Hf Hc0.
        -- assert (road' = road) as -> by congruence. rewrite Hq in Hf.
           injection Hf as <-. assert (c0 = c) as -> by congruence.
           destruct Hres as [[_ ->]|[Hlt' _]]; [done|].
           apply not_true_is_false. intros Hcd.
           by rewrite (ltb_trans _ _ _ Hcd Hlt') in Hlt.
        -- by eapply Hmin.
Qed.

End Priority.

(** X11.  A vehicle yields to a closer one: if the first vehicle of some
    incoming road is strictly closer to the intersection than [v], then
    [can_approach] answers no for [v], whatever stands on the outgoing
    roads. *)
Theorem can_approach_yields_to_closer w i v vc c :
  intersection_ok w i ->
  car_heap w !! v = Some vc ->
  incoming_front w i c ->
  Vec.ltb (Intersection.distance_to_car i c) (Intersection.distance_to_car i vc) = true ->
  can_approach w i v = Ok false.
Proof.
  intros Hok Hv Hfront Hcloser. unfold can_approach, closest_outgoing_car.
  destruct (closest_outgoing_loop_ok w i (Intersection.outgoing_roads i) None)
    as (acc & -> & Hacc); [|done|].
  { intros r Hr. destruct (Hok r) as (road & Hroad & _ & Hlast).
    { apply elem_of_app. by right. }
    by exists road. }
  cbn [result_bind].
  assert (Hin : exists other, closest_incoming_car w i v = Ok other /\ other <> v).
  { unfold closest_incoming_car, get_car, handle_lookup. rewrite Hv. cbn [result_bind].
    destruct (closest_incoming_loop_spec w i (Intersection.incoming_roads i) v
                (Intersection.distance_to_car i vc)) as (h' & d' & Hrun & Hres & Hmin).
    { intros r Hr. destruct (Hok r) as (road & Hroad & Hhead & _).
      { apply elem_of_app. by left. }
      by exists road. }
    exists h'. split; [done|].
    destruct Hfront as (r & road & f & Hr & Hroad & Hf & Hc).
    specialize (Hmin r road f c Hr Hroad Hf Hc).
    destruct Hres as [[_ ->]|[Hlt (c' & Hc' & ->)]]; [congruence|].
    intros ->. assert (c' = vc) as -> by congruence. by rewrite ltb_irrefl in Hlt. }
  destruct Hin as (other & Hin & Hne).
  assert (Hlast : (do closest <- closest_incoming_car w i v;
                   if negb (v =? closest)%nat then Ok false else Ok true)%result
                  = Ok false).
  { rewrite Hin. cbn [result_bind].
    destruct (Nat.eqb_spec v other) as [->|_]; [done|reflexivity]. }
  destruct acc as [[h d]|]; cbn [option_map fst].
  - destruct (Hacc h d eq_refl) as [hc Hhc].
    unfold get_car at 1. unfold handle_lookup. rewrite Hhc. cbn [result_bind].
    destruct (Vec.ltb (Intersection.distance_to_car i hc) _); [done|exact Hlast].
  - cbn [result_bind]. exact Hlast.
Qed.

Lemma can_approach_yields_witness :
  can_approach (crossing_world 150) crossing 4 = Ok false.
Proof.
  apply (can_approach_yields_to_closer (crossing_world 150) crossing 4%nat
           (Car.mk 4 (0, 0, 0)%Z 1 (100, 30)) (Car.mk 0 (0, 0, 0)%Z 1 (80, 0))).
  - apply crossing_ok.
  - reflexivity.
  - exists 0%nat, (crossing_road (0, 0) (100, 0) (1, 0) [0%nat; 1%nat]), 0%nat.
    split; [apply list_elem_of_here|]. by split; [|split].
  - reflexivity.
Defined.

(** ** Choosing the road a vehicle is transferred to *)

Lemma available_roads_spec w i rs :
  (forall r, r ∈ rs -> exists road, roads w !! r = Some road
     /\ forall h, last (Road.cars road) = Some h -> is_Some (car_heap w !! h)) ->
  exists l, available_roads w i rs = Ok l
            /\ forall r, r ∈ l <-> r ∈ rs /\ exists road, roads w !! r = Some road
                                                     /\ has_room w i road.
Proof.
  induction rs as [|r rs IH]; intros Hok.
  - exists []. split; [done|]. intros r. split; [by intros ?%elem_of_nil|].
    by intros [?%elem_of_nil _].
  - cbn [available_roads].
    destruct (Hok r) as (road & Hroad & Hlast); [apply list_elem_of_here|].
    unfold get_road, handle_lookup. rewrite Hroad. cbn [result_bind].
    destruct IH as (l & -> & Hl).
    { intros r' Hr'. apply Hok. by apply list_elem_of_further. }
    assert (Hhere : exists here : bool,
               match last (Road.cars road) with
               | Some back =>
                   (do c <- get_car w back;
                    Ok (Vec.leb (Intersection.min_clearance i * 2)
                          (Vec.norm (Vec.sub (Car.position c) (Intersection.position i)))))%result
               | None => Ok true
               end = Ok here
               /\ (here = true <-> has_room w i road)).
    { unfold has_room. destruct (last (Road.cars road)) as [back|]; [|by exists true].
      destruct (Hlast back) as [c Hc]; [done|].
      unfold get_car, handle_lookup. rewrite Hc. cbn [result_bind].
      eexists. split; [reflexivity|]. split.
      - intros Hroom. by exists c.
      - intros (c' & Hc' & Hroom). congruence. }
    destruct Hhere as (here & -> & Hhere). cbn [result_bind].
    eexists. split; [reflexivity|]. intros r'.
    destruct here.
    + rewrite !elem_of_cons, Hl. split.
      * intros [->|[Hr' Hroom]]; [|by split; [right|]].
        split; [by left|]. exists road. split; [done|]. by apply Hhere.
      * intros [[->|Hr'] Hroom]; [by left | by right].
    + rewrite elem_of_cons, Hl. split.
      * intros [Hr' Hroom]. by split; [right|].
      * intros [[->|Hr'] Hroom]; [|done].
        destruct Hroom as (road' & Hroad' & Hroom).
        assert (road' = road) as -> by congruence.
        apply Hhere in Hroom. done.
Qed.

Lemma choice_elem {A} (l : list A) w x w' : Random.choice l w = Ok (x, w') -> x ∈ l.
Proof.
  unfold Random.choice. destruct (Random.randbelow (length l) w) as [j w1].
  destruct (l !! j) as [y|] eqn:Hj; [|done]. intros [= <- <-].
  by eapply list_elem_of_lookup_2.
Qed.

Lemma choice_ok {A} (l : list A) w :
  l <> [] -> exists x w', Random.choice l w = Ok (x, w').
Proof.
  intros Hne. unfold Random.choice, Random.randbelow.
  destruct (Random.next_draw w) as [x w1].
  destruct (lookup_lt_is_Some_2 l (x mod length l)%nat) as [y Hy].
  { apply Nat.mod_upper_bound. by destruct l. }
  rewrite Hy. by eexists _, _.
Qed.

(** X12.  [find_available_road] never fails on an intersection whose
    outgoing roads exist and whose queues end in cars; it only consumes
    random draws; the road it returns is an outgoing road with room (empty,
    or with its last vehicle at least twice the clearance away), and it
    returns none only when no outgoing road has room. *)
Theorem find_available_road_spec w i :
  (forall r, r ∈ Intersection.outgoing_roads i -> exists road, roads w !! r = Some road
     /\ forall h, last (Road.cars road) = Some h -> is_Some (car_heap w !! h)) ->
  exists o w',
    find_available_road i w = Ok (o, w')
    /\ (exists tape, w' = set_random_tape w tape)
    /\ match o with
       | Some r =>
           r ∈ Intersection.outgoing_roads i
           /\ exists road, roads w !! r = Some road /\ has_room w i road
       | None =>
           forall r road, r ∈ Intersection.outgoing_roads i -> roads w !! r = Some road ->
                          ~ has_room w i road
       end.
Proof.
  intros Hok. destruct (available_roads_spec w i _ Hok) as (l & Hl & Hspec).
  unfold find_available_road, sim_bind, sim_read, sim_ret. rewrite Hl.
  destruct l as [|r0 l].
  - exists None, w. split; [done|]. split.
    + exists (random_tape w). by destruct w.
    + intros r road Hr Hroad Hroom.
      assert (r ∈ []) as Hin; [|by apply elem_of_nil in Hin].
      apply Hspec. split; [done|]. by exists road.
  - destruct (choice_ok (r0 :: l) w) as (r & w' & Hchoice); [done|].
    rewrite Hchoice. exists (Some r), w'. split; [done|]. split.
    + by eapply choice_tape.
    + apply choice_elem in Hchoice. by apply Hspec in Hchoice.
Qed.

Lemma find_available_road_witness :
  exists o w', find_available_road crossing (crossing_world 106) = Ok (o, w').
Proof.
  destruct (find_available_road_spec (crossing_world 106) crossing) as (o & w' & Hrun & _).
  - intros r Hr. crossing_cases; eexists; (split; [reflexivity|]);
      intros h Hh; crossing_cases; by eexists.
  - by exists o, w'.
Defined.

(** ** Spawning *)

Lemma road_gate_insert (rs : list Road.t) r road car_h :
  rs !! r = Some road ->
  road_gate <$> (<[r := Road.add_car road car_h]> rs) = road_gate <$> rs.
Proof.
  intros Hr. rewrite list_fmap_insert.
  apply list_insert_id. by rewrite list_lookup_fmap, Hr.
Qed.

Lemma generate_car_from_gate_spawns entries road_h w :
  gates_ok entries w -> (road_h < length (roads w))%nat ->
  exists w' new,
    MapManager.generate_car_from_gate road_h w = Ok (tt, w')
    /\ car_heap w' = car_heap w ++ new
    /\ gates_ok entries w'
    /\ road_gate <$> (roads w') = road_gate <$> (roads w)
    /\ Forall (fun car => exists road, roads w !! road_h = Some road
                            /\ Road.has_entry road = true
                            /\ Car.position car = Road.startnode road) new.
Proof.
  intros [Hentries Hlast] Hlt.
  destruct (lookup_lt_is_Some_2 _ _ Hlt) as [road Hroad].
  unfold MapManager.generate_car_from_gate, sim_bind, sim_read, sim_ret, sim_write.
  unfold get_road at 1. unfold handle_lookup. rewrite Hroad.
  assert (exists free : bool,
             (if Road.has_entry road then
                match last (Road.cars road) with
                | Some back =>
                    (do c <- get_car w back;
                     Ok (Vec.leb (Road.clearance road)
                           (Vec.norm (Vec.sub (Car.position c) (Road.startnode road)))))%result
                | None => Ok true
                end
              else Ok false) = Ok free
             /\ (free = true -> Road.has_entry road = true)) as (free & -> & Hfree).
  { destruct (Road.has_entry road); [|by eexists].
    destruct (last (Road.cars road)) as [back|] eqn:Hback; [|by eexists].
    destruct (lookup_lt_is_Some_2 _ _ (Hlast _ _ _ Hroad Hback)) as [c Hc].
    unfold get_car, handle_lookup. rewrite Hc. by eexists. }
  destruct free.
  - unfold sim_total. destruct (Random.random w) as [u w1] eqn:Hu.
    apply random_tape_only in Hu as [t1 ->].
    destruct (Vec.leb u (Road.spawn_probability road)).
    + destruct (new_car_extends (Road.startnode road) (set_random_tape w t1))
        as (car & t2 & -> & Hpos).
      unfold get_road, handle_lookup. cbn [roads set_random_tape car_heap].
      rewrite Hroad. eexists _, [car]. split; [reflexivity|].
      split; [reflexivity|]. split; [|split].
      * split.
        -- intros r Hr. cbn. rewrite length_insert. by apply Hentries.
        -- intros r road' back. cbn. rewrite length_app. cbn.
           destruct (decide (r = road_h)) as [->|Hne].
           ++ rewrite list_lookup_insert_eq by done. intros [= <-].
              unfold Road.add_car. cbn. rewrite last_snoc. intros [= <-]. lia.
           ++ rewrite list_lookup_insert_ne by done. intros Hr Hb.
              specialize (Hlast _ _ _ Hr Hb). lia.
      * cbn. by apply road_gate_insert.
      * apply Forall_singleton. exists road. split; [done|]. split; [by apply Hfree|done].
    + eexists _, []. split; [reflexivity|]. split; [by rewrite app_nil_r|].
      split; [by split|]. split; [done|]. apply Forall_nil_2.
  - eexists _, []. split; [reflexivity|]. split; [by rewrite app_nil_r|].
    split; [by split|]. split; [done|]. apply Forall_nil_2.
Qed.

Lemma generate_cars_loop_spawns entries l w :
  gates_ok entries w -> l ⊆ entries ->
  exists w' new,
    sim_for_each l MapManager.generate_car_from_gate w = Ok (tt, w')
    /\ car_heap w' = car_heap w ++ new
    /\ Forall (fun car => exists r road, r ∈ l /\ roads w !! r = Some road
                            /\ Road.has_entry road = true
                            /\ Car.position car = Road.startnode road) new.
Proof.
  revert w. induction l as [|road_h l IH]; intros w Hok Hsub.
  - exists w, []. split; [reflexivity|]. split; [by rewrite app_nil_r|apply Forall_nil_2].
  - cbn [sim_for_each]. unfold sim_bind.
    destruct (generate_car_from_gate_spawns entries road_h w Hok)
      as (w1 & new1 & -> & Hheap1 & Hok1 & Hgates & Hnew1).
    { apply Hok, Hsub, list_elem_of_here. }
    destruct (IH w1 Hok1) as (w2 & new2 & -> & Hheap2 & Hnew2).
    { intros r Hr. apply Hsub. by apply list_elem_of_further. }
    exists w2, (new1 ++ new2). split; [reflexivity|]. split.
    { by rewrite Hheap2, Hheap1, app_assoc. }
    apply Forall_app. split.
    + eapply Forall_impl; [exact Hnew1|]. intros car (road & Hroad & Hentry & Hpos).
      exists road_h, road. split; [apply list_elem_of_here|done].
    + eapply Forall_impl; [exact Hnew2|]. intros car (r & road1 & Hr & Hroad1 & Hentry & Hpos).
      assert (road_gate <$> roads w1 !! r = road_gate <$> roads w !! r) as Hsame.
      { rewrite <- !list_lookup_fmap. by rewrite Hgates. }
      rewrite Hroad1 in Hsame. destruct (roads w !! r) as [road|] eqn:Hroad; [|done].
      injection Hsame as Hstart Hhas.
      exists r, road. split; [by apply list_elem_of_further|].
      split; [done|]. split; congruence.
Qed.

(** X13.  On a state whose entry roads exist and whose queues end in cars,
    [generate_cars] never fails; it changes no vehicle that exists, and
    every vehicle it creates stands on the start node of a road that has an
    entry gate. *)
Theorem generate_cars_spawns w :
  gates_ok (entry_roads w) w ->
  exists w' new,
    MapManager.generate_cars w = Ok (tt, w')
    /\ car_heap w' = car_heap w ++ new
    /\ Forall (fun car => exists r road, r ∈ entry_roads w /\ roads w !! r = Some road
                            /\ Road.has_entry road = true
                            /\ Car.position car = Road.startnode road) new.
Proof.
  intros Hok. unfold MapManager.generate_cars, sim_bind, sim_read.
  by apply (generate_cars_loop_spawns (entry_roads w)).
Qed.

Lemma generate_cars_spawns_witness :
  exists w' new,
    MapManager.generate_cars (single_road_world 1 [] [] 0 []) = Ok (tt, w')
    /\ car_heap w' = new.
Proof.
  destruct (generate_cars_spawns (single_road_world 1 [] [] 0 [])) as (w' & new & Hrun & Hheap & _).
  - split.
    + intros r ->%list_elem_of_singleton. cbn. lia.
    + intros [|r] road back; cbn; [|done]. by intros [= <-].
  - by exists w', new.
Defined.

(** ** Moving never makes up a vehicle *)











(** * Further properties of the construction engine *)

Local Close Scope float_scope.

Lemma dict_keys_ensure {A} (d : Dict.t Node (list A)) node :
  Dict.keys (if Dict.mem d node then d else Dict.set d node [])
  = if Dict.mem d node then Dict.keys d else Dict.keys d ++ [node].
Proof.
  destruct (Dict.mem d node) eqn:Hmem; [done|].
  apply dict_mem_false in Hmem. rewrite dict_set_absent by done.
  unfold Dict.keys. by rewrite map_app.
Qed.

Lemma dict_mem_elem {A} (d : Dict.t Node A) node :
  Dict.mem d node = true <-> node ∈ Dict.keys d.
Proof.
  rewrite dict_mem_true. split.
  - intros Hget. destruct (decide (node ∈ Dict.keys d)) as [|Hnot]; [done|].
    by apply dict_get_None in Hnot.
  - intros Hin Hget. by apply dict_get_None in Hget.
Qed.

Lemma dict_mem_keys {A B} (d : Dict.t Node A) (d' : Dict.t Node B) node :
  Dict.keys d = Dict.keys d' -> Dict.mem d node = Dict.mem d' node.
Proof.
  intros Hkeys. apply eq_true_iff_eq. by rewrite !dict_mem_elem, Hkeys.
Qed.

Lemma ensure_keys node net :
  Dict.keys (outgoing net) = Dict.keys (incoming net) ->
  Dict.keys (outgoing (_ensure_node_in_network node net))
  = Dict.keys (incoming (_ensure_node_in_network node net))
  /\ (forall n, n ∈ Dict.keys (outgoing net) ->
                n ∈ Dict.keys (outgoing (_ensure_node_in_network node net)))
  /\ node ∈ Dict.keys (outgoing (_ensure_node_in_network node net)).
Proof.
  intros Hkeys. rewrite ensure_outgoing, ensure_incoming, !dict_keys_ensure.
  rewrite <- (dict_mem_keys _ _ node Hkeys), Hkeys.
  destruct (Dict.mem (outgoing net) node) eqn:Hmem.
  - split; [done|]. split; [by intros n|].
    apply dict_mem_elem in Hmem. by rewrite <- Hkeys.
  - split; [done|]. split.
    + intros n Hn. apply elem_of_app. by left.
    + apply elem_of_app. right. apply list_elem_of_singleton. done.
Qed.

Lemma ensure_builder_inv node net :
  builder_inv net -> builder_inv (_ensure_node_in_network node net).
Proof.
  intros [Hkeys Htargets Hdirs Hasym].
  destruct (ensure_keys node net Hkeys) as (Hkeys' & Hmono & _).
  split; [done| | |].
  - intros s e Hedge. unfold edge in *. rewrite ensure_segments in Hedge. eauto.
  - intros k l Hget. rewrite ensure_get_outgoing in Hget.
    destruct (Dict.get (outgoing net) k) as [l0|] eqn:Hk; simpl in Hget.
    + injection Hget as <-. eauto.
    + destruct (decide (k = node)); [|done]. injection Hget as <-. apply NoDup_nil_2.
  - intros a b. unfold edge. rewrite ensure_segments. apply Hasym.
Qed.

Lemma ensure_both_builder_inv segment net :
  builder_inv net -> builder_inv (ensure_both segment net).
Proof. intros Hinv. by do 2 apply ensure_builder_inv. Qed.

Lemma existsb_direction_false (l : list (Unit_Vector * Node)) d :
  existsb (fun edge => vec_eqb d (fst edge)) l = false -> d ∉ map fst l.
Proof.
  intros Hex Hin. apply list_elem_of_fmap in Hin as [[d' e] [-> Hin]].
  apply (existsb_direction l d' e) in Hin. simpl in *. congruence.
Qed.

Lemma dict_keys_set_key {A} (d : Dict.t Node A) k v n :
  n ∈ Dict.keys d -> n ∈ Dict.keys (Dict.set d k v).
Proof.
  intros Hn. destruct (Dict.get d k) eqn:Hget.
  - rewrite dict_keys_set_present; [done | congruence].
  - rewrite dict_set_absent by done. unfold Dict.keys. rewrite map_app.
    apply elem_of_app. by left.
Qed.

Lemma add_segment_ok_asymmetric segment net net' d :
  _add_segment segment net = (Ok tt, net') -> get_unit_vector segment = Ok d ->
  _ensure_asymmetric_road (ensure_both segment net) (fst segment) (snd segment) d = Ok tt.
Proof.
  destruct segment as [s e]. unfold _add_segment, ensure_both. intros Hadd Hd.
  rewrite Hd in Hadd. cbn [fst snd].
  destruct (_ensure_asymmetric_road _ s e d) as [[]|e0]; [done|].
  by injection Hadd.
Qed.

Lemma ensure_asymmetric_road_ok net s e d :
  _ensure_asymmetric_road net s e d = Ok tt ->
  exists ls le, Dict.get (outgoing net) s = Some ls /\ Dict.get (outgoing net) e = Some le
                /\ (d ∉ map fst ls) /\ ((- fst d, - snd d) ∉ map fst le).
Proof.
  unfold _ensure_asymmetric_road, Dict.getitem.
  destruct (Dict.get (outgoing net) s) as [ls|]; [|done]. simpl.
  destruct (existsb _ ls) eqn:Hs; [done|].
  destruct (Dict.get (outgoing net) e) as [le|]; [|done]. simpl.
  destruct (existsb _ le) eqn:He; [done|]. intros _.
  exists ls, le. repeat split; by apply existsb_direction_false.
Qed.

Lemma add_segment_builder_inv segment net r net' :
  _add_segment segment net = (r, net') -> network_inv net -> builder_inv net ->
  builder_inv net'.
Proof.
  intros Hadd Hninv Hinv. destruct r as [[]|e].
  - pose proof (ensure_both_builder_inv segment net Hinv) as [Hkeys Htargets Hdirs Hasy].
    pose proof (ensure_both_inv segment net Hninv) as Hninv'.
    pose proof (add_segment_segments _ _ _ Hadd) as Hsegs.
    pose proof Hadd as Hasym.
    destruct (add_segment_ok _ _ _ Hadd)
      as (d & l & li & Hd & Hl & Hli & Hout & Hin & _).
    split.
    + rewrite Hout, Hin, !dict_keys_set_present by congruence. done.
    + intros s e Hedge. unfold edge in Hedge. rewrite Hsegs in Hedge.
      rewrite Hout. apply dict_keys_set_key.
      apply elem_of_app in Hedge as [Hedge|Hedge].
      * apply (Htargets s). unfold edge. by rewrite ensure_both_segments.
      * apply list_elem_of_singleton in Hedge. subst segment. simpl in *.
        destruct (ensure_both_present (s, e) net) as [_ He].
        destruct (Dict.get (outgoing (ensure_both (s, e) net)) e) eqn:Hget; [|done].
        by eapply dict_get_Some_key.
    + intros k l' Hget. rewrite Hout in Hget.
      destruct (decide (fst segment = k)) as [<-|Hne].
      * rewrite dict_get_set_eq in Hget. injection Hget as <-.
        rewrite map_app. simpl. apply NoDup_app. split; [eauto|]. split.
        -- intros x Hx Hx'. apply list_elem_of_singleton in Hx' as ->. revert Hx.
           apply (add_segment_ok_asymmetric _ _ _ d) in Hasym; [|done].
           apply ensure_asymmetric_road_ok in Hasym as (ls & le & Hls & _ & Hnot & _).
           congruence.
        -- apply NoDup_singleton.
      * rewrite dict_get_set_ne in Hget by done. eauto.
    + apply (add_segment_ok_asymmetric _ _ _ d) in Hasym; [|done].
      apply ensure_asymmetric_road_ok in Hasym as (ls & le & Hls & Hle & _ & Hnot).
      assert (Hnew : ~ edge (ensure_both segment net) (snd segment) (fst segment)).
      { intros Hrev. apply (segment_present _ _ Hninv') in Hrev as (d' & l' & Hd' & Hl' & Hin').
        destruct segment as [s e]. cbn [fst snd] in *.
        apply get_unit_vector_reverse in Hd. rewrite Hd in Hd'. injection Hd' as <-.
        apply Hnot. apply list_elem_of_fmap. exists (- fst d, - snd d, s).
        split; [done|]. congruence. }
      assert (Hnull : fst segment <> snd segment).
      { destruct segment as [[x1 y1] [x2 y2]]. simpl. intros [= -> ->].
        unfold get_unit_vector in Hd. rewrite !Z.sub_diag in Hd. done. }
      intros a b. unfold edge in *. rewrite !Hsegs, !elem_of_app, !list_elem_of_singleton.
      rewrite <- !(ensure_both_segments segment net).
      intros [Hab|Hab] [Hba|Hba].
      * by apply (Hasy a b).
      * subst segment. by apply Hnew.
      * subst segment. by apply Hnew.
      * subst segment. cbn [fst snd] in *. injection Hba as Hba _. by symmetry in Hba.
  - destruct (add_segment_raise _ _ _ _ Hadd) as [[-> _]|[-> _]]; [done|].
    by apply ensure_both_builder_inv.
Qed.

Lemma empty_builder_inv : builder_inv empty_network.
Proof.
  split; [done| | |].
  - intros s e Hedge. by apply elem_of_nil in Hedge.
  - intros k l Hget. done.
  - intros a b Hedge. by apply elem_of_nil in Hedge.
Qed.

Lemma generate_roads_builder_inv segments net r net' :
  _generate_roads segments net = (r, net') -> network_inv net -> builder_inv net ->
  builder_inv net'.
Proof.
  revert net. induction segments as [|segment rest IH]; intros net; simpl.
  - by intros [= <- <-].
  - destruct (_add_segment segment net) as [[[]|e] net1] eqn:Hadd.
    + intros Hgen Hninv Hinv. eapply IH; [done| |].
      * by eapply add_segment_inv.
      * by eapply add_segment_builder_inv.
    + intros [= <- <-] Hninv Hinv. by eapply add_segment_builder_inv.
Qed.

Lemma generate_gates_builder_inv net : builder_inv net -> builder_inv (_generate_gates net).
Proof. intros [? ? ? ?]. by split. Qed.

(** The state the builder reaches on any list of segments, whether it
    stopped on an exception or not *)
Lemma built_inv segments :
  network_inv (snd (_generate_roads segments empty_network))
  /\ builder_inv (snd (_generate_roads segments empty_network)).
Proof.
  destruct (_generate_roads segments empty_network) as [r net] eqn:Hgen. simpl. split.
  - eapply generate_roads_inv; [done|]. apply empty_network_inv.
  - eapply generate_roads_builder_inv; [done| |].
    + apply empty_network_inv.
    + apply empty_builder_inv.
Qed.


Lemma generate_gates_inv net : network_inv net -> network_inv (_generate_gates net).
Proof. intros [? ? ? ?]. by split. Qed.



(** X1.  [get_unit_vector] rejects exactly the segments whose two nodes
    coincide (first) and the segments that change both coordinates; on
    every other segment it returns one of the four cardinal directions, and
    the end node lies at a positive whole number of steps from the start
    node in that direction. *)
Theorem get_unit_vector_spec s e :
  (get_unit_vector (s, e) = Raise NullSegmentError <-> s = e)
  /\ (get_unit_vector (s, e) = Raise DiagonalSegmentError
      <-> fst s <> fst e /\ snd s <> snd e)
  /\ (forall d, get_unit_vector (s, e) = Ok d ->
        d ∈ cardinal_directions
        /\ exists k, 0 < k /\ e = (fst s + k * fst d, snd s + k * snd d)).
Proof.
  destruct s as [x1 y1], e as [x2 y2]. unfold get_unit_vector. cbn [fst snd].
  destruct (Z.eqb_spec (x2 - x1) 0), (Z.eqb_spec (y2 - y1) 0),
    (Z.eqb_spec x1 x2), (Z.eqb_spec y1 y2); simpl; try lia.
  - split; [split; [intros _; f_equal; lia | done]|].
    split; [split; [done | lia]|]. done.
  - split; [split; [done | intros [= ? ?]; lia]|].
    split; [split; [done | lia]|].
    intros d [= <-]. replace (x2 - x1) with 0 by lia. cbn [Z.sgn fst snd].
    destruct (Z.sgn_spec (y2 - y1)) as [[? ->]|[[? ->]|[? ->]]]; [|lia|].
    + split; [by apply (bool_decide_unpack _)|].
      exists (y2 - y1). split; [lia|]. f_equal; lia.
    + split; [by apply (bool_decide_unpack _)|].
      exists (y1 - y2). split; [lia|]. f_equal; lia.
  - split; [split; [done | intros [= ? ?]; lia]|].
    split; [split; [done | lia]|].
    intros d [= <-]. replace (y2 - y1) with 0 by lia. cbn [Z.sgn fst snd].
    destruct (Z.sgn_spec (x2 - x1)) as [[? ->]|[[? ->]|[? ->]]]; [|lia|].
    + split; [by apply (bool_decide_unpack _)|].
      exists (x2 - x1). split; [lia|]. f_equal; lia.
    + split; [by apply (bool_decide_unpack _)|].
      exists (x1 - x2). split; [lia|]. f_equal; lia.
  - split; [split; [done | intros [= ? ?]; lia]|].
    split; [split; [done | done]|]. done.
Qed.

Lemma edge_get net a b :
  network_inv net -> edge net a b ->
  exists d l, get_unit_vector (a, b) = Ok d
              /\ Dict.get (outgoing net) a = Some l /\ (d, b) ∈ l.
Proof. intros Hinv Hedge. by apply (segment_present net (a, b)). Qed.

Lemma get_edge net a b d l :
  Dict.get (outgoing net) a = Some l -> (d, b) ∈ l -> edge net a b.
Proof.
  intros Hget Hin. unfold edge. rewrite convert_to_segments_eq.
  apply graph_segments_elem. exists l, d. split; [by apply dict_get_elem | done].
Qed.

Lemma NoDup_fst_functional {A B} (l : list (A * B)) x y1 y2 :
  NoDup (map fst l) -> (x, y1) ∈ l -> (x, y2) ∈ l -> y1 = y2.
Proof.
  induction l as [|[a b] l IH]; simpl; intros Hnd H1 H2.
  - by apply elem_of_nil in H1.
  - apply NoDup_cons in Hnd as [Ha Hnd].
    apply elem_of_cons in H1 as [H1|H1]; apply elem_of_cons in H2 as [H2|H2].
    + congruence.
    + injection H1 as -> ->. exfalso. apply Ha. apply list_elem_of_fmap. by exists (a, y2).
    + injection H2 as -> ->. exfalso. apply Ha. apply list_elem_of_fmap. by exists (a, y1).
    + by apply IH.
Qed.

Lemma NoDup_graph_segments (g : Graph) :
  Dict.wf g -> (forall k l, (k, l) ∈ g -> NoDup (map snd l)) -> NoDup (graph_segments g).
Proof.
  unfold Dict.wf, Dict.keys, graph_segments.
  induction g as [|[k l] g IH]; simpl; intros Hwf Hl; [apply NoDup_nil_2|].
  apply NoDup_cons in Hwf as [Hk Hwf]. apply NoDup_app. split; [|split].
  - change (NoDup ((pair k ∘ snd) <$> l)). rewrite list_fmap_compose.
    apply NoDup_fmap_2_strong; [by intros e1 e2 _ _ [= ?]|].
    apply (Hl k l), list_elem_of_here.
  - intros [s e] Hin Hin'. apply list_elem_of_fmap in Hin as [edge' [[= -> ->] _]].
    apply Hk. apply list_elem_of_In, in_flat_map in Hin' as [[k' l'] [Hg Hmap]].
    apply list_elem_of_In, list_elem_of_fmap in Hmap as [edge'' [[= -> _] _]].
    apply list_elem_of_fmap. exists (k', l'). split; [done | by apply list_elem_of_In].
  - apply IH; [done|]. intros k' l' Hin. apply (Hl k' l'). by apply list_elem_of_further.
Qed.

Lemma NoDup_targets net k l :
  network_inv net -> builder_inv net ->
  Dict.get (outgoing net) k = Some l -> NoDup (map snd l).
Proof.
  intros Hninv Hinv Hget. pose proof (binv_directions _ Hinv _ _ Hget) as Hnd.
  assert (Hlab : forall d e, (d, e) ∈ l -> get_unit_vector (k, e) = Ok d).
  { intros d e. by apply (inv_labels _ Hninv k l). }
  clear Hget. induction l as [|[d e] l IH]; simpl in *; [apply NoDup_nil_2|].
  apply NoDup_cons in Hnd as [Hd Hnd]. apply NoDup_cons. split.
  - intros Hin. apply list_elem_of_fmap in Hin as [[d' e'] [-> Hin]]. simpl in *.
    apply Hd. apply list_elem_of_fmap. exists (d', e'). split; [|done]. simpl.
    pose proof (Hlab d e' (list_elem_of_here _ _)) as H1.
    pose proof (Hlab d' e' (list_elem_of_further _ _ _ Hin)) as H2. congruence.
  - apply IH; [done|]. intros d' e' Hin. apply Hlab. by apply list_elem_of_further.
Qed.

(** X2.  Whatever the list of segments, and whether or not the builder
    stopped on an exception, the two mappings of the network it leaves
    behind have the same keys in the same order, every node of every edge
    is a key, and [incoming] lists for each node exactly the start nodes of
    the edges that end there. *)
Theorem incoming_mirrors_outgoing segments :
  let net := snd (_generate_roads segments empty_network) in
  Dict.keys (outgoing net) = Dict.keys (incoming net)
  /\ (forall s e, (s, e) ∈ convert_to_segments net <->
                  exists preds, Dict.get (incoming net) e = Some preds /\ s ∈ preds)
  /\ (forall s e, (s, e) ∈ convert_to_segments net ->
                  s ∈ Dict.keys (outgoing net) /\ e ∈ Dict.keys (outgoing net)).
Proof.
  intros net. destruct (built_inv segments) as [Hninv Hinv]. fold net in Hninv, Hinv.
  split; [apply (binv_keys _ Hinv)|]. split.
  - intros s e. pose proof (inv_incoming _ Hninv e) as Hperm. split.
    + intros Hin.
      assert (Hs : s ∈ or_empty (Dict.get (incoming net) e)).
      { rewrite Hperm. apply list_elem_of_fmap. exists (s, e). split; [done|].
        by apply list_elem_of_filter. }
      destruct (Dict.get (incoming net) e) as [preds|]; [by exists preds|].
      by apply elem_of_nil in Hs.
    + intros (preds & Hget & Hs). rewrite Hget in Hperm. simpl in Hperm.
      rewrite Hperm in Hs. apply list_elem_of_fmap in Hs as [[s' e'] [-> Hs]].
      apply list_elem_of_filter in Hs as [He Hs]. simpl in He. by subst e'.
  - intros s e Hin. split; [|by apply (binv_targets _ Hinv s e)].
    apply (edge_get _ _ _ Hninv) in Hin as (d & l & _ & Hget & _).
    by eapply dict_get_Some_key.
Qed.

(** X3.  The graph the builder leaves behind is asymmetric: no edge occurs
    twice, no edge occurs together with its reverse, and no node has two
    outgoing edges in the same direction. *)
Theorem built_network_asymmetric segments :
  let net := snd (_generate_roads segments empty_network) in
  NoDup (convert_to_segments net)
  /\ (forall a b, (a, b) ∈ convert_to_segments net -> (b, a) ∉ convert_to_segments net)
  /\ (forall a b c,
        (a, b) ∈ convert_to_segments net -> (a, c) ∈ convert_to_segments net ->
        get_unit_vector (a, b) = get_unit_vector (a, c) -> b = c).
Proof.
  intros net. destruct (built_inv segments) as [Hninv Hinv]. fold net in Hninv, Hinv.
  split; [|split].
  - rewrite convert_to_segments_eq. apply NoDup_graph_segments; [apply Hninv|].
    intros k l Hin. apply (NoDup_targets net k l Hninv Hinv).
    apply dict_elem_get; [apply Hninv | done].
  - intros a b. apply (binv_asymmetric _ Hinv).
  - intros a b c Hb Hc Heq.
    apply (edge_get _ _ _ Hninv) in Hb as (d & l & Hd & Hget & Hin).
    apply (edge_get _ _ _ Hninv) in Hc as (d' & l' & Hd' & Hget' & Hin').
    assert (l' = l) as -> by congruence. assert (d' = d) as -> by congruence.
    eapply NoDup_fst_functional; [|exact Hin|exact Hin']. by apply (binv_directions _ Hinv a).
Qed.

Lemma for_each_ok {A} (l : list A) (body : A -> result unit) :
  for_each l body = Ok tt <-> forall x, x ∈ l -> body x = Ok tt.
Proof.
  induction l as [|a l IH]; simpl.
  - split; [intros _ x Hx; by apply elem_of_nil in Hx | done].
  - destruct (body a) as [[]|e] eqn:Ha; simpl.
    + rewrite IH. split.
      * intros Hl x Hx. apply elem_of_cons in Hx as [->|Hx]; auto.
      * intros Hl x Hx. apply Hl. by apply list_elem_of_further.
    + split; [done|]. intros Hl. specialize (Hl a (list_elem_of_here _ _)). congruence.
Qed.

Lemma for_each_raise {A} (l : list A) (body : A -> result unit) e :
  for_each l body = Raise e -> exists x, x ∈ l /\ body x = Raise e.
Proof.
  induction l as [|a l IH]; simpl; [done|].
  destruct (body a) as [[]|e'] eqn:Ha; simpl.
  - intros Hl. destruct (IH Hl) as (x & Hx & Hb). exists x. split; [|done].
    by apply list_elem_of_further.
  - intros [= ->]. exists a. split; [apply list_elem_of_here | done].
Qed.



(** X4.  [_sort_by_direction] succeeds exactly on the lists in which every
    segment is vertical or horizontal; the two lists it returns are the
    vertical and the horizontal segments, each in the order of the input.
    On every other list it raises. *)
Theorem sort_by_direction_spec segments :
  _sort_by_direction segments
  = if decide (Forall (fun s => vertical s \/ horizontal s) segments)
    then Ok (filter vertical segments, filter horizontal segments)
    else Raise InvalidSegmentError.
Proof.
  induction segments as [|[[x1 y1] [x2 y2]] rest IH].
  - by rewrite decide_True by constructor.
  - cbn [_sort_by_direction]. rewrite IH. clear IH.
    destruct (Z.eqb_spec x1 x2) as [Hx|Hx], (Z.eqb_spec y1 y2) as [Hy|Hy]; simpl.
    + rewrite decide_False; [done|]. intros Hall. apply Forall_cons in Hall as [[Hv|Hh] _].
      * by destruct Hv.
      * by destruct Hh.
    + assert (Hv : vertical ((x1, y1), (x2, y2))) by done.
      assert (Hh : ~ horizontal ((x1, y1), (x2, y2))) by (intros [? ?]; done).
      destruct (decide (Forall _ rest)) as [Hall|Hall]; simpl.
      * rewrite decide_True by (constructor; [by left | done]).
        by rewrite filter_cons_True, filter_cons_False.
      * rewrite decide_False; [done|]. intros H. by apply Forall_cons in H as [_ H].
    + assert (Hh : horizontal ((x1, y1), (x2, y2))) by done.
      assert (Hv : ~ vertical ((x1, y1), (x2, y2))) by (intros [? ?]; done).
      destruct (decide (Forall _ rest)) as [Hall|Hall]; simpl.
      * rewrite decide_True by (constructor; [by right | done]).
        by rewrite filter_cons_False, filter_cons_True.
      * rewrite decide_False; [done|]. intros H. by apply Forall_cons in H as [_ H].
    + rewrite decide_False; [done|]. intros Hall. apply Forall_cons in Hall as [[Hv|Hh] _].
      * by destruct Hv.
      * by destruct Hh.
Qed.

(** X5.  On horizontal and vertical segments, [_check_intersections]
    passes exactly when every point that a horizontal and a vertical
    segment have in common is an end node of both of them. *)
Theorem check_intersections_spec horizontal_lines vertical_lines :
  Forall horizontal horizontal_lines -> Forall vertical vertical_lines ->
  (_check_intersections horizontal_lines vertical_lines = Ok tt <->
   forall h v p, h ∈ horizontal_lines -> v ∈ vertical_lines ->
     on_segment p h -> on_segment p v ->
     (p = fst h \/ p = snd h) /\ (p = fst v \/ p = snd v)).
Proof.
  intros Hhs Hvs. rewrite Forall_forall in Hhs, Hvs.
  unfold _check_intersections. rewrite for_each_ok. split.
  - intros Hok h v p Hh Hv Hph Hpv. specialize (Hok h Hh). rewrite for_each_ok in Hok.
    specialize (Hok v Hv). specialize (Hhs h Hh). specialize (Hvs v Hv).
    destruct h as [[hx1 hy1] [hx2 hy2]], v as [[vx1 vy1] [vx2 vy2]], p as [px py].
    unfold on_segment, horizontal, vertical in *. cbn [fst snd] in *.
    destruct Hhs as [-> Hhx], Hvs as [-> Hvy].
    repeat match type of Hok with
           | context [?a <=? ?b] => destruct (Z.leb_spec a b)
           | context [?a <? ?b] => destruct (Z.ltb_spec a b)
           | context [?a =? ?b] => destruct (Z.eqb_spec a b)
           end; simpl in Hok; try done;
      (split; [destruct (decide (px = hx1)); [left|right] | destruct (decide (py = vy1)); [left|right]]);
      f_equal; lia.
  - intros Hgeo h Hh. rewrite for_each_ok. intros v Hv.
    specialize (Hhs h Hh). specialize (Hvs v Hv).
    pose proof (fun p => Hgeo h v p Hh Hv) as Hp. clear Hgeo.
    destruct h as [[hx1 hy1] [hx2 hy2]], v as [[vx1 vy1] [vx2 vy2]].
    unfold on_segment, horizontal, vertical in *. cbn [fst snd] in *.
    destruct Hhs as [-> Hhx], Hvs as [-> Hvy]. specialize (Hp (vx2, hy2)).
    cbn [fst snd] in Hp.
    repeat match goal with
           | |- context [?a <=? ?b] => destruct (Z.leb_spec a b)
           | |- context [?a <? ?b] => destruct (Z.ltb_spec a b)
           | |- context [?a =? ?b] => destruct (Z.eqb_spec a b)
           end; simpl; try done; exfalso;
      (destruct Hp as [[Hp1|Hp1] [Hp2|Hp2]]; [lia | lia | ..]);
      simplify_eq; lia.
Qed.

Lemma check_adjacent_pairs_raise fixed_axis main_axis l e :
  check_adjacent_pairs fixed_axis main_axis l = Raise e ->
  e = OverlapError
  /\ exists l1 a b l2, l = l1 ++ a :: b :: l2
                       /\ adjacent_pair_overlaps fixed_axis main_axis a b = true.
Proof.
  induction l as [|a [|b l] IH]; simpl; [done..|].
  destruct (adjacent_pair_overlaps fixed_axis main_axis a b) eqn:Hab.
  - intros [= <-]. split; [done|]. by exists [], a, b, l.
  - intros Hrest. destruct (IH Hrest) as (-> & l1 & a' & b' & l2 & Hl & Hov).
    split; [done|]. exists (a :: l1), a', b', l2. split; [|done]. simpl. by rewrite Hl.
Qed.

(** X6.  When [_check_adjacent_overlap] raises on segments that all have
    an extent along the orientation, two segments of the list really
    overlap: they lie on one line and their ranges have more than a point
    in common. *)
Theorem check_adjacent_overlap_sound segments orientation e :
  let fixed_axis := if String.eqb orientation "horizontal" then 1%nat else 0%nat in
  let main_axis := if String.eqb orientation "horizontal" then 0%nat else 1%nat in
  Forall (fun s => coord main_axis (fst s) <> coord main_axis (snd s)) segments ->
  _check_adjacent_overlap segments orientation = Raise e ->
  e = OverlapError
  /\ exists a b rest, segments ≡ₚ a :: b :: rest
       /\ coord fixed_axis (fst a) = coord fixed_axis (fst b)
       /\ ranges_overlap main_axis a b.
Proof.
  intros fixed_axis main_axis Hall. unfold _check_adjacent_overlap.
  assert (Haxes : (if String.eqb orientation "horizontal" then (1%nat, 0%nat)
                   else (0%nat, 1%nat)) = (fixed_axis, main_axis)).
  { unfold fixed_axis, main_axis. by destruct (String.eqb orientation "horizontal"). }
  rewrite Haxes. clear Haxes. intros Hraise.
  apply check_adjacent_pairs_raise in Hraise as (-> & l1 & a & b & l2 & Hsorted & Hov).
  split; [done|].
  pose proof (sorted_by_perm (fun line => coord main_axis (fst line)) segments) as Hperm.
  rewrite Hsorted in Hperm.
  assert (Ha : a ∈ segments).
  { rewrite <- Hperm. apply elem_of_app. right. apply list_elem_of_here. }
  rewrite Forall_forall in Hall.
  apply (adjacent_pair_overlaps_sound _ _ _ _ (Hall a Ha)) in Hov as [Hline Hranges].
  exists a, b, (l1 ++ l2). split; [|done].
  rewrite <- Hperm. symmetry. by rewrite !Permutation_middle.
Qed.

Lemma result_bind_ok {A} (r : result A) (k : A -> result unit) :
  result_bind r k = Ok tt <-> exists a, r = Ok a /\ k a = Ok tt.
Proof.
  destruct r as [a|e]; simpl.
  - split; [by exists a | by intros (a' & [= <-] & ?)].
  - split; [done | by intros (a' & ? & ?)].
Qed.

Lemma gates_of_generate_gates net n :
  network_inv net -> Dict.keys (outgoing net) = Dict.keys (incoming net) ->
  n ∈ Dict.keys (outgoing net) ->
  (n ∈ exit_gates (_generate_gates net)
     <-> in_degree net n = 1%nat /\ out_degree net n = 0%nat)
  /\ (n ∈ entry_gates (_generate_gates net)
     <-> out_degree net n = 1%nat /\ in_degree net n = 0%nat).
Proof.
  intros Hinv Hkeys Hn. rewrite (out_degree_eq _ _ Hinv), (in_degree_eq _ _ Hinv).
  unfold _generate_gates. cbn [exit_gates entry_gates]. rewrite !list_elem_of_filter.
  rewrite <- Hkeys. tauto.
Qed.

(** X7.  With the gates that [_generate_gates] derives,
    [search_for_invalid_intersections] passes exactly when every node
    without an outgoing edge has exactly one incoming edge and every node
    without an incoming edge has exactly one outgoing edge: a dead end
    reached by two roads, or a source that feeds two roads, is rejected. *)
Theorem search_for_invalid_intersections_spec net :
  network_inv net -> Dict.keys (outgoing net) = Dict.keys (incoming net) ->
  (search_for_invalid_intersections (_generate_gates net) = Ok tt <->
   forall n, n ∈ Dict.keys (outgoing net) ->
     (out_degree net n = 0%nat -> in_degree net n = 1%nat)
     /\ (in_degree net n = 0%nat -> out_degree net n = 1%nat)).
Proof.
  intros Hinv Hkeys. unfold search_for_invalid_intersections.
  rewrite result_bind_ok.
  assert (Hout : forall n edges, (n, edges) ∈ outgoing net ->
            n ∈ Dict.keys (outgoing net) /\ out_degree net n = length edges).
  { intros n edges Hin. apply dict_elem_get in Hin; [|apply Hinv].
    split; [by eapply dict_get_Some_key|]. by rewrite (out_degree_eq _ _ Hinv), Hin. }
  assert (Hin : forall n preds, (n, preds) ∈ incoming net ->
            n ∈ Dict.keys (outgoing net) /\ in_degree net n = length preds).
  { intros n preds Hin. apply dict_elem_get in Hin; [|apply Hinv].
    split; [rewrite Hkeys; by eapply dict_get_Some_key|].
    by rewrite (in_degree_eq _ _ Hinv), Hin. }
  split.
  - intros ([] & Hexit & Hentry) n Hn.
    rewrite for_each_ok in Hexit. rewrite for_each_ok in Hentry.
    destruct (gates_of_generate_gates net n Hinv Hkeys Hn) as [Hx He]. split.
    + intros Hdeg.
      destruct (Dict.get (outgoing net) n) as [edges|] eqn:Hget;
        [|by apply dict_get_None in Hget].
      apply dict_get_elem in Hget. specialize (Hexit _ Hget). cbn beta iota in Hexit.
      destruct (Hout _ _ Hget) as [_ Hlen]. rewrite Hdeg in Hlen.
      destruct edges; [|done].
      destruct (node_in n (exit_gates (_generate_gates net))) eqn:Hgate; [|done].
      apply bool_decide_eq_true in Hgate. by apply Hx in Hgate as [? _].
    + intros Hdeg. rewrite Hkeys in Hn.
      destruct (Dict.get (incoming net) n) as [preds|] eqn:Hget;
        [|by apply dict_get_None in Hget].
      apply dict_get_elem in Hget. specialize (Hentry _ Hget). cbn beta iota in Hentry.
      destruct (Hin _ _ Hget) as [_ Hlen]. rewrite Hdeg in Hlen.
      destruct preds; [|done].
      destruct (node_in n (entry_gates (_generate_gates net))) eqn:Hgate; [|done].
      apply bool_decide_eq_true in Hgate. by apply He in Hgate as [? _].
  - intros Hdeg. exists tt. split.
    + apply for_each_ok. intros [n edges] Hget. destruct (Hout _ _ Hget) as [Hn Hlen].
      destruct (gates_of_generate_gates net n Hinv Hkeys Hn) as [Hx _].
      destruct edges as [|edge edges]; [|done]. cbn [is_empty andb]. unfold node_in.
      rewrite bool_decide_eq_true_2; [done|]. apply Hx. split; [|done]. by apply Hdeg.
    + apply for_each_ok. intros [n preds] Hget. destruct (Hin _ _ Hget) as [Hn Hlen].
      destruct (gates_of_generate_gates net n Hinv Hkeys Hn) as [_ He].
      destruct preds as [|pred preds]; [|done]. cbn [is_empty andb]. unfold node_in.
      rewrite bool_decide_eq_true_2; [done|]. apply He. split; [|done]. by apply Hdeg.
Qed.

Lemma check_intersections_witness :
  _check_intersections [((0, 0), (10, 0))] [((10, 0), (10, 5)); ((0, -5), (0, 0))] = Ok tt
  <-> forall h v p,
        h ∈ [((0, 0), (10, 0))] -> v ∈ [((10, 0), (10, 5)); ((0, -5), (0, 0))] ->
        on_segment p h -> on_segment p v ->
        (p = fst h \/ p = snd h) /\ (p = fst v \/ p = snd v).
Proof.
  apply check_intersections_spec.
  - repeat constructor; done.
  - repeat constructor; done.
Defined.

Lemma check_adjacent_overlap_sound_witness :
  OverlapError = OverlapError
  /\ exists a b rest,
       [((0, 0), (10, 0)); ((20, 0), (30, 0)); ((5, 0), (15, 0))] ≡ₚ a :: b :: rest
       /\ coord 1 (fst a) = coord 1 (fst b)
       /\ ranges_overlap 0 a b.
Proof.
  apply (check_adjacent_overlap_sound
           [((0, 0), (10, 0)); ((20, 0), (30, 0)); ((5, 0), (15, 0))] "horizontal").
  - repeat constructor; done.
  - reflexivity.
Defined.

Lemma search_for_invalid_intersections_witness :
  let net := snd (_generate_roads test_segments empty_network) in
  search_for_invalid_intersections (_generate_gates net) = Ok tt <->
  forall n, n ∈ Dict.keys (outgoing net) ->
    (out_degree net n = 0%nat -> in_degree net n = 1%nat)
    /\ (in_degree net n = 0%nat -> out_degree net n = 1%nat).
Proof.
  intros net. apply search_for_invalid_intersections_spec.
  - apply test_network_inv.
  - reflexivity.
Defined.

Lemma set_add_elem node visited x : x ∈ set_add node visited <-> x = node \/ x ∈ visited.
Proof.
  unfold set_add, node_in. case_bool_decide as Hnode.
  - split; [by right | by intros [->|?]].
  - rewrite elem_of_app, list_elem_of_singleton. tauto.
Qed.

Lemma set_add_NoDup node visited : NoDup visited -> NoDup (set_add node visited).
Proof.
  intros Hnd. unfold set_add, node_in. case_bool_decide as Hnode; [done|].
  apply NoDup_app. split; [done|]. split; [|apply NoDup_singleton].
  intros x Hx Hx'. apply list_elem_of_singleton in Hx' as ->. done.
Qed.

Lemma edges_of_node net node edges x :
  Dict.wf (outgoing net) -> Dict.get (outgoing net) node = Some edges ->
  x ∈ map snd edges <-> edge net node x.
Proof.
  intros Hwf Hget. unfold edge. rewrite convert_to_segments_eq, graph_segments_elem. split.
  - intros Hx. apply list_elem_of_fmap in Hx as [[d x'] [-> Hx]].
    exists edges, d. split; [by apply dict_get_elem | done].
  - intros (l & d & Hl & Hx). apply (dict_elem_get _ _ _ Hwf) in Hl.
    assert (l = edges) as -> by congruence. apply list_elem_of_fmap. by exists (d, x).
Qed.

Lemma reachable_is_key net n :
  (forall s e, edge net s e -> e ∈ Dict.keys (outgoing net)) ->
  (forall gate, gate ∈ entry_gates net -> gate ∈ Dict.keys (outgoing net)) ->
  reachable_from_entry net n -> n ∈ Dict.keys (outgoing net).
Proof.
  intros Htargets Hentry (gate & Hgate & Hpath).
  destruct Hpath as [gate|gate m n _ Hedge]; eauto.
Qed.

Lemma reach_inv_step net visited node stack edges :
  Dict.wf (outgoing net) -> Dict.get (outgoing net) node = Some edges ->
  reach_inv net visited (node :: stack) ->
  reach_inv net (set_add node visited)
    (rev (filter (fun n => n ∉ set_add node visited) (map snd edges)) ++ stack).
Proof.
  intros Hwf Hget (Hnd & Hreach & Hgates & Hclosed).
  assert (Hpushed : forall x,
    x ∈ rev (filter (fun n => n ∉ set_add node visited) (map snd edges))
    <-> edge net node x /\ x ∉ set_add node visited).
  { intros x. rewrite elem_of_rev, list_elem_of_filter, (edges_of_node net node edges x Hwf Hget).
    tauto. }
  split; [by apply set_add_NoDup|]. split; [|split].
  - intros x. rewrite !elem_of_app, set_add_elem, Hpushed.
    intros [[->|Hx]|[[Hedge _]|Hx]].
    + apply Hreach. apply elem_of_app. right. apply list_elem_of_here.
    + apply Hreach. apply elem_of_app. by left.
    + destruct (Hreach node) as (gate & Hgate & Hpath).
      { apply elem_of_app. right. apply list_elem_of_here. }
      exists gate. split; [done|]. by eapply path_next.
    + apply Hreach. apply elem_of_app. right. by apply list_elem_of_further.
  - intros gate Hgate. specialize (Hgates gate Hgate).
    rewrite !elem_of_app, set_add_elem. rewrite elem_of_app, elem_of_cons in Hgates. tauto.
  - intros v x. rewrite !elem_of_app, set_add_elem, Hpushed. intros [->|Hv] Hedge.
    + destruct (decide (x ∈ set_add node visited)) as [Hx|Hx].
      * by left.
      * right. left. done.
    + specialize (Hclosed v x Hv Hedge). rewrite elem_of_app, elem_of_cons in Hclosed.
      rewrite set_add_elem. tauto.
Qed.

Lemma path_closed (step : Node -> Node -> Prop) (visited : list Node) a b :
  (forall v x, v ∈ visited -> step v x -> x ∈ visited) ->
  a ∈ visited -> path step a b -> b ∈ visited.
Proof. intros Hclosed Ha Hpath. induction Hpath as [|a b c Hab IHp Hbc]; eauto. Qed.

Lemma reach_inv_done net visited x :
  reach_inv net visited [] -> x ∈ visited <-> reachable_from_entry net x.
Proof.
  intros (Hnd & Hreach & Hgates & Hclosed). split.
  - intros Hx. apply Hreach. apply elem_of_app. by left.
  - intros (gate & Hgate & Hpath). specialize (Hgates gate Hgate).
    rewrite app_nil_r in Hgates. apply (path_closed (edge net) visited gate x); [|done..].
    intros v y Hv Hedge. specialize (Hclosed v y Hv Hedge). by rewrite app_nil_r in Hclosed.
Qed.

Lemma reachability_loop_result net fuel visited stack r :
  Dict.wf (outgoing net) ->
  (forall s e, edge net s e -> e ∈ Dict.keys (outgoing net)) ->
  (forall gate, gate ∈ entry_gates net -> gate ∈ Dict.keys (outgoing net)) ->
  reach_inv net visited stack ->
  reachability_loop fuel (outgoing net) visited stack = r ->
  match r with
  | Ok out => NoDup out /\ forall x, x ∈ out <-> reachable_from_entry net x
  | Raise e => e = OutOfFuel
  end.
Proof.
  intros Hwf Htargets Hentry. revert visited stack r.
  induction fuel as [|fuel IH]; intros visited stack r Hinv <-.
  - destruct stack as [|node stack]; [|done]. simpl.
    split; [apply Hinv|]. intros x. by apply reach_inv_done.
  - destruct stack as [|node stack].
    + simpl. split; [apply Hinv|]. intros x. by apply reach_inv_done.
    + cbn [reachability_loop]. unfold Dict.getitem.
      destruct (Dict.get (outgoing net) node) as [edges|] eqn:Hget.
      * cbn [result_bind]. rewrite reach_push_spec. eapply IH; [|reflexivity].
        by apply reach_inv_step.
      * exfalso. apply dict_get_None in Hget. apply Hget.
        apply reachable_is_key; [done..|]. destruct Hinv as (_ & Hreach & _).
        apply Hreach. apply elem_of_app. right. apply list_elem_of_here.
Qed.

Lemma same_length_all {A} (l k : list A) :
  NoDup l -> NoDup k -> (forall x, x ∈ l -> x ∈ k) ->
  length l = length k <-> forall x, x ∈ k -> x ∈ l.
Proof.
  intros Hl Hk Hsub. split.
  - intros Hlen x Hx.
    assert (l ≡ₚ k) as ->; [|done].
    apply submseteq_length_Permutation; [by apply NoDup_submseteq | lia].
  - intros Hsup. apply Nat.le_antisymm.
    + by apply submseteq_length, NoDup_submseteq.
    + by apply submseteq_length, NoDup_submseteq.
Qed.



(** X8.  On a network whose end nodes and entry gates are all keys,
    [enforce_reachability] passes exactly when every node can be reached
    from some entry gate along the edges; otherwise it raises its
    [RuntimeError], and it never fails on a dictionary lookup. *)
Theorem enforce_reachability_spec net :
  Dict.wf (outgoing net) ->
  (forall s e, edge net s e -> e ∈ Dict.keys (outgoing net)) ->
  (forall gate, gate ∈ entry_gates net -> gate ∈ Dict.keys (outgoing net)) ->
  (enforce_reachability net = Ok tt <->
     forall n, n ∈ Dict.keys (outgoing net) -> reachable_from_entry net n)
  /\ (enforce_reachability net <> Ok tt ->
      enforce_reachability net = Raise UnreachableNodeError).
Proof.
  intros Hwf Htargets Hentry. unfold enforce_reachability.
  assert (Hinit : reach_inv net [] (rev (entry_gates net))).
  { split; [apply NoDup_nil_2|]. split; [|split].
    - intros x Hx. rewrite app_nil_l, elem_of_rev in Hx. exists x. split; [done|].
      apply path_here.
    - intros gate Hgate. by rewrite app_nil_l, elem_of_rev.
    - intros v x Hv. by apply elem_of_nil in Hv. }
  destruct (reachability_loop _ _ _ _) as [out|e] eqn:Hrun;
    pose proof (reachability_loop_result net _ _ _ _ Hwf Htargets Hentry Hinit Hrun) as Hloop;
    cbn beta iota in Hloop.
  - destruct Hloop as [Hnd Hout]. cbn [result_bind].
    assert (Hlen : length out = length (outgoing net)
                   <-> forall n, n ∈ Dict.keys (outgoing net) -> reachable_from_entry net n).
    { replace (length (outgoing net)) with (length (Dict.keys (outgoing net)))
        by (unfold Dict.keys; apply length_map).
      rewrite same_length_all; [|done|done|].
      - split; intros H n Hn; [by apply Hout, H | by apply Hout, H].
      - intros x Hx. apply reachable_is_key; [done..|]. by apply Hout. }
    destruct (Nat.eqb_spec (length out) (length (outgoing net))) as [Heq|Hne]; simpl.
    + split; [|done]. split; [intros _; by apply Hlen | done].
    + split; [|done]. split; [done|]. intros Hall. by apply Hlen in Hall.
  - exfalso. subst e. revert Hrun. apply reachability_loop_fuel.
    + intros above u below edges _ Hu. by apply elem_of_nil in Hu.
    + rewrite unvisited_edges_nil, length_rev, convert_to_segments_eq. lia.
Qed.

Lemma generate_gates_entry_keys net gate :
  gate ∈ entry_gates (_generate_gates net) -> gate ∈ Dict.keys (outgoing (_generate_gates net)).
Proof. unfold _generate_gates. cbn [entry_gates outgoing]. by intros [_ ?]%list_elem_of_filter. Qed.

Lemma test_network_targets s e :
  edge (_generate_gates (snd (_generate_roads test_segments empty_network))) s e ->
  e ∈ Dict.keys (outgoing (_generate_gates (snd (_generate_roads test_segments empty_network)))).
Proof.
  apply (binv_targets _ (generate_gates_builder_inv _ (proj2 (built_inv test_segments)))).
Qed.

Lemma enforce_reachability_witness :
  let net := _generate_gates (snd (_generate_roads test_segments empty_network)) in
  (enforce_reachability net = Ok tt <->
     forall n, n ∈ Dict.keys (outgoing net) -> reachable_from_entry net n)
  /\ (enforce_reachability net <> Ok tt ->
      enforce_reachability net = Raise UnreachableNodeError).
Proof.
  intros net. apply enforce_reachability_spec.
  - apply (bool_decide_unpack _). vm_compute. reflexivity.
  - apply test_network_targets.
  - apply generate_gates_entry_keys.
Defined.

Lemma undirected_graph_of_flat (g : Graph) acc :
  fold_left
    (fun acc '(node, edges) =>
       fold_left
         (fun acc' edge =>
            (do u <- acc';
             do u1 <- dict_append u node (snd edge);
             dict_append u1 (snd edge) node)%result)
         edges acc)
    g acc
  = fold_left add_both (graph_segments g) acc.
Proof.
  revert acc. induction g as [|[node edges] g IH]; intros acc; simpl; [done|].
  rewrite fold_left_app, IH. f_equal. clear IH.
  revert acc. induction edges as [|edge edges IH]; intros acc; simpl; [done|].
  by rewrite IH.
Qed.

Lemma dict_append_spec (d : Dict.t Node (list Node)) k x :
  k ∈ Dict.keys d ->
  exists d', dict_append d k x = Ok d'
             /\ Dict.keys d' = Dict.keys d
             /\ forall n y, neighbour d' n y <-> neighbour d n y \/ (n = k /\ y = x).
Proof.
  intros Hk. unfold dict_append, Dict.getitem.
  destruct (Dict.get d k) as [l|] eqn:Hget; [|by apply dict_get_None in Hget].
  simpl. eexists. split; [done|]. split.
  - apply dict_keys_set_present. congruence.
  - intros n y. unfold neighbour. destruct (decide (k = n)) as [<-|Hne].
    + rewrite dict_get_set_eq, Hget. simpl. rewrite elem_of_app, list_elem_of_singleton.
      tauto.
    + rewrite dict_get_set_ne by done. split; [by left|]. intros [?|[-> _]]; done.
Qed.

Lemma add_both_spec (segs : list Segment) (u0 : Dict.t Node (list Node)) :
  (forall s e, (s, e) ∈ segs -> s ∈ Dict.keys u0 /\ e ∈ Dict.keys u0) ->
  exists u, fold_left add_both segs (Ok u0) = Ok u
            /\ Dict.keys u = Dict.keys u0
            /\ forall n x, neighbour u n x
                           <-> neighbour u0 n x \/ (n, x) ∈ segs \/ (x, n) ∈ segs.
Proof.
  revert u0. induction segs as [|[s e] segs IH]; intros u0 Hkeys; simpl.
  - exists u0. split; [done|]. split; [done|]. intros n x.
    split; [by left|]. intros [?|[H|H]]; [done|by apply elem_of_nil in H..].
  - destruct (Hkeys s e (list_elem_of_here _ _)) as [Hs He].
    destruct (dict_append_spec u0 s e Hs) as (u1 & -> & Hk1 & Hn1). simpl.
    rewrite <- Hk1 in He.
    destruct (dict_append_spec u1 e s He) as (u2 & -> & Hk2 & Hn2).
    destruct (IH u2) as (u & Hu & Hk & Hn).
    { intros s' e' Hin. rewrite Hk2, Hk1. apply Hkeys. by apply list_elem_of_further. }
    exists u. split; [done|]. split; [congruence|].
    intros n x. rewrite Hn, Hn2, Hn1, !elem_of_cons. split.
    + intros [[[?|[-> ->]]|[-> ->]]|[?|?]]; tauto.
    + intros [?|[[[= -> ->]|?]|[[= -> ->]|?]]]; tauto.
Qed.

Lemma no_neighbour_yet (g : Graph) n x :
  ~ neighbour (map (fun '(node, _) => (node, [])) g) n x.
Proof.
  unfold neighbour. induction g as [|[k l] g IH]; simpl; [apply not_elem_of_nil|].
  destruct (decide (k = n)); [apply not_elem_of_nil | done].
Qed.

Lemma undirected_graph_of_spec net :
  (forall s e, edge net s e -> e ∈ Dict.keys (outgoing net)) ->
  exists u, undirected_graph_of (outgoing net) = Ok u
            /\ Dict.keys u = Dict.keys (outgoing net)
            /\ forall n x, neighbour u n x <-> joined net n x.
Proof.
  intros Htargets. unfold undirected_graph_of. rewrite undirected_graph_of_flat.
  set (u0 := map (fun '(node, _) => (node, [])) (outgoing net)).
  assert (Hk0 : Dict.keys u0 = Dict.keys (outgoing net)).
  { unfold u0, Dict.keys. rewrite map_map. apply map_ext. by intros [node edges]. }
  assert (Hn0 : forall n x, ~ neighbour u0 n x) by apply no_neighbour_yet.
  destruct (add_both_spec (graph_segments (outgoing net)) u0) as (u & Hu & Hk & Hn).
  { intros s e Hin. rewrite Hk0. split; [|by apply (Htargets s)].
    apply graph_segments_elem in Hin as (l & d & Hin & _).
    apply list_elem_of_fmap. by exists (s, l). }
  exists u. split; [done|]. split; [congruence|].
  intros n x. rewrite Hn. unfold joined, edge. rewrite convert_to_segments_eq.
  split; [|tauto]. intros [H|H]; [by apply Hn0 in H | done].
Qed.

Lemma search_fold_spec (neighbors vis q vis' q' : list Node) :
  fold_left (fun '(vis, q) neighbor =>
               if node_in neighbor vis then (vis, q)
               else (vis ++ [neighbor], q ++ [neighbor]))
            neighbors (vis, q) = (vis', q') ->
  exists new, vis' = vis ++ new /\ q' = q ++ new
              /\ (forall x, x ∈ new -> x ∈ neighbors /\ x ∉ vis)
              /\ (forall x, x ∈ neighbors -> x ∈ vis ++ new)
              /\ (NoDup vis -> NoDup vis').
Proof.
  revert vis q. induction neighbors as [|n neighbors IH]; intros vis q; simpl.
  - intros [= <- <-]. exists []. rewrite !app_nil_r.
    split; [done|]. split; [done|]. split; [|split; [|done]].
    + intros x Hx. by apply elem_of_nil in Hx.
    + intros x Hx. by apply elem_of_nil in Hx.
  - destruct (node_in n vis) eqn:Hn;
      [apply bool_decide_eq_true in Hn | apply bool_decide_eq_false in Hn].
    + intros Hfold. destruct (IH _ _ Hfold) as (new & -> & -> & Hnew & Hall & Hnd).
      exists new. split; [done|]. split; [done|]. split; [|split; [|done]].
      * intros x Hx. split; [|by apply Hnew]. apply list_elem_of_further. by apply Hnew.
      * intros x Hx. apply elem_of_cons in Hx as [->|Hx]; [|by apply Hall].
        apply elem_of_app. by left.
    + intros Hfold. destruct (IH _ _ Hfold) as (new & -> & -> & Hnew & Hall & Hnd).
      exists (n :: new). rewrite <- !app_assoc. simpl.
      split; [done|]. split; [done|]. split; [|split].
      * intros x Hx. apply elem_of_cons in Hx as [->|Hx].
        -- split; [apply list_elem_of_here | done].
        -- split; [apply list_elem_of_further; by apply Hnew|].
           intros Hvis. apply (Hnew x Hx). apply elem_of_app. by left.
      * intros x Hx. apply elem_of_cons in Hx as [->|Hx].
        -- apply elem_of_app. right. apply list_elem_of_here.
        -- specialize (Hall x Hx). rewrite <- app_assoc in Hall. done.
      * intros Hvis. rewrite <- app_assoc in Hnd. apply Hnd.
        apply NoDup_app. split; [done|]. split; [|apply NoDup_singleton].
        intros x Hx Hx'. apply list_elem_of_singleton in Hx' as ->. done.
Qed.

Lemma path_trans (step : Node -> Node -> Prop) a b c :
  path step a b -> path step b c -> path step a c.
Proof.
  intros Hab Hbc. induction Hbc as [|b c d Hbc IH Hcd]; [done|].
  eapply path_next; [by apply IH | done].
Qed.

Lemma path_sym (step : Node -> Node -> Prop) a b :
  (forall x y, step x y -> step y x) -> path step a b -> path step b a.
Proof.
  intros Hsym Hab. induction Hab as [|a b c Hab IH Hbc]; [apply path_here|].
  eapply path_trans; [|exact IH]. eapply path_next; [apply path_here|]. by apply Hsym.
Qed.

Lemma path_ext (step step' : Node -> Node -> Prop) a b :
  (forall x y, step x y -> step' x y) -> path step a b -> path step' a b.
Proof.
  intros Hext Hab. induction Hab as [|a b c Hab IH Hbc]; [apply path_here|].
  eapply path_next; [exact IH | by apply Hext].
Qed.

Lemma search_inv_step u start_node node queue visited neighbors vis' q' :
  (forall n x, neighbour u n x -> x ∈ Dict.keys u) ->
  search_inv u start_node visited (node :: queue) ->
  Dict.get u node = Some neighbors ->
  fold_left (fun '(vis, q) neighbor =>
               if node_in neighbor vis then (vis, q)
               else (vis ++ [neighbor], q ++ [neighbor]))
            neighbors (visited, queue) = (vis', q') ->
  search_inv u start_node vis' q'.
Proof.
  intros Hkeys (Hnd & Hstart & Hqueue & Hpath & Hclosed) Hget Hfold.
  apply search_fold_spec in Hfold as (new & -> & -> & Hnew & Hall & Hnd').
  assert (Hnode : node ∈ visited) by apply Hqueue, list_elem_of_here.
  assert (Hnb : forall x, x ∈ neighbors <-> neighbour u node x).
  { intros x. unfold neighbour. by rewrite Hget. }
  split; [by apply Hnd'|]. split; [apply elem_of_app; by left|]. split; [|split].
  - intros x Hx. apply elem_of_app in Hx as [Hx|Hx]; apply elem_of_app; [left|by right].
    apply Hqueue. by apply list_elem_of_further.
  - intros x Hx. apply elem_of_app in Hx as [Hx|Hx]; [by apply Hpath|].
    destruct (Hnew x Hx) as [Hx' _]. apply Hnb in Hx'. split; [|by eapply Hkeys].
    eapply path_next; [|exact Hx']. by apply Hpath.
  - intros v x Hv Hnot Hvx. rewrite elem_of_app in Hnot.
    apply elem_of_app in Hv as [Hv|Hv]; [|tauto].
    destruct (decide (v = node)) as [->|Hne].
    + apply Hall. by apply Hnb.
    + apply elem_of_app. left. apply (Hclosed v x Hv); [|done].
      rewrite elem_of_cons. tauto.
Qed.

Lemma connected_loop_result u start_node fuel visited queue r :
  (forall n x, neighbour u n x -> x ∈ Dict.keys u) ->
  search_inv u start_node visited queue ->
  connected_loop fuel u visited queue = r ->
  match r with
  | Ok out => NoDup out
              /\ forall x, x ∈ out <-> path (neighbour u) start_node x
  | Raise e => e = OutOfFuel
  end.
Proof.
  intros Hkeys. revert visited queue r.
  assert (Hdone : forall visited, search_inv u start_node visited [] ->
            NoDup visited /\ forall x, x ∈ visited <-> path (neighbour u) start_node x).
  { intros visited (Hnd & Hstart & Hqueue & Hpath & Hclosed). split; [done|].
    intros x. split; [by apply Hpath|]. intros Hx.
    apply (path_closed (neighbour u) visited start_node x); [|done..].
    intros v y Hv. apply Hclosed; [done|]. apply not_elem_of_nil. }
  induction fuel as [|fuel IH]; intros visited queue r Hinv <-.
  - destruct queue as [|node queue]; [|done]. by apply Hdone.
  - destruct queue as [|node queue]; [by apply Hdone|].
    cbn [connected_loop]. unfold Dict.getitem.
    destruct (Dict.get u node) as [neighbors|] eqn:Hget.
    + cbn [result_bind].
      destruct (fold_left _ neighbors (visited, queue)) as [vis' q'] eqn:Hfold.
      eapply IH; [|reflexivity]. by eapply search_inv_step.
    + exfalso. apply dict_get_None in Hget. apply Hget.
      destruct Hinv as (_ & _ & Hqueue & Hpath & _).
      apply Hpath, Hqueue, list_elem_of_here.
Qed.



(** X9.  On a network whose end nodes are all keys,
    [_check_is_connected_network] passes exactly when any two nodes are
    joined by a chain of edges, each followed in either direction (a
    network without nodes passes); otherwise it raises its [ValueError],
    and it never fails on a dictionary lookup. *)
Theorem check_is_connected_network_spec net :
  Dict.wf (outgoing net) ->
  (forall s e, edge net s e -> e ∈ Dict.keys (outgoing net)) ->
  (_check_is_connected_network net = Ok tt <-> connected net)
  /\ (_check_is_connected_network net <> Ok tt ->
      _check_is_connected_network net = Raise ConnectivityError).
Proof.
  intros Hwf Htargets. unfold _check_is_connected_network.
  destruct (undirected_graph_of_spec net Htargets) as (u & Hu & Hk & Hn).
  destruct (outgoing net) as [|[start_node edges0] g] eqn:Hout.
  { split; [|done]. split; [|done]. intros _ a b Ha. rewrite Hout in Ha.
    by apply elem_of_nil in Ha. }
  rewrite <- Hout in *. rewrite Hu. cbn [result_bind].
  assert (Hkeys : Dict.keys u = start_node :: Dict.keys g).
  { rewrite Hk, Hout. done. }
  rewrite Hkeys. cbv zeta.
  assert (Hclosed : forall n x, neighbour u n x -> x ∈ Dict.keys u).
  { intros n x Hnx. apply Hn in Hnx as [Hnx|Hnx]; rewrite Hk.
    - by apply (Htargets n).
    - unfold edge in Hnx. rewrite convert_to_segments_eq in Hnx.
      apply graph_segments_elem in Hnx as (l & d & Hin & _).
      apply list_elem_of_fmap. by exists (x, l). }
  assert (Hinit : search_inv u start_node [start_node] [start_node]).
  { split; [apply NoDup_singleton|]. split; [apply list_elem_of_here|].
    split; [done|]. split.
    - intros x Hx. apply list_elem_of_singleton in Hx as ->.
      split; [apply path_here|]. rewrite Hkeys. apply list_elem_of_here.
    - intros v x Hv Hnot. done. }
  destruct (connected_loop _ u [start_node] [start_node]) as [out|e] eqn:Hrun;
    pose proof (connected_loop_result u start_node _ _ _ _ Hclosed Hinit Hrun) as Hloop;
    cbn beta iota in Hloop.
  - destruct Hloop as [Hnd Hreach]. cbn [result_bind].
    assert (Hall : length u = length out <-> connected net).
    { replace (length u) with (length (Dict.keys u)) by (unfold Dict.keys; apply length_map).
      assert (Hlen : length (Dict.keys u) = length out <-> length out = length (Dict.keys u))
        by (split; intros ?; done).
      rewrite Hlen, same_length_all; [|done|by rewrite Hk|].
      - split.
        + intros Hvisit a b Ha Hb. rewrite <- Hk in Ha, Hb.
          assert (Hsa : path (joined net) start_node a).
          { apply (path_ext (neighbour u)); [intros x y; apply Hn|]. by apply Hreach, Hvisit. }
          assert (Hsb : path (joined net) start_node b).
          { apply (path_ext (neighbour u)); [intros x y; apply Hn|]. by apply Hreach, Hvisit. }
          eapply path_trans; [|exact Hsb]. apply path_sym; [|done].
          intros x y [?|?]; [by right | by left].
        + intros Hconn x Hx. apply Hreach.
          apply (path_ext (joined net)); [intros a b; apply Hn|].
          apply Hconn; rewrite <- Hk; [|done]. rewrite Hkeys. apply list_elem_of_here.
      - intros x Hx. apply Hreach in Hx.
        destruct Hx as [|a b c _ Hbc]; [rewrite Hkeys; apply list_elem_of_here|].
        by eapply Hclosed. }
    destruct (Nat.eqb_spec (length u) (length out)) as [Heq|Hne]; simpl.
    + split; [|done]. split; [intros _; by apply Hall | done].
    + split; [|done]. split; [done|]. intros Hconn. by apply Hall in Hconn.
  - exfalso. subst e. revert Hrun. apply connected_loop_fuel.
    + apply NoDup_singleton.
    + intros x ->%list_elem_of_singleton. unfold occurring_nodes. rewrite Hkeys.
      apply list_elem_of_here.
    + unfold occurring_nodes, Dict.keys. rewrite length_app, length_map. simpl. lia.
Qed.

Lemma check_is_connected_network_witness :
  let net := _generate_gates (snd (_generate_roads test_segments empty_network)) in
  (_check_is_connected_network net = Ok tt <-> connected net)
  /\ (_check_is_connected_network net <> Ok tt ->
      _check_is_connected_network net = Raise ConnectivityError).
Proof.
  intros net. apply check_is_connected_network_spec.
  - apply (bool_decide_unpack _). vm_compute. reflexivity.
  - apply test_network_targets.
Defined.
